(** * The World coordinator of the entity/system runtime

    A shallow embedding of [source/client/game/World.ts]: the entity
    registry (a JavaScript [Map], insertion ordered), the priority-ordered
    system list, the scene-graph root, the three world flags, and the
    operations that register, remove, schedule, tear down, snapshot and
    restore them.

    JavaScript objects are shared and mutated in place, so entities and
    systems live in a store and the world holds references to them.  The
    hooks of entities and systems are opaque to the world: an invocation is
    recorded in a trace, and a frame hook either returns or raises.  A hook
    acts on its own object and does not call back into the world, so a loop
    runs over the collection it started with.  Console output is not part
    of the state. *)

From Stdlib Require Import ZArith List String Bool Lia Sorted Permutation.
From stdpp Require Import base functions gmap strings.
Import ListNotations.
Local Open Scope string_scope.
Local Open Scope list_scope.

(** ** References and numbers *)

Definition EntityId := string.
Definition EntityRef := nat.
Definition SystemRef := nat.
Definition NodeRef := nat.

(** A JavaScript number that the scheduler only forwards to the hooks
    (the frame's delta time); no arithmetic is done on it. *)
Definition Number := Z.

(** What an opaque frame hook does when the world calls it. *)
Inductive HookBehaviour := Returns | Raises.

(** ** A JavaScript [Map] with string keys: insertion-ordered, unique keys *)

Module JsMap.
Definition t (V : Type) := list (string * V).

Fixpoint get {V} (k : string) (m : t V) : option V :=
  match m with
  | [] => None
  | (k', v) :: m' => if String.eqb k k' then Some v else get k m'
  end.

Definition has {V} (k : string) (m : t V) : bool :=
  match get k m with Some _ => true | None => false end.

(** [set] keeps the position of a key that is already present and
    appends a new key at the end. *)
Fixpoint set {V} (k : string) (v : V) (m : t V) : t V :=
  match m with
  | [] => [(k, v)]
  | (k', v') :: m' =>
      if String.eqb k k' then (k, v) :: m' else (k', v') :: set k v m'
  end.

Definition delete {V} (k : string) (m : t V) : t V :=
  List.filter (fun kv => negb (String.eqb k (fst kv))) m.

Definition keys {V} (m : t V) : list string := List.map fst m.
Definition values {V} (m : t V) : list V := List.map snd m.
End JsMap.

(** ** A plain JavaScript object with string keys

    The entries are kept in the order the object enumerates its own keys
    ([for ... in], [Object.keys]): the array indices first, in ascending
    numeric order, then the other keys in the order they were created.  An
    array index is the canonical decimal numeral of an integer below
    [2^32 - 1]. *)

Module JsObject.
Definition t (V : Type) := list (string * V).

Definition digit (c : Ascii.ascii) : option N :=
  let n := Ascii.N_of_ascii c in
  if ((48 <=? n) && (n <=? 57))%N then Some (n - 48)%N else None.

Fixpoint digits (s : string) (acc : N) : option N :=
  match s with
  | EmptyString => Some acc
  | String c s' =>
      match digit c with
      | Some d => digits s' (10 * acc + d)%N
      | None => None
      end
  end.

(** Not empty, and no leading zero on a numeral of several digits. *)
Definition canonical (k : string) : bool :=
  match k with
  | EmptyString => false
  | String _ EmptyString => true
  | String c _ => negb (Ascii.N_of_ascii c =? 48)%N
  end.

Definition array_index (k : string) : option N :=
  match digits k 0%N with
  | Some n => if canonical k && (n <=? 4294967294)%N then Some n else None
  | None => None
  end.

Definition get {V} (k : string) (o : t V) : option V := JsMap.get k o.
Definition has {V} (k : string) (o : t V) : bool := JsMap.has k o.

(** Writing a key the object has keeps the key where it is. *)
Fixpoint replace {V} (k : string) (v : V) (o : t V) : t V :=
  match o with
  | [] => []
  | (k', v') :: o' =>
      if String.eqb k k' then (k, v) :: o' else (k', v') :: replace k v o'
  end.

(** A new key: an array index goes before the first array index that is
    greater and before every other key; another key goes last. *)
Fixpoint insert {V} (k : string) (v : V) (o : t V) : t V :=
  match o with
  | [] => [(k, v)]
  | (k', v') :: o' =>
      match array_index k, array_index k' with
      | Some n, Some n' =>
          if (n <? n')%N then (k, v) :: o else (k', v') :: insert k v o'
      | Some _, None => (k, v) :: o
      | None, _ => (k', v') :: insert k v o'
      end
  end.

(** [o[k] = v] on an object whose prototype is [Object.prototype].  The
    key [__proto__] is the accessor of the prototype: writing it creates no
    property of the object's own (the prototype is not part of the
    entries). *)
Definition set {V} (k : string) (v : V) (o : t V) : t V :=
  if String.eqb k "__proto__" then o
  else if has k o then replace k v o else insert k v o.

Definition keys {V} (o : t V) : list string := List.map fst o.
End JsObject.

(** ** The scene-graph root (three.js [Object3D.add] / [remove])

    [remove] splices out the first occurrence of the node; [add] first
    detaches the node from its current parent and then pushes it. *)

Module Scene.
Fixpoint remove (n : NodeRef) (children : list NodeRef) : list NodeRef :=
  match children with
  | [] => []
  | c :: cs => if Nat.eqb n c then cs else c :: remove n cs
  end.

Definition add (n : NodeRef) (children : list NodeRef) : list NodeRef :=
  remove n children ++ [n].
End Scene.

(** ** Entities ([IGameEntity]) *)

Module Entity.
Record t := mk {
  name : string;
  active : bool;
  parent : option EntityRef;
  children : list EntityRef;
  object3D : NodeRef;
  update : HookBehaviour
}.

Definition set_active (b : bool) (e : t) : t :=
  mk (name e) b (parent e) (children e) (object3D e) (update e).
Definition set_parent (p : option EntityRef) (e : t) : t :=
  mk (name e) (active e) p (children e) (object3D e) (update e).
Definition set_children (c : list EntityRef) (e : t) : t :=
  mk (name e) (active e) (parent e) c (object3D e) (update e).

(** Modelled from the spec: the constructor of [BaseEntity], which is not
    among the sources.  A new entity has the given name, is active, has no
    parent and no children, owns a fresh attachment node, and its base
    [update] returns. *)
Definition new (nm : string) (node : NodeRef) : t :=
  mk nm true None [] node Returns.
End Entity.

(** ** Systems ([IGameSystem]) *)

Module System.
Record t := mk {
  name : string;
  priority : Z;
  enabled : bool;
  checkEntityCompatibility : Entity.t -> bool;
  tracked : gset EntityRef;
  world : bool;
  update : HookBehaviour;
  fixedUpdate : option HookBehaviour;
  preRender : option HookBehaviour;
  postRender : option HookBehaviour
}.

Definition set_tracked (s : gset EntityRef) (x : t) : t :=
  mk (name x) (priority x) (enabled x) (checkEntityCompatibility x) s
     (world x) (update x) (fixedUpdate x) (preRender x) (postRender x).
Definition set_world (b : bool) (x : t) : t :=
  mk (name x) (priority x) (enabled x) (checkEntityCompatibility x)
     (tracked x) b (update x) (fixedUpdate x) (preRender x) (postRender x).

(** Modelled from the spec: what [BaseSystem.addEntity], which is not among
    the sources, does to the system: the entity joins the tracked subset. *)
Definition addEntity (e : EntityRef) (x : t) : t :=
  set_tracked ({[e]} ∪ tracked x) x.

(** Modelled from the spec: what [BaseSystem.removeEntity], which is not
    among the sources, does to the system: the entity leaves the tracked
    subset. *)
Definition removeEntity (e : EntityRef) (x : t) : t :=
  set_tracked (tracked x ∖ {[e]}) x.

(** Modelled from the spec: what [BaseSystem.destroy], which is not among
    the sources, does to the system: it releases every tracked-entity
    reference. *)
Definition destroy (x : t) : t := set_tracked ∅ x.
End System.

(** ** The machine state: the world's fields and the object store *)

(** Hook invocations on entities and systems, in the order the world makes
    them. *)
Inductive Event :=
| EntityInitialize (e : EntityRef)
| EntityUpdate (e : EntityRef) (dt : Number)
| EntityDestroy (e : EntityRef)
| SystemInitialize (s : SystemRef)
| SystemUpdate (s : SystemRef) (dt : Number)
| SystemFixedUpdate (s : SystemRef) (dt : Number)
| SystemPreRender (s : SystemRef)
| SystemPostRender (s : SystemRef)
| SystemDestroy (s : SystemRef)
| SystemAddEntity (s : SystemRef) (e : EntityRef)
| SystemRemoveEntity (s : SystemRef) (e : EntityRef).

(** Traffic on the process-wide event bus ([g_core.getInternalNet()]). *)
Inductive Topic :=
| EVENT_UPDATE
| EVENT_WORLD_INIT
| Literal (s : string).

Inductive BusEvent :=
| BusOn (t : Topic)
| BusEmit (t : Topic).

Record State := mkState {
  (* fields of the World object *)
  name : string;
  scene : list NodeRef;
  entities : JsMap.t EntityRef;
  systems : list SystemRef;
  active : bool;
  initialized : bool;
  paused : bool;
  (* the store the references point into *)
  entity_store : EntityRef -> Entity.t;
  system_store : SystemRef -> System.t;
  next_ref : nat;
  (* what the world did to its collaborators *)
  trace : list Event;
  bus : list BusEvent
}.

Definition set_scene (v : list NodeRef) (st : State) : State :=
  mkState (name st) v (entities st) (systems st) (active st) (initialized st)
    (paused st) (entity_store st) (system_store st) (next_ref st) (trace st)
    (bus st).
Definition set_entities (v : JsMap.t EntityRef) (st : State) : State :=
  mkState (name st) (scene st) v (systems st) (active st) (initialized st)
    (paused st) (entity_store st) (system_store st) (next_ref st) (trace st)
    (bus st).
Definition set_systems (v : list SystemRef) (st : State) : State :=
  mkState (name st) (scene st) (entities st) v (active st) (initialized st)
    (paused st) (entity_store st) (system_store st) (next_ref st) (trace st)
    (bus st).
Definition set_active (v : bool) (st : State) : State :=
  mkState (name st) (scene st) (entities st) (systems st) v (initialized st)
    (paused st) (entity_store st) (system_store st) (next_ref st) (trace st)
    (bus st).
Definition set_initialized (v : bool) (st : State) : State :=
  mkState (name st) (scene st) (entities st) (systems st) (active st) v
    (paused st) (entity_store st) (system_store st) (next_ref st) (trace st)
    (bus st).
Definition set_paused (v : bool) (st : State) : State :=
  mkState (name st) (scene st) (entities st) (systems st) (active st)
    (initialized st) v (entity_store st) (system_store st) (next_ref st)
    (trace st) (bus st).
Definition set_entity_store (v : EntityRef -> Entity.t) (st : State) : State :=
  mkState (name st) (scene st) (entities st) (systems st) (active st)
    (initialized st) (paused st) v (system_store st) (next_ref st) (trace st)
    (bus st).
Definition set_system_store (v : SystemRef -> System.t) (st : State) : State :=
  mkState (name st) (scene st) (entities st) (systems st) (active st)
    (initialized st) (paused st) (entity_store st) v (next_ref st) (trace st)
    (bus st).
Definition set_next_ref (v : nat) (st : State) : State :=
  mkState (name st) (scene st) (entities st) (systems st) (active st)
    (initialized st) (paused st) (entity_store st) (system_store st) v
    (trace st) (bus st).
Definition set_trace (v : list Event) (st : State) : State :=
  mkState (name st) (scene st) (entities st) (systems st) (active st)
    (initialized st) (paused st) (entity_store st) (system_store st)
    (next_ref st) v (bus st).
Definition set_bus (v : list BusEvent) (st : State) : State :=
  mkState (name st) (scene st) (entities st) (systems st) (active st)
    (initialized st) (paused st) (entity_store st) (system_store st)
    (next_ref st) (trace st) v.

Definition log (ev : Event) (st : State) : State :=
  set_trace (trace st ++ [ev]) st.
Definition publish (ev : BusEvent) (st : State) : State :=
  set_bus (bus st ++ [ev]) st.

(** ** Completions: a call returns, or an exception leaves it

    Either way the mutations made so far stay in the state. *)
Inductive Completion :=
| Normal (st : State)
| Abrupt (st : State).

Definition state_of (c : Completion) : State :=
  match c with Normal st => st | Abrupt st => st end.

Definition bind (c : Completion) (k : State -> Completion) : Completion :=
  match c with Normal st => k st | Abrupt st => Abrupt st end.

Definition on_state (f : State -> State) (c : Completion) : Completion :=
  match c with Normal st => Normal (f st) | Abrupt st => Abrupt (f st) end.

(** Calling a frame hook: the call is made, then the hook returns or
    raises. *)
Definition invoke (ev : Event) (h : HookBehaviour) (st : State) : Completion :=
  match h with
  | Returns => Normal (log ev st)
  | Raises => Abrupt (log ev st)
  end.

(** [for (const x of xs) body(x)]: an exception in one iteration leaves
    the loop. *)
Fixpoint for_each {A} (body : A -> State -> Completion) (xs : list A)
    (st : State) : Completion :=
  match xs with
  | [] => Normal st
  | x :: xs' => bind (body x st) (for_each body xs')
  end.

(** A loop whose body has no abrupt completion in the model. *)
Definition for_each_do {A} (body : A -> State -> State) (xs : list A)
    (st : State) : State :=
  fold_left (fun acc x => body x acc) xs st.

(** ** JavaScript arrays: [includes], [indexOf] + [splice], [sort] *)

Module JsArray.
Definition includes (x : nat) (xs : list nat) : bool := bool_decide (x ∈ xs).

(** [i = xs.indexOf(x); if (i !== -1) xs.splice(i, 1)]: the first
    occurrence goes, the rest keeps its order. *)
Fixpoint remove_first (x : nat) (xs : list nat) : list nat :=
  match xs with
  | [] => []
  | y :: ys => if Nat.eqb x y then ys else y :: remove_first x ys
  end.

(** [Array.prototype.sort] is stable; with a comparator that is a
    difference of keys its result is the stable sorted arrangement, which
    insertion from the right computes: an element goes before the first
    element it does not compare greater than. *)
Fixpoint insert {A} (cmp : A -> A -> Z) (x : A) (xs : list A) : list A :=
  match xs with
  | [] => [x]
  | y :: ys => if (cmp x y <=? 0)%Z then x :: y :: ys else y :: insert cmp x ys
  end.

Definition sort {A} (cmp : A -> A -> Z) (xs : list A) : list A :=
  fold_right (insert cmp) [] xs.
End JsArray.

(** ** Snapshot data: the [any] that [fromJSON] reads

    A field that may be absent or falsy is an [option]; the [entities]
    object is the list of its own keys in enumeration order. *)

Module EntityJSON.
Record t := mk {
  name : option string;
  active : option bool;
  children : option (list EntityId)
}.
End EntityJSON.

Module WorldJSON.
Record t := mk {
  name : option string;
  active : option bool;
  entities : option (JsObject.t EntityJSON.t)
}.
End WorldJSON.

(** ** The methods of entities and systems the world calls *)

Module BaseEntity.
(** Modelled from the spec: [BaseEntity.initialize], which is not among the
    sources.  To the world it is an opaque call. *)
Definition initialize (entity : EntityRef) (st : State) : State :=
  log (EntityInitialize entity) st.

(** Modelled from the spec: [BaseEntity.destroy], which is not among the
    sources.  What is modelled is the call the world makes; the entity's
    own teardown (its scene attachment, its children) is code that is not
    here.  [World.destroy] looks every key up again before the call and
    afterwards clears the registry and the scene root itself. *)
Definition destroy (entity : EntityRef) (st : State) : State :=
  log (EntityDestroy entity) st.

(** Modelled from the spec: [BaseEntity.toJSON], not among the sources.
    Entity-local state (name, active flag) and the ids of the children; the
    children themselves are not serialized inline. *)
Definition toJSON (entity : EntityRef) (st : State) : EntityJSON.t :=
  let e := entity_store st entity in
  EntityJSON.mk (Some (Entity.name e)) (Some (Entity.active e))
    (Some (List.map (fun c => Entity.name (entity_store st c))
             (Entity.children e))).

(** Modelled from the spec: [BaseEntity.fromJSON], not among the sources.
    It restores entity-local state; the name is the one the entity was
    created with. *)
Definition fromJSON (data : EntityJSON.t) (entity : EntityRef) (st : State)
    : State :=
  match EntityJSON.active data with
  | Some b =>
      set_entity_store (alter (Entity.set_active b) entity (entity_store st)) st
  | None => st
  end.

(** Modelled from the spec: [BaseEntity.addChild], not among the sources.
    It establishes the tree link: the child leaves its former parent, gets
    the new one, and is appended to the new parent's children. *)
Definition addChild (entity child : EntityRef) (st : State) : State :=
  let detached :=
    match Entity.parent (entity_store st child) with
    | Some p =>
        alter (fun e => Entity.set_children
                 (JsArray.remove_first child (Entity.children e)) e)
          p (entity_store st)
    | None => entity_store st
    end in
  let linked := alter (Entity.set_parent (Some entity)) child detached in
  set_entity_store
    (alter (fun e => Entity.set_children (Entity.children e ++ [child]) e)
       entity linked) st.
End BaseEntity.

Module BaseSystem.
(** Modelled from the spec: the lifecycle hook of [BaseSystem], which is not
    among the sources; to the world it is an opaque call. *)
Definition initialize (system : SystemRef) (st : State) : State :=
  log (SystemInitialize system) st.

(** Modelled from the spec: [BaseSystem.addEntity], not among the sources.
    The call, and the entity joining the tracked subset. *)
Definition addEntity (system : SystemRef) (entity : EntityRef) (st : State)
    : State :=
  log (SystemAddEntity system entity)
    (set_system_store
       (alter (System.addEntity entity) system (system_store st)) st).

(** Modelled from the spec: [BaseSystem.removeEntity], not among the
    sources.  The call, and the entity leaving the tracked subset. *)
Definition removeEntity (system : SystemRef) (entity : EntityRef) (st : State)
    : State :=
  log (SystemRemoveEntity system entity)
    (set_system_store
       (alter (System.removeEntity entity) system (system_store st)) st).

(** Modelled from the spec: [BaseSystem.destroy], not among the sources.
    The call, and the release of every tracked-entity reference. *)
Definition destroy (system : SystemRef) (st : State) : State :=
  log (SystemDestroy system)
    (set_system_store (alter System.destroy system (system_store st)) st).
End BaseSystem.

(** ** The World class *)

Inductive EntityOrId :=
| AnEntity (entity : EntityRef)
| AnId (id : EntityId).

Module World.

(** [new World()]: the scene is the renderer's, handed in with whatever it
    already holds. *)
Definition new (renderer_scene : list NodeRef)
    (entity_objects : EntityRef -> Entity.t)
    (system_objects : SystemRef -> System.t) (fresh : nat) : State :=
  mkState "BaseWorld" renderer_scene [] [] true false false
    entity_objects system_objects fresh [] [].

(** One turn of the loop over [this.systems] in [addEntity], and of the
    loop over [this.entities] in [addSystem]. *)
Definition offer (system : SystemRef) (entity : EntityRef) (st : State)
    : State :=
  if System.checkEntityCompatibility (system_store st system)
       (entity_store st entity)
  then BaseSystem.addEntity system entity st
  else st.

Definition addEntity (entity : EntityRef) (st : State) : State :=
  let nm := Entity.name (entity_store st entity) in
  if JsMap.has nm (entities st) then st
  else
    let st1 := set_entities (JsMap.set nm entity (entities st)) st in
    let st2 :=
      set_scene
        (Scene.add (Entity.object3D (entity_store st1 entity)) (scene st1))
        st1 in
    let st3 :=
      for_each_do (fun system => offer system entity) (systems st2) st2 in
    if initialized st3 then BaseEntity.initialize entity st3 else st3.

Definition createEntity (nm : option string) (st : State)
    : EntityRef * State :=
  let entity := next_ref st in
  let obj := Entity.new (default "Entity" nm) entity in
  let st1 :=
    set_next_ref (S entity)
      (set_entity_store (<[entity := obj]> (entity_store st)) st) in
  (entity, addEntity entity st1).

Definition removeEntity (entityOrId : EntityOrId) (st : State)
    : bool * State :=
  let id :=
    match entityOrId with
    | AnId id => id
    | AnEntity e => Entity.name (entity_store st e)
    end in
  match JsMap.get id (entities st) with
  | None => (false, st)
  | Some entity =>
      let st1 :=
        set_scene
          (Scene.remove (Entity.object3D (entity_store st entity)) (scene st))
          st in
      let st2 :=
        for_each_do (fun system => BaseSystem.removeEntity system entity)
          (systems st1) st1 in
      (true, set_entities (JsMap.delete id (entities st2)) st2)
  end.

Definition getEntity (id : EntityId) (st : State) : option EntityRef :=
  JsMap.get id (entities st).

Definition sortSystems (st : State) : State :=
  set_systems
    (JsArray.sort
       (fun a b =>
          (System.priority (system_store st a)
           - System.priority (system_store st b))%Z)
       (systems st))
    st.

Definition addSystem (system : SystemRef) (st : State) : State :=
  if JsArray.includes system (systems st) then st
  else
    let st1 :=
      set_system_store
        (alter (System.set_world true) system (system_store st)) st in
    let st2 := set_systems (systems st1 ++ [system]) st1 in
    let st3 := sortSystems st2 in
    if initialized st3 then
      let st4 := BaseSystem.initialize system st3 in
      for_each_do (fun entity => offer system entity)
        (JsMap.values (entities st4)) st4
    else st3.

Definition removeSystem (system : SystemRef) (st : State) : bool * State :=
  if JsArray.includes system (systems st) then
    (true,
     BaseSystem.destroy system
       (set_systems (JsArray.remove_first system (systems st)) st))
  else (false, st).

(** The gate of the four passes: [!this.active || this.paused]. *)
Definition suspended (st : State) : bool := negb (active st) || paused st.

Definition update (deltaTime : Number) (st : State) : Completion :=
  if suspended st then Normal st
  else
    bind
      (for_each
         (fun system s =>
            if System.enabled (system_store s system)
            then invoke (SystemUpdate system deltaTime)
                   (System.update (system_store s system)) s
            else Normal s)
         (systems st) st)
      (fun st1 =>
         for_each
           (fun entity s =>
              if Entity.active (entity_store s entity)
              then invoke (EntityUpdate entity deltaTime)
                     (Entity.update (entity_store s entity)) s
              else Normal s)
           (JsMap.values (entities st1)) st1).

(** A pass over the systems through an optional hook:
    [system.enabled && system.hook]. *)
Definition optional_pass (hook : System.t -> option HookBehaviour)
    (ev : SystemRef -> Event) (st : State) : Completion :=
  if suspended st then Normal st
  else
    for_each
      (fun system s =>
         if System.enabled (system_store s system) then
           match hook (system_store s system) with
           | Some h => invoke (ev system) h s
           | None => Normal s
           end
         else Normal s)
      (systems st) st.

Definition fixedUpdate (fixedDeltaTime : Number) (st : State) : Completion :=
  optional_pass System.fixedUpdate
    (fun system => SystemFixedUpdate system fixedDeltaTime) st.

Definition preRender (st : State) : Completion :=
  optional_pass System.preRender SystemPreRender st.

Definition postRender (st : State) : Completion :=
  optional_pass System.postRender SystemPostRender st.

Definition initialize (st : State) : State :=
  if initialized st then st
  else
    let st1 := for_each_do BaseSystem.initialize (systems st) st in
    let st2 :=
      for_each_do BaseEntity.initialize (JsMap.values (entities st1)) st1 in
    let st3 := set_initialized true st2 in
    publish (BusEmit EVENT_WORLD_INIT) (publish (BusOn EVENT_UPDATE) st3).

(** [while (children.length > 0) scene.remove(children[0])], unrolled
    [fuel] times. *)
Fixpoint remove_children (fuel : nat) (children : list NodeRef)
    : list NodeRef :=
  match fuel with
  | O => children
  | S fuel' =>
      match children with
      | [] => []
      | c :: _ => remove_children fuel' (Scene.remove c children)
      end
  end.

Definition destroy (st : State) : State :=
  let entityIds := JsMap.keys (entities st) in
  let st1 :=
    for_each_do
      (fun id s =>
         match JsMap.get id (entities s) with
         | Some entity => BaseEntity.destroy entity s
         | None => s
         end)
      entityIds st in
  let st2 := set_entities [] st1 in
  let st3 := for_each_do BaseSystem.destroy (systems st2) st2 in
  let st4 := set_systems [] st3 in
  let st5 :=
    set_scene (remove_children (length (scene st4)) (scene st4)) st4 in
  set_initialized false (set_active false st5).

Definition pause (st : State) : State :=
  if paused st then st
  else publish (BusEmit (Literal "world.pause")) (set_paused true st).

Definition resume (st : State) : State :=
  if paused st
  then publish (BusEmit (Literal "world.resume")) (set_paused false st)
  else st.

(** [entitiesData[id] = entity.toJSON()] for the parentless entities, in
    registry order.  [entitiesData] is a plain object, so a name that is an
    array index is enumerated before the other names, and the name
    [__proto__] gives no entry. *)
Definition toJSON (st : State) : WorldJSON.t :=
  let entitiesData :=
    fold_left
      (fun acc kv =>
         match Entity.parent (entity_store st (snd kv)) with
         | None => JsObject.set (fst kv) (BaseEntity.toJSON (snd kv) st) acc
         | Some _ => acc
         end)
      (entities st) [] in
  WorldJSON.mk (Some (name st)) (Some (active st)) (Some entitiesData).

(** The three passes of [fromJSON] over [data.entities], each a
    [for ... in] loop over the object's keys in enumeration order. *)
Definition create_pass (ents : JsObject.t EntityJSON.t) (st : State)
    : JsMap.t EntityRef * State :=
  fold_left
    (fun acc kv =>
       let '(entity, s) := createEntity (EntityJSON.name (snd kv)) (snd acc) in
       (JsMap.set (fst kv) entity (fst acc), s))
    ents ([], st).

Definition data_pass (entityMap : JsMap.t EntityRef)
    (ents : JsObject.t EntityJSON.t) (st : State) : State :=
  for_each_do
    (fun kv s =>
       match JsMap.get (fst kv) entityMap with
       | Some entity => BaseEntity.fromJSON (snd kv) entity s
       | None => s
       end)
    ents st.

Definition link_pass (entityMap : JsMap.t EntityRef)
    (ents : JsObject.t EntityJSON.t) (st : State) : State :=
  for_each_do
    (fun kv s =>
       match JsMap.get (fst kv) entityMap, EntityJSON.children (snd kv) with
       | Some entity, Some childIds =>
           for_each_do
             (fun childId s' =>
                match JsMap.get childId entityMap with
                | Some childEntity => BaseEntity.addChild entity childEntity s'
                | None => s'
                end)
             childIds s
       | _, _ => s
       end)
    ents st.

(** A name that differs from the world's only draws a warning. *)
Definition fromJSON (data : WorldJSON.t) (st : State) : State :=
  let st1 :=
    match WorldJSON.active data with
    | Some b => set_active b st
    | None => st
    end in
  let st2 :=
    for_each_do BaseEntity.destroy (JsMap.values (entities st1)) st1 in
  match WorldJSON.entities data with
  | None => st2
  | Some ents =>
      let '(entityMap, st3) := create_pass ents st2 in
      link_pass entityMap ents (data_pass entityMap ents st3)
  end.

(** [findEntitiesByName]: a scan of the registry in its order. *)
Definition findEntitiesByName (nm : string) (st : State) : list EntityRef :=
  List.filter
    (fun entity => String.eqb (Entity.name (entity_store st entity)) nm)
    (JsMap.values (entities st)).

(** [getSystem]: the first system of the list that is an instance of the
    given class.  [system instanceof systemType] is a fact about the system
    object, so a class is given as its membership test. *)
Definition getSystem (systemType : System.t -> bool) (st : State)
    : option SystemRef :=
  List.find (fun system => systemType (system_store st system)) (systems st).

End World.


(** * The dummy lookup system ([DummySystemLookup.ts])

    The lookup reads the subtree under an entity's attachment node, so here
    a node comes with its name and its children.  Names are ASCII; on them
    [toLowerCase] maps [A]..[Z] to [a]..[z] and [includes] is the substring
    test. *)

Module JsString.
Definition lower (c : Ascii.ascii) : Ascii.ascii :=
  let n := Ascii.nat_of_ascii c in
  if (65 <=? n)%nat && (n <=? 90)%nat then Ascii.ascii_of_nat (n + 32) else c.

Fixpoint toLowerCase (s : string) : string :=
  match s with
  | EmptyString => EmptyString
  | String c s' => String (lower c) (toLowerCase s')
  end.

Fixpoint includes (needle hay : string) : bool :=
  if String.prefix needle hay then true
  else
    match hay with
    | EmptyString => false
    | String _ hay' => includes needle hay'
    end.
End JsString.

Module DummyLookupSystem.

(** A three.js [Object3D]: its name (which may be missing) and its
    children. *)
Inductive Object3D :=
| Node (name : option string) (children : list Object3D).

Definition name (o : Object3D) : option string :=
  match o with Node n _ => n end.

Definition children (o : Object3D) : list Object3D :=
  match o with Node _ cs => cs end.

(** An entity as the lookup reads it: its name and its node, which may be
    missing.  The argument itself may be null. *)
Record EntityView := mkEntityView {
  entity_name : string;
  object3D : option Object3D
}.

(** [Object3D.traverse]: the callback is called on the node and then, in
    order, on the subtree of each child. *)
Fixpoint traverse (o : Object3D) : list Object3D :=
  match o with
  | Node _ cs => o :: flat_map traverse cs
  end.

(** [!!entity && !!entity.object3D] *)
Definition checkEntityCompatibility (entity : option EntityView) : bool :=
  match entity with
  | Some e => match object3D e with Some _ => true | None => false end
  | None => false
  end.

(** [child.name?.toLowerCase().includes('dummy')] *)
Definition is_dummy (child : Object3D) : bool :=
  match name child with
  | Some n => JsString.includes "dummy" (JsString.toLowerCase n)
  | None => false
  end.

Definition getDummies (entity : option EntityView) : list Object3D :=
  if checkEntityCompatibility entity then
    match entity with
    | Some e =>
        match object3D e with
        | Some object => List.filter is_dummy (traverse object)
        | None => []
        end
    | None => []
    end
  else [].

(** [dummy.name === dummyName] *)
Definition named (dummyName : string) (dummy : Object3D) : bool :=
  match name dummy with
  | Some n => String.eqb n dummyName
  | None => false
  end.

Definition getDummy (entity : option EntityView) (dummyName : string)
    : option Object3D :=
  List.find (named dummyName) (getDummies entity).

End DummyLookupSystem.

(** * The audio manager ([AudioManager.ts]): playback control

    The part of the manager that decides which sounds play: the registry of
    sounds (a [Map] keyed by sound key), the [muted] flag, and the play,
    pause and stop requests made to the audio library, recorded in order.
    Volumes, pitch, looping and positions are numbers that are only
    forwarded to the library; they, the fades and the loader's asynchronous
    completion are not part of this state. *)

From Stdlib Require DecimalString DecimalNat.

Inductive SoundType := MUSIC | SFX | UI | AMBIENT | VEHICLE.

Definition SoundType_eqb (a b : SoundType) : bool :=
  match a, b with
  | MUSIC, MUSIC | SFX, SFX | UI, UI | AMBIENT, AMBIENT | VEHICLE, VEHICLE =>
      true
  | _, _ => false
  end.

(** The fields of [SoundConfig] that playback control reads; a missing
    [autoplay] counts as false. *)
Record SoundConfig := mkSoundConfig {
  config_key : string;
  config_type : SoundType;
  config_autoplay : bool
}.

(** A request made to the library's audio object of the sound with the
    given key. *)
Inductive AudioCall :=
| AudioPlay (key : string)
| AudioPause (key : string)
| AudioStop (key : string).

Module Sound.
(** A sound: its own [isPlaying] flag and the [isPlaying] flag of its
    three.js audio object. *)
Record t := mk {
  key : string;
  type : SoundType;
  config : SoundConfig;
  isPlaying : bool;
  audio_isPlaying : bool
}.

(** A method of the sound: the sound afterwards and the requests made. *)
Definition Step := t -> t * list AudioCall.

Definition skip : Step := fun s => (s, []).

Definition andThen (f g : Step) : Step := fun s =>
  let (s1, c1) := f s in
  let (s2, c2) := g s1 in
  (s2, c1 ++ c2).

Definition when (c : t -> bool) (f : Step) : Step := fun s =>
  if c s then f s else skip s.

Definition set_isPlaying (b : bool) : Step := fun s =>
  (mk (key s) (type s) (config s) b (audio_isPlaying s), []).

(** three.js [Audio.play], [pause] and [stop] on an audio object with
    playback control: [play] sets the object's flag (and only warns when it
    is set already), [pause] and [stop] clear it. *)
Definition audio_play : Step := fun s =>
  (mk (key s) (type s) (config s) (isPlaying s) true, [AudioPlay (key s)]).
Definition audio_pause : Step := fun s =>
  (mk (key s) (type s) (config s) (isPlaying s) false, [AudioPause (key s)]).
Definition audio_stop : Step := fun s =>
  (mk (key s) (type s) (config s) (isPlaying s) false, [AudioStop (key s)]).

Definition play (restart : bool) : Step :=
  andThen
    (when (fun s => restart && isPlaying s) audio_stop)
    (when (fun s => restart || negb (isPlaying s))
       (andThen audio_play (set_isPlaying true))).

Definition pause : Step :=
  when isPlaying (andThen audio_pause (set_isPlaying false)).

Definition stop : Step :=
  when audio_isPlaying (andThen audio_stop (set_isPlaying false)).

(** The constructor, on a new audio object (which does not play). *)
Definition new (k : string) (cfg : SoundConfig) : t * list AudioCall :=
  when (fun s => config_autoplay (config s)) (play true)
    (mk k (config_type cfg) cfg false false).
End Sound.

Module AudioManager.
Record t := mk {
  sounds : JsMap.t Sound.t;
  muted : bool;
  calls : list AudioCall
}.

Definition new : t := mk [] false [].

Definition get (key : string) (m : t) : option Sound.t :=
  JsMap.get key (sounds m).

(** A method called on the sound registered under [key]: the object is
    changed in place. *)
Definition on_sound (key : string) (f : Sound.Step) (m : t) : t :=
  match get key m with
  | Some sound =>
      let (sound', cs) := f sound in
      mk (JsMap.set key sound' (sounds m)) (muted m) (calls m ++ cs)
  | None => m
  end.

(** [this.sounds.forEach]: the callback acts on its own sound only. *)
Definition forEach (f : Sound.Step) (m : t) : t :=
  mk (List.map (fun kv => (fst kv, fst (f (snd kv)))) (sounds m))
     (muted m)
     (calls m ++ flat_map (fun kv => snd (f (snd kv))) (sounds m)).

(** [create], once the buffer is there. *)
Definition create (cfg : SoundConfig) (m : t) : t :=
  let (sound, cs) := Sound.new (config_key cfg) cfg in
  mk (JsMap.set (config_key cfg) sound (sounds m)) (muted m) (calls m ++ cs).

(** [!exceptType || sound.type !== exceptType] *)
Definition concerns (exceptType : option SoundType) (sound : Sound.t) : bool :=
  match exceptType with
  | None => true
  | Some ty => negb (SoundType_eqb (Sound.type sound) ty)
  end.

Definition pauseAll (exceptType : option SoundType) (m : t) : t :=
  forEach (Sound.when (concerns exceptType)
             (Sound.when Sound.isPlaying Sound.pause)) m.

Definition resumeAll (exceptType : option SoundType) (m : t) : t :=
  if muted m then m
  else
    forEach (Sound.when (concerns exceptType)
               (Sound.when
                  (fun sound => config_autoplay (Sound.config sound)
                                || Sound.isPlaying sound)
                  (Sound.play true))) m.

(** The template literal [`${baseKey}_${i}`] for a loop index. *)
Definition pooled_key (baseKey : string) (i : nat) : string :=
  String.append baseKey
    (String.append "_" (DecimalString.NilEmpty.string_of_uint (Nat.to_uint i))).

(** [createSoundPool], for a whole number [count]: the keys it returns and
    the loads it starts (url and configuration).  The sounds are created
    when the loads complete, not by this call. *)
Definition createSoundPool (baseKey : string) (count : nat) (url : string)
    (cfg : SoundConfig) : list string * list (string * SoundConfig) :=
  (List.map (pooled_key baseKey) (seq 0 count),
   List.map (fun i => (url, mkSoundConfig (pooled_key baseKey i)
                              (config_type cfg) false))
     (seq 0 count)).

(** The [for] loop of [playFromPool] from index [i] with [n] rounds to go:
    the first key whose sound is there and does not play. *)
Fixpoint first_idle (baseKey : string) (i n : nat) (m : t) : option string :=
  match n with
  | O => None
  | S n' =>
      let pooledKey := pooled_key baseKey i in
      match get pooledKey m with
      | Some sound =>
          if negb (Sound.isPlaying sound) then Some pooledKey
          else first_idle baseKey (S i) n' m
      | None => first_idle baseKey (S i) n' m
      end
  end.

(** [playFromPool] returns the sound object; here, the key it is
    registered under. *)
Definition playFromPool (baseKey : string) (count : nat) (m : t)
    : option string * t :=
  match first_idle baseKey 0 count m with
  | Some pooledKey => (Some pooledKey, on_sound pooledKey (Sound.play true) m)
  | None =>
      let firstKey := pooled_key baseKey 0 in
      match get firstKey m with
      | Some firstSound =>
          let m1 :=
            if Sound.isPlaying firstSound then on_sound firstKey Sound.stop m
            else m in
          (Some firstKey, on_sound firstKey (Sound.play true) m1)
      | None => (None, m)
      end
  end.

End AudioManager.

(** * Vocabulary of the properties *)

(** ** What a frame schedules

    The calls one [update] pass schedules, in order, each with what its
    hook does: the enabled systems in list order, then the active entities
    in registry order. *)

Definition system_update_calls (dt : Number) (st : State)
    : list (Event * HookBehaviour) :=
  List.map
    (fun s => (SystemUpdate s dt, System.update (system_store st s)))
    (List.filter (fun s => System.enabled (system_store st s)) (systems st)).

Definition entity_update_calls (dt : Number) (st : State)
    : list (Event * HookBehaviour) :=
  List.map
    (fun e => (EntityUpdate e dt, Entity.update (entity_store st e)))
    (List.filter (fun e => Entity.active (entity_store st e))
       (JsMap.values (entities st))).

Definition update_calls (dt : Number) (st : State)
    : list (Event * HookBehaviour) :=
  system_update_calls dt st ++ entity_update_calls dt st.

Definition update_plan (dt : Number) (st : State) : list Event :=
  List.map (fun s => SystemUpdate s dt)
    (List.filter (fun s => System.enabled (system_store st s)) (systems st))
  ++ List.map (fun e => EntityUpdate e dt)
       (List.filter (fun e => Entity.active (entity_store st e))
          (JsMap.values (entities st))).

(** The calls actually made when scheduled calls run in order: all up to
    and including the first one that raises. *)
Fixpoint made_calls (calls : list (Event * HookBehaviour)) : list Event :=
  match calls with
  | [] => []
  | (ev, Returns) :: rest => ev :: made_calls rest
  | (ev, Raises) :: _ => [ev]
  end.

Fixpoint some_raises (calls : list (Event * HookBehaviour)) : bool :=
  match calls with
  | [] => false
  | (_, Returns) :: rest => some_raises rest
  | (_, Raises) :: _ => true
  end.

Definition run_calls (calls : list (Event * HookBehaviour)) (st : State)
    : Completion :=
  let st' := set_trace (trace st ++ made_calls calls) st in
  if some_raises calls then Abrupt st' else Normal st'.

(** The systems whose [update] was called, read off a trace. *)
Fixpoint updated_systems (evs : list Event) : list SystemRef :=
  match evs with
  | [] => []
  | SystemUpdate s _ :: rest => s :: updated_systems rest
  | _ :: rest => updated_systems rest
  end.

(** ** Sequences of system registrations and removals *)

Inductive SystemOp :=
| AddSystem (system : SystemRef)
| RemoveSystem (system : SystemRef).

Definition apply_op (st : State) (op : SystemOp) : State :=
  match op with
  | AddSystem s => World.addSystem s st
  | RemoveSystem s => snd (World.removeSystem s st)
  end.

Definition run_ops (ops : list SystemOp) (st : State) : State :=
  fold_left apply_op ops st.

(** The registered systems in the order they were inserted: a
    registration of a new system goes last, a removal takes it out. *)
Definition insertion_step (order : list SystemRef) (op : SystemOp)
    : list SystemRef :=
  match op with
  | AddSystem s => if JsArray.includes s order then order else order ++ [s]
  | RemoveSystem s => JsArray.remove_first s order
  end.

Definition insertion_order (ops : list SystemOp) : list SystemRef :=
  fold_left insertion_step ops [].

Definition priority_of (st : State) (s : SystemRef) : Z :=
  System.priority (system_store st s).

Definition has_priority (st : State) (p : Z) (s : SystemRef) : bool :=
  (priority_of st s =? p)%Z.

(** The invariant of the system list: sorted by priority, and among the
    systems of one priority in the order they were inserted. *)
Definition priority_ordered (key : SystemRef -> Z)
    (order current : list SystemRef) : Prop :=
  StronglySorted (fun a b => (key a <= key b)%Z) current
  /\ forall p,
       List.filter (fun y => (key y =? p)%Z) current
       = List.filter (fun y => (key y =? p)%Z) order.

(** ** The tracked subset of a system *)

Definition tracked_by (system : SystemRef) (st : State) : gset EntityRef :=
  System.tracked (system_store st system).

(** The world has called [system.addEntity(entity)]. *)
Definition accepted (system : SystemRef) (entity : EntityRef) (st : State)
    : Prop :=
  SystemAddEntity system entity ∈ trace st.

Definition compatible (system : SystemRef) (st : State) (entity : EntityRef)
    : bool :=
  System.checkEntityCompatibility (system_store st system)
    (entity_store st entity).

Definition addEntities (ents : list EntityRef) (st : State) : State :=
  for_each_do World.addEntity ents st.

Definition name_of (st : State) (entity : EntityRef) : string :=
  Entity.name (entity_store st entity).

(** ** The entity tree, as the registry shows it *)

Definition registered (st : State) : list EntityRef :=
  JsMap.values (entities st).

Definition roots (st : State) : list EntityId :=
  JsMap.keys
    (List.filter
       (fun kv =>
          match Entity.parent (entity_store st (snd kv)) with
          | None => true
          | Some _ => false
          end)
       (entities st)).

(** Parent/child edges between registered entities, by name. *)
Definition edges (st : State) : list (EntityId * EntityId) :=
  flat_map
    (fun e =>
       List.map (fun c => (name_of st e, name_of st c))
         (Entity.children (entity_store st e)))
    (registered st).

Definition active_flags (st : State) : list (EntityId * bool) :=
  List.map (fun e => (name_of st e, Entity.active (entity_store st e)))
    (registered st).

Definition id_of (entityOrId : EntityOrId) (st : State) : EntityId :=
  match entityOrId with
  | AnId id => id
  | AnEntity e => name_of st e
  end.

(** ** A small world used in the examples *)

Module Garage.
Definition car : Entity.t := Entity.mk "car" true None [2] 10 Returns.
Definition wheel : Entity.t := Entity.mk "wheel" false (Some 1) [] 11 Returns.
Definition cone : Entity.t := Entity.mk "cone" true None [] 12 Returns.
(** Another object that also calls itself "car". *)
Definition impostor : Entity.t := Entity.mk "car" false None [] 13 Returns.

Definition entity_objects : EntityRef -> Entity.t :=
  <[1 := car]> (<[2 := wheel]> (<[3 := cone]> (<[4 := impostor]>
    (fun _ => Entity.new "" 0)))).

Definition input : System.t :=
  System.mk "InputSystem" 30 true Entity.active ∅ false
    Returns None None None.
Definition physics : System.t :=
  System.mk "PhysicsSystem" 10 true (fun _ => true) ∅ false
    Returns (Some Returns) None None.
Definition camera : System.t :=
  System.mk "CameraSystem" 20 true (fun _ => false) ∅ false
    Returns None (Some Returns) (Some Returns).
Definition faulty : System.t :=
  System.mk "FaultySystem" 5 true (fun _ => true) ∅ false
    Raises None None None.
Definition replay : System.t :=
  System.mk "ReplaySystem" 20 false (fun _ => true) ∅ false
    Returns None None None.

Definition system_objects : SystemRef -> System.t :=
  <[1 := input]> (<[2 := physics]> (<[3 := camera]> (<[4 := faulty]>
    (fun _ => replay)))).

(** One frame at sixty frames a second, in milliseconds. *)
Definition tick : Number := 16%Z.

(** A world as constructed, never initialized. *)
Definition empty : State := World.new [] entity_objects system_objects 100.

(** Car, wheel (a child of the car) and cone registered. *)
Definition populated : State :=
  World.addEntity 3 (World.addEntity 2 (World.addEntity 1 empty)).

(** Systems of priorities 30, 10, 20 registered in that order. *)
Definition scheduled : State :=
  World.addSystem 3 (World.addSystem 2 (World.addSystem 1 populated)).

(** The same registrations as a sequence of operations. *)
Definition registrations : list SystemOp :=
  [AddSystem 1; AddSystem 2; AddSystem 3].
Definition registered_in_turn : State := run_ops registrations populated.

(** The same with a system whose [update] raises, of priority 5. *)
Definition with_fault : State := World.addSystem 4 scheduled.
End Garage.

(** ** Fault isolation, as a property of one frame

    Every scheduled hook is called in the frame and [update] returns. *)
Definition update_isolates_faults (dt : Number) (st : State) : Prop :=
  (exists st', World.update dt st = Normal st')
  /\ Forall (fun ev => ev ∈ trace (state_of (World.update dt st)))
       (update_plan dt st).

(** ** Order-independence of seeding, as a property of one world

    Registering the system after the entities and registering the entities
    after the system leave the system tracking the same entities: exactly
    the compatible ones among those added. *)
Definition seeding_is_order_independent (st : State) (system : SystemRef)
    (ents : list EntityRef) : Prop :=
  tracked_by system (World.addSystem system (addEntities ents st))
  = tracked_by system (addEntities ents (World.addSystem system st))
  /\ tracked_by system (World.addSystem system (addEntities ents st))
     = list_to_set (List.filter (compatible system st) ents).

(** * Vocabulary of the further properties *)

(** How often [initialize] was called on an entity, and on a system, read
    off a trace. *)
Fixpoint entity_initializations (entity : EntityRef) (evs : list Event)
    : nat :=
  match evs with
  | [] => 0
  | EntityInitialize e :: rest =>
      (if Nat.eqb e entity then 1 else 0) + entity_initializations entity rest
  | _ :: rest => entity_initializations entity rest
  end.

Fixpoint system_initializations (system : SystemRef) (evs : list Event)
    : nat :=
  match evs with
  | [] => 0
  | SystemInitialize s :: rest =>
      (if Nat.eqb s system then 1 else 0) + system_initializations system rest
  | _ :: rest => system_initializations system rest
  end.

(** An initialized world with the three systems and the car. *)
Definition running_garage : State :=
  World.addEntity 1
    (World.initialize (run_ops Garage.registrations Garage.empty)).

(** ** Sequences of entity registrations and removals *)

Inductive EntityOp :=
| AddEntity (entity : EntityRef)
| RemoveEntity (entityOrId : EntityOrId).

Definition apply_entity_op (st : State) (op : EntityOp) : State :=
  match op with
  | AddEntity e => World.addEntity e st
  | RemoveEntity a => snd (World.removeEntity a st)
  end.

Definition run_entity_ops (ops : list EntityOp) (st : State) : State :=
  fold_left apply_entity_op ops st.

(** The entities a sequence of operations tries to register. *)
Definition added (ops : list EntityOp) : list EntityRef :=
  flat_map
    (fun op => match op with AddEntity e => [e] | RemoveEntity _ => [] end)
    ops.

Definition node_of (st : State) (entity : EntityRef) : NodeRef :=
  Entity.object3D (entity_store st entity).

(** The registry has no key twice, and every entity stands under its own
    name. *)
Definition registry_consistent (st : State) : Prop :=
  NoDup (JsMap.keys (entities st))
  /\ forall k r, (k, r) ∈ entities st -> name_of st r = k.

(** The node of every registered entity is a child of the scene root, and
    no node is there twice. *)
Definition scene_consistent (st : State) : Prop :=
  NoDup (scene st)
  /\ forall r, r ∈ registered st -> node_of st r ∈ scene st.

(** Registrations and removals on the empty garage: the car, a second
    object that calls itself "car", the cone, and the car taken out. *)
Definition garage_traffic : list EntityOp :=
  [AddEntity 1; AddEntity 4; AddEntity 3; RemoveEntity (AnId "car")].

(** The scheduled garage with the disabled replay system registered too. *)
Definition garage_with_replay : State := World.addSystem 5 Garage.scheduled.

(** ** Sequences of [pause] and [resume] calls *)

Inductive PauseOp := Pause | Resume.

Definition apply_pause_op (st : State) (op : PauseOp) : State :=
  match op with
  | Pause => World.pause st
  | Resume => World.resume st
  end.

Definition run_pause_ops (ops : list PauseOp) (st : State) : State :=
  fold_left apply_pause_op ops st.

(** [n] notifications that alternate, the first one a resume when the world
    is paused now and a pause when it is running. *)
Fixpoint alternating (paused_now : bool) (n : nat) : list BusEvent :=
  match n with
  | O => []
  | S n' =>
      BusEmit (Literal (if paused_now then "world.resume" else "world.pause"))
      :: alternating (negb paused_now) n'
  end.

(** ** The calls an optional pass schedules *)

Definition optional_calls (hook : System.t -> option HookBehaviour)
    (ev : SystemRef -> Event) (st : State) : list (Event * HookBehaviour) :=
  flat_map
    (fun s =>
       if System.enabled (system_store st s) then
         match hook (system_store st s) with
         | Some h => [(ev s, h)]
         | None => []
         end
       else [])
    (systems st).

(** ** The entries of a snapshot *)

Definition is_root (st : State) (kv : string * EntityRef) : bool :=
  match Entity.parent (entity_store st (snd kv)) with
  | None => true
  | Some _ => false
  end.

(** A registry key that a plain object takes as a property: every name but
    [__proto__]. *)
Definition is_property (kv : string * EntityRef) : bool :=
  negb (String.eqb (fst kv) "__proto__").

Definition root_entries (st : State) : JsObject.t EntityJSON.t :=
  List.map (fun kv => (fst kv, BaseEntity.toJSON (snd kv) st))
    (List.filter (fun kv => is_root st kv && is_property kv) (entities st)).

(** ** A car model for the dummy lookup *)

Module Model.
Import DummyLookupSystem.
Definition exhaust : Object3D := Node (Some "Dummy_Exhaust") [].
Definition wheel_dummy : Object3D := Node (Some "wheel_DUMMY_fl") [].
Definition wheel : Object3D := Node (Some "wheel_fl") [wheel_dummy].
Definition body : Object3D := Node (Some "body") [exhaust; Node None []].
Definition car : Object3D := Node (Some "s15") [body; wheel].
Definition entity : option EntityView := Some (mkEntityView "s15" (Some car)).
End Model.

(** ** Vocabulary for the audio manager *)

(** The sound's flag and its audio object's flag say the same. *)
Definition in_step (s : Sound.t) : bool :=
  Bool.eqb (Sound.isPlaying s) (Sound.audio_isPlaying s).

(** The sound of index [i] of a pool is loaded and does not play. *)
Definition idle_at (baseKey : string) (m : AudioManager.t) (i : nat) : Prop :=
  exists sound,
    AudioManager.get (AudioManager.pooled_key baseKey i) m = Some sound /\
    Sound.isPlaying sound = false.

(** The sound of index [i] of a pool is missing or plays. *)
Definition busy_at (baseKey : string) (m : AudioManager.t) (i : nat) : Prop :=
  match AudioManager.get (AudioManager.pooled_key baseKey i) m with
  | Some sound => Sound.isPlaying sound = true
  | None => True
  end.

(** [n] calls of [playFromPool] in a row: what they return, and the manager
    afterwards. *)
Fixpoint play_in_a_row (baseKey : string) (count n : nat)
    (m : AudioManager.t) : list (option string) * AudioManager.t :=
  match n with
  | O => ([], m)
  | S n' =>
      let (r, m1) := AudioManager.playFromPool baseKey count m in
      let (rs, m2) := play_in_a_row baseKey count n' m1 in
      (r :: rs, m2)
  end.

(** The loads of a pool have completed, in the order they were started. *)
Definition loaded (requests : list (string * SoundConfig))
    (m : AudioManager.t) : AudioManager.t :=
  fold_left (fun m r => AudioManager.create (snd r) m) requests m.

Module Studio.
Definition horn_config : SoundConfig := mkSoundConfig "horn" SFX true.
Definition theme : Sound.t :=
  Sound.mk "theme" MUSIC (mkSoundConfig "theme" MUSIC true) true true.
Definition rain : Sound.t :=
  Sound.mk "rain" AMBIENT (mkSoundConfig "rain" AMBIENT true) false false.
Definition click : Sound.t :=
  Sound.mk "click" UI (mkSoundConfig "click" UI false) true true.
Definition mixer : AudioManager.t :=
  AudioManager.mk [("theme", theme); ("rain", rain); ("click", click)]
    false [].
Definition horns : AudioManager.t :=
  loaded (snd (AudioManager.createSoundPool "horn" 3 "/sfx/horn.ogg"
                 horn_config))
    AudioManager.new.
End Studio.

(** The sound of index [i] of a pool is loaded and plays. *)
Definition playing_at (baseKey : string) (m : AudioManager.t) (i : nat) : Prop :=
  exists sound,
    AudioManager.get (AudioManager.pooled_key baseKey i) m = Some sound /\
    Sound.isPlaying sound = true.

(** ** The enumeration order of a snapshot's entries *)

(** An entry whose key is an array index, and the number it stands for. *)
Definition is_index {V} (kv : string * V) : bool :=
  match JsObject.array_index (fst kv) with
  | Some _ => true
  | None => false
  end.

Definition named {V} (kv : string * V) : bool := negb (is_index kv).

Definition index_of {V} (kv : string * V) : N :=
  default 0%N (JsObject.array_index (fst kv)).

Definition index_le {V} (a b : string * V) : Prop :=
  (index_of a <= index_of b)%N.

(** A world whose entities are named "2", "b" and "1", registered in this
    order; none has a parent. *)
Module Shelf.
Definition entity_objects : EntityRef -> Entity.t :=
  <[1 := Entity.mk "2" true None [] 10 Returns]>
    (<[2 := Entity.mk "b" true None [] 11 Returns]>
       (<[3 := Entity.mk "1" false None [] 12 Returns]>
          (fun _ => Entity.new "" 0))).

Definition numbered : State :=
  World.addEntity 3
    (World.addEntity 2
       (World.addEntity 1
          (World.new [] entity_objects Garage.system_objects 100))).
End Shelf.

(** * Facts about the building blocks *)

Section Loops.
Context {A : Type}.

Lemma for_each_do_nil (body : A -> State -> State) st :
  for_each_do body [] st = st.
Proof. reflexivity. Qed.

Lemma for_each_do_cons (body : A -> State -> State) x xs st :
  for_each_do body (x :: xs) st = for_each_do body xs (body x st).
Proof. reflexivity. Qed.

(** A projection that no turn of the loop changes is unchanged by the
    loop. *)
Lemma for_each_do_preserves {B} (proj : State -> B)
    (body : A -> State -> State) xs st :
  (forall x s, proj (body x s) = proj s) ->
  proj (for_each_do body xs st) = proj st.
Proof.
  intros Hbody. revert st.
  induction xs as [|x xs IH]; intros st; [reflexivity|].
  rewrite for_each_do_cons, IH. apply Hbody.
Qed.

(** A loop whose every turn logs one call logs them in order. *)
Lemma for_each_do_trace (ev : A -> Event) (body : A -> State -> State) xs st :
  (forall x s, trace (body x s) = trace s ++ [ev x]) ->
  trace (for_each_do body xs st) = trace st ++ List.map ev xs.
Proof.
  intros Hbody. revert st.
  induction xs as [|x xs IH]; intros st.
  - simpl. now rewrite app_nil_r.
  - rewrite for_each_do_cons, IH, Hbody. simpl.
    now rewrite <- app_assoc.
Qed.
End Loops.

Section MapFacts.
Context {V : Type}.

Lemma JsMap_has_keys (k : string) (m : JsMap.t V) :
  JsMap.has k m = true <-> k ∈ JsMap.keys m.
Proof.
  unfold JsMap.has. induction m as [|[k' v] m IH]; simpl.
  - split; [discriminate | intros H; inversion H].
  - destruct (String.eqb_spec k k') as [->|Hne].
    + split; [intros _; apply elem_of_cons; now left | reflexivity].
    + rewrite IH. rewrite elem_of_cons. split; [now right|].
      intros [Heq|Hin]; [contradiction|assumption].
Qed.

Lemma JsMap_set_fresh (k : string) (v : V) (m : JsMap.t V) :
  JsMap.has k m = false -> JsMap.set k v m = m ++ [(k, v)].
Proof.
  unfold JsMap.has. induction m as [|[k' v'] m IH]; simpl; [reflexivity|].
  destruct (String.eqb k k'); [discriminate|].
  intros H. now rewrite IH.
Qed.

Lemma JsMap_get_delete_eq (k : string) (m : JsMap.t V) :
  JsMap.get k (JsMap.delete k m) = None.
Proof.
  induction m as [|[k' v] m IH]; simpl; [reflexivity|].
  destruct (String.eqb k k') eqn:E; simpl; [assumption|].
  now rewrite E.
Qed.

Lemma JsMap_get_delete_ne (k k' : string) (m : JsMap.t V) :
  k' <> k -> JsMap.get k' (JsMap.delete k m) = JsMap.get k' m.
Proof.
  intros Hne. induction m as [|[k0 v] m IH]; simpl; [reflexivity|].
  destruct (String.eqb_spec k k0) as [->|Hk]; simpl.
  - destruct (String.eqb_spec k' k0) as [->|_]; [contradiction|assumption].
  - destruct (String.eqb k' k0); [reflexivity|assumption].
Qed.

(** With unique keys, looking up each key in turn visits each value. *)
Lemma JsMap_get_keys (m : JsMap.t V) :
  NoDup (JsMap.keys m) ->
  List.map (fun k => JsMap.get k m) (JsMap.keys m)
  = List.map Some (JsMap.values m).
Proof.
  induction m as [|[k v] m IH]; simpl; [reflexivity|].
  intros Hnd. apply NoDup_cons in Hnd as [Hk Hnd].
  rewrite String.eqb_refl. f_equal.
  rewrite <- IH by assumption.
  apply map_ext_in. intros k' Hin.
  destruct (String.eqb_spec k' k) as [->|_]; [|reflexivity].
  exfalso. apply Hk. now apply list_elem_of_In.
Qed.
End MapFacts.

Lemma Scene_remove_absent (n : NodeRef) (children : list NodeRef) :
  NoDup children -> n ∉ Scene.remove n children.
Proof.
  induction children as [|c cs IH]; simpl; intros Hnd.
  - apply not_elem_of_nil.
  - apply NoDup_cons in Hnd as [Hc Hnd].
    destruct (Nat.eqb_spec n c) as [->|Hne]; [assumption|].
    rewrite elem_of_cons. intros [Heq|Hin]; [contradiction|].
    now apply IH.
Qed.

Lemma set_trace_same (st : State) : set_trace (trace st) st = st.
Proof. now destruct st. Qed.

(** * The frame passes *)

Section Passes.
Context {A : Type}.
Variable cond : State -> A -> bool.
Variable hook : State -> A -> HookBehaviour.
Variable ev : A -> Event.
Hypothesis cond_trace : forall t s x, cond (set_trace t s) x = cond s x.
Hypothesis hook_trace : forall t s x, hook (set_trace t s) x = hook s x.

Let body (x : A) (s : State) : Completion :=
  if cond s x then invoke (ev x) (hook s x) s else Normal s.

Let calls (st : State) (xs : list A) : list (Event * HookBehaviour) :=
  List.map (fun x => (ev x, hook st x)) (List.filter (cond st) xs).

(** A loop of guarded hook calls makes the scheduled calls in order and
    stops at the first that raises. *)
Lemma for_each_invoke_at (xs : list A) (st : State) (t : list Event) :
  for_each body xs (set_trace t st) = run_calls (calls st xs) (set_trace t st).
Proof.
  revert t. induction xs as [|x xs IH]; intros t.
  - unfold run_calls, calls. simpl. now rewrite app_nil_r.
  - cbn [for_each]. unfold body at 1. rewrite cond_trace, hook_trace.
    unfold calls. cbn [List.filter]. destruct (cond st x).
    + cbn [List.map]. destruct (hook st x); cbn [invoke bind].
      * change (log (ev x) (set_trace t st))
          with (set_trace (t ++ [ev x]) st).
        rewrite IH. unfold run_calls, calls. simpl.
        now rewrite <- app_assoc.
      * reflexivity.
    + cbn [bind]. apply IH.
Qed.

Lemma for_each_invoke (xs : list A) (st : State) :
  for_each body xs st = run_calls (calls st xs) st.
Proof.
  rewrite <- (set_trace_same st) at 1 3. apply for_each_invoke_at.
Qed.
End Passes.

Lemma made_calls_app calls1 calls2 :
  made_calls (calls1 ++ calls2)
  = if some_raises calls1 then made_calls calls1
    else made_calls calls1 ++ made_calls calls2.
Proof.
  induction calls1 as [|[ev [|]] rest IH]; simpl; [reflexivity| |reflexivity].
  rewrite IH. now destruct (some_raises rest).
Qed.

Lemma some_raises_app calls1 calls2 :
  some_raises (calls1 ++ calls2) = some_raises calls1 || some_raises calls2.
Proof.
  induction calls1 as [|[ev [|]] rest IH]; simpl; auto.
Qed.

Lemma run_calls_app calls1 calls2 st :
  run_calls (calls1 ++ calls2) st
  = bind (run_calls calls1 st) (run_calls calls2).
Proof.
  unfold run_calls. rewrite made_calls_app, some_raises_app.
  destruct (some_raises calls1); simpl; [reflexivity|].
  now rewrite app_assoc.
Qed.

Lemma some_raises_false calls :
  some_raises calls = false <-> Forall (fun c => snd c = Returns) calls.
Proof.
  induction calls as [|[ev [|]] rest IH]; simpl.
  - split; [constructor | reflexivity].
  - rewrite IH. split; [now constructor|]. intros H. now inversion H.
  - split; [discriminate|]. intros H. inversion H. discriminate.
Qed.

Lemma made_calls_all calls :
  some_raises calls = false -> made_calls calls = List.map fst calls.
Proof.
  induction calls as [|[ev [|]] rest IH]; simpl; intros H;
    [reflexivity| |discriminate].
  now rewrite IH.
Qed.

Lemma made_calls_prefix calls : made_calls calls `prefix_of` List.map fst calls.
Proof.
  induction calls as [|[ev [|]] rest IH]; simpl.
  - reflexivity.
  - now apply prefix_cons.
  - apply prefix_cons, prefix_nil.
Qed.

Lemma made_calls_until before ev after :
  Forall (fun c => snd c = Returns) before ->
  made_calls (before ++ (ev, Raises) :: after) = List.map fst before ++ [ev]
  /\ some_raises (before ++ (ev, Raises) :: after) = true.
Proof.
  intros Hret. apply some_raises_false in Hret.
  rewrite made_calls_app, some_raises_app, Hret. simpl.
  now rewrite made_calls_all.
Qed.

Lemma update_plan_calls dt st :
  List.map fst (update_calls dt st) = update_plan dt st.
Proof.
  unfold update_calls, update_plan, system_update_calls, entity_update_calls.
  now rewrite map_app, !map_map.
Qed.

(** [World.update] on a running world makes the scheduled calls in order
    and completes abruptly at the first hook that raises. *)
Lemma update_run dt st :
  World.suspended st = false ->
  World.update dt st = run_calls (update_calls dt st) st.
Proof.
  intros Hrun. unfold World.update. rewrite Hrun.
  unfold update_calls. rewrite run_calls_app.
  rewrite (for_each_invoke
             (fun s x => System.enabled (system_store s x))
             (fun s x => System.update (system_store s x))
             (fun x => SystemUpdate x dt)) by reflexivity.
  fold (system_update_calls dt st).
  unfold run_calls at 1 2.
  destruct (some_raises (system_update_calls dt st)); cbn [bind];
    [reflexivity|].
  rewrite (for_each_invoke
             (fun s x => Entity.active (entity_store s x))
             (fun s x => Entity.update (entity_store s x))
             (fun x => EntityUpdate x dt)) by reflexivity.
  reflexivity.
Qed.

Lemma updated_systems_app evs1 evs2 :
  updated_systems (evs1 ++ evs2) = updated_systems evs1 ++ updated_systems evs2.
Proof.
  induction evs1 as [|e evs1 IH]; [reflexivity|].
  destruct e; simpl; now rewrite ?IH.
Qed.

Lemma updated_systems_plan dt st :
  updated_systems (update_plan dt st)
  = List.filter (fun s => System.enabled (system_store st s)) (systems st).
Proof.
  unfold update_plan. rewrite updated_systems_app.
  set (ss := List.filter _ (systems st)).
  set (es := List.filter _ (JsMap.values (entities st))).
  assert (H1 : updated_systems (List.map (fun s => SystemUpdate s dt) ss) = ss).
  { induction ss as [|s ss IH]; simpl; [reflexivity|]. now rewrite IH. }
  assert (H2 : updated_systems (List.map (fun e => EntityUpdate e dt) es) = []).
  { induction es as [|e es IH]; simpl; [reflexivity|]. exact IH. }
  now rewrite H1, H2, app_nil_r.
Qed.

Lemma suspended_false st :
  active st = true -> paused st = false -> World.suspended st = false.
Proof. unfold World.suspended. now intros -> ->. Qed.

(** C8: in every [World.update] on an active, unpaused world the calls made
    are an initial part of the frame's plan -- the [update] of each enabled
    system in list order, then the [update] of each active entity in
    registry insertion order -- so no entity is updated before every enabled
    system has been; disabled systems and inactive entities are not in the
    plan; a pass that returns has made the whole plan, and it returns
    whenever no scheduled hook raises. *)
Theorem update_runs_systems_before_entities (dt : Number) (st : State) :
  active st = true ->
  paused st = false ->
  exists evs,
    trace (state_of (World.update dt st)) = trace st ++ evs
    /\ evs `prefix_of` update_plan dt st
    /\ (forall st', World.update dt st = Normal st' ->
        evs = update_plan dt st)
    /\ (Forall (fun c => snd c = Returns) (update_calls dt st) ->
        World.update dt st
        = Normal (set_trace (trace st ++ update_plan dt st) st)).
Proof.
  intros Hact Hrun.
  rewrite (update_run dt st (suspended_false st Hact Hrun)).
  exists (made_calls (update_calls dt st)).
  rewrite <- update_plan_calls. unfold run_calls.
  repeat split.
  - now destruct (some_raises (update_calls dt st)).
  - apply made_calls_prefix.
  - destruct (some_raises (update_calls dt st)) eqn:E; [discriminate|].
    intros _ _. now apply made_calls_all.
  - intros Hret. apply some_raises_false in Hret. rewrite Hret.
    now rewrite made_calls_all.
Qed.

Lemma update_runs_systems_before_entities_witness :
  update_plan Garage.tick Garage.scheduled
  = [SystemUpdate 2 Garage.tick; SystemUpdate 3 Garage.tick; SystemUpdate 1 Garage.tick;
     EntityUpdate 1 Garage.tick; EntityUpdate 3 Garage.tick]
  /\ exists evs,
       trace (state_of (World.update Garage.tick Garage.scheduled))
       = trace Garage.scheduled ++ evs
       /\ evs `prefix_of` update_plan Garage.tick Garage.scheduled
       /\ (forall st', World.update Garage.tick Garage.scheduled = Normal st' ->
           evs = update_plan Garage.tick Garage.scheduled)
       /\ (Forall (fun c => snd c = Returns)
             (update_calls Garage.tick Garage.scheduled) ->
           World.update Garage.tick Garage.scheduled
           = Normal
               (set_trace
                  (trace Garage.scheduled ++ update_plan Garage.tick Garage.scheduled)
                  Garage.scheduled)).
Proof.
  split; [reflexivity|].
  apply (update_runs_systems_before_entities Garage.tick Garage.scheduled);
    reflexivity.
Defined.

(** C3, at a world whose first scheduled system raises: the frame is
    abandoned, so the fault is not isolated. *)
Lemma update_does_not_isolate_faults :
  ~ update_isolates_faults Garage.tick Garage.with_fault.
Proof.
  intros [[st' Hret] _]. vm_compute in Hret. discriminate Hret.
Qed.

(** C3, amended: when a scheduled [update] hook raises, the fault leaves
    [World.update]: the hooks scheduled before it were called, the raising
    hook was called, and no hook scheduled after it is called in that
    frame. *)
Theorem update_fault_propagates (dt : Number) (st : State)
    (before after : list (Event * HookBehaviour)) (ev : Event) :
  active st = true ->
  paused st = false ->
  update_calls dt st = before ++ (ev, Raises) :: after ->
  Forall (fun c => snd c = Returns) before ->
  World.update dt st
  = Abrupt (set_trace (trace st ++ List.map fst before ++ [ev]) st).
Proof.
  intros Hact Hrun Hcalls Hret.
  rewrite (update_run dt st (suspended_false st Hact Hrun)), Hcalls.
  unfold run_calls.
  destruct (made_calls_until before ev after Hret) as [-> ->].
  reflexivity.
Qed.

Lemma update_fault_propagates_witness :
  World.update Garage.tick Garage.with_fault
  = Abrupt
      (set_trace (trace Garage.with_fault ++ [SystemUpdate 4 Garage.tick])
         Garage.with_fault).
Proof.
  apply (update_fault_propagates Garage.tick Garage.with_fault []
           (List.tl (update_calls Garage.tick Garage.with_fault))
           (SystemUpdate 4 Garage.tick));
    [reflexivity | reflexivity | reflexivity | constructor].
Defined.

(** * Registering and removing entities *)

Lemma addEntity_taken entity st :
  JsMap.has (name_of st entity) (entities st) = true ->
  World.addEntity entity st = st.
Proof.
  intros Hdup. unfold World.addEntity. unfold name_of in Hdup.
  now rewrite Hdup.
Qed.

(** C6: when the registry already has an entity under [entity]'s name,
    [addEntity] returns normally and changes nothing: the registry still
    maps the name to the entity it held, its size is the same, the scene
    graph is untouched, no system was offered the entity and no hook was
    called. *)
Theorem addEntity_duplicate_name_is_noop (st : State) (entity : EntityRef) :
  JsMap.has (name_of st entity) (entities st) = true ->
  World.addEntity entity st = st
  /\ JsMap.get (name_of st entity) (entities (World.addEntity entity st))
     = JsMap.get (name_of st entity) (entities st)
  /\ length (entities (World.addEntity entity st)) = length (entities st)
  /\ scene (World.addEntity entity st) = scene st
  /\ system_store (World.addEntity entity st) = system_store st
  /\ trace (World.addEntity entity st) = trace st.
Proof.
  intros Hdup. rewrite (addEntity_taken entity st Hdup).
  repeat split; reflexivity.
Qed.

Lemma addEntity_duplicate_name_is_noop_witness :
  JsMap.get "car" (entities Garage.populated) = Some 1
  /\ name_of Garage.populated 4 = "car"
  /\ World.addEntity 4 Garage.populated = Garage.populated.
Proof.
  split; [reflexivity|]. split; [reflexivity|].
  apply (addEntity_duplicate_name_is_noop Garage.populated 4).
  reflexivity.
Defined.

Lemma tracked_by_removeEntity (s x : SystemRef) (entity : EntityRef) st :
  tracked_by s (BaseSystem.removeEntity x entity st)
  = if decide (x = s) then tracked_by s st ∖ {[entity]} else tracked_by s st.
Proof.
  unfold tracked_by, BaseSystem.removeEntity. simpl.
  destruct (decide (x = s)) as [->|Hne].
  - now rewrite fn_lookup_alter.
  - now rewrite fn_lookup_alter_ne.
Qed.

Lemma remove_loop_tracked (entity : EntityRef) (xs : list SystemRef) st s :
  tracked_by s
    (for_each_do (fun system => BaseSystem.removeEntity system entity) xs st)
  = if bool_decide (s ∈ xs) then tracked_by s st ∖ {[entity]}
    else tracked_by s st.
Proof.
  revert st. induction xs as [|x xs IH]; intros st; [reflexivity|].
  rewrite for_each_do_cons, IH, tracked_by_removeEntity.
  destruct (decide (x = s)) as [->|Hne].
  - rewrite (bool_decide_eq_true_2 (s ∈ s :: xs)) by apply list_elem_of_here.
    case_bool_decide; [set_solver | reflexivity].
  - case_bool_decide as Hin.
    + rewrite bool_decide_eq_true_2; [reflexivity|].
      now apply list_elem_of_further.
    + rewrite bool_decide_eq_false_2; [reflexivity|].
      rewrite elem_of_cons. intros [->|?]; contradiction.
Qed.

(** C7: [removeEntity] returns [true] exactly when the registry has an
    entity under the given identity.  Then the registered entity's node is
    detached from the scene, every system of the list is told to remove the
    entity, whatever its compatibility predicate says, and the entity is
    erased from the registry.  Otherwise it returns [false] and the state is
    untouched.  It has no other completion. *)
Theorem removeEntity_reports_presence (st : State) (entityOrId : EntityOrId) :
  (fst (World.removeEntity entityOrId st) = true
   <-> JsMap.has (id_of entityOrId st) (entities st) = true)
  /\ (forall entity,
        JsMap.get (id_of entityOrId st) (entities st) = Some entity ->
        let st' := snd (World.removeEntity entityOrId st) in
        scene st'
        = Scene.remove (Entity.object3D (entity_store st entity)) (scene st)
        /\ (NoDup (scene st) ->
            Entity.object3D (entity_store st entity) ∉ scene st')
        /\ trace st'
           = trace st
             ++ List.map (fun s => SystemRemoveEntity s entity) (systems st)
        /\ (forall s, s ∈ systems st -> entity ∉ tracked_by s st')
        /\ JsMap.get (id_of entityOrId st) (entities st') = None
        /\ (forall k, k <> id_of entityOrId st ->
            JsMap.get k (entities st') = JsMap.get k (entities st))
        /\ systems st' = systems st)
  /\ (JsMap.has (id_of entityOrId st) (entities st) = false ->
      World.removeEntity entityOrId st = (false, st)).
Proof.
  assert (Hid : World.removeEntity entityOrId st
                = match JsMap.get (id_of entityOrId st) (entities st) with
                  | None => (false, st)
                  | Some entity =>
                      let st1 :=
                        set_scene
                          (Scene.remove
                             (Entity.object3D (entity_store st entity))
                             (scene st)) st in
                      let st2 :=
                        for_each_do
                          (fun system => BaseSystem.removeEntity system entity)
                          (systems st1) st1 in
                      (true,
                       set_entities
                         (JsMap.delete (id_of entityOrId st) (entities st2))
                         st2)
                  end).
  { now destruct entityOrId. }
  rewrite Hid. unfold JsMap.has.
  destruct (JsMap.get (id_of entityOrId st) (entities st)) as [entity|].
  2:{ repeat split; try discriminate; auto. }
  split; [now split|]. split; [|discriminate].
  intros e He. injection He as <-. cbn zeta. cbn [snd].
  set (loop := for_each_do _ _ _).
  assert (Hscene : scene loop
                   = Scene.remove (Entity.object3D (entity_store st entity))
                       (scene st)).
  { unfold loop. now rewrite for_each_do_preserves. }
  assert (Hents : entities loop = entities st).
  { unfold loop. now rewrite for_each_do_preserves. }
  repeat split.
  - exact Hscene.
  - intros Hnd. simpl. rewrite Hscene. now apply Scene_remove_absent.
  - simpl. unfold loop.
    now rewrite (for_each_do_trace (fun s => SystemRemoveEntity s entity)).
  - intros s Hs. unfold tracked_by. simpl. fold (tracked_by s loop).
    unfold loop. rewrite remove_loop_tracked. simpl.
    rewrite bool_decide_eq_true_2 by assumption. set_solver.
  - simpl. apply JsMap_get_delete_eq.
  - intros k Hk. simpl. rewrite JsMap_get_delete_ne by assumption.
    now rewrite Hents.
  - simpl. unfold loop. now rewrite for_each_do_preserves.
Qed.

Lemma removeEntity_reports_presence_witness :
  World.removeEntity (AnId "trailer") Garage.scheduled
  = (false, Garage.scheduled)
  /\ fst (World.removeEntity (AnEntity 3) Garage.scheduled) = true.
Proof.
  split.
  - apply (removeEntity_reports_presence Garage.scheduled (AnId "trailer")).
    reflexivity.
  - apply (removeEntity_reports_presence Garage.scheduled (AnEntity 3)).
    reflexivity.
Defined.

(** * What the passes depend on *)

Section Frames.
(** A change of the state that the passes neither read nor write: it
    leaves the stores, the lists and the gate alone and commutes with
    logging a call. *)
Variable f : State -> State.
Hypothesis f_system_store : forall s, system_store (f s) = system_store s.
Hypothesis f_entity_store : forall s, entity_store (f s) = entity_store s.
Hypothesis f_systems : forall s, systems (f s) = systems s.
Hypothesis f_entities : forall s, entities (f s) = entities s.
Hypothesis f_suspended : forall s, World.suspended (f s) = World.suspended s.
Hypothesis f_log : forall ev s, log ev (f s) = f (log ev s).

Lemma invoke_frame ev h s : invoke ev h (f s) = on_state f (invoke ev h s).
Proof. destruct h; simpl; now rewrite f_log. Qed.

Lemma for_each_frame {A} (body : A -> State -> Completion) xs st :
  (forall x s, body x (f s) = on_state f (body x s)) ->
  for_each body xs (f st) = on_state f (for_each body xs st).
Proof.
  intros Hbody. revert st. induction xs as [|x xs IH]; intros st;
    [reflexivity|].
  cbn [for_each]. rewrite Hbody.
  destruct (body x st) as [s|s]; cbn [bind on_state]; [apply IH|reflexivity].
Qed.

Lemma bind_frame c k k' :
  (forall s, k (f s) = on_state f (k' s)) ->
  bind (on_state f c) k = on_state f (bind c k').
Proof. intros Hk. destruct c; simpl; [apply Hk|reflexivity]. Qed.

Lemma update_frame dt st :
  World.update dt (f st) = on_state f (World.update dt st).
Proof.
  unfold World.update. rewrite f_suspended.
  destruct (World.suspended st); [reflexivity|].
  rewrite f_systems, for_each_frame.
  - apply bind_frame. intros s. rewrite f_entities. apply for_each_frame.
    intros x s'. rewrite f_entity_store.
    destruct (Entity.active _); [apply invoke_frame|reflexivity].
  - intros x s. rewrite f_system_store.
    destruct (System.enabled _); [apply invoke_frame|reflexivity].
Qed.

Lemma optional_pass_frame hook ev st :
  World.optional_pass hook ev (f st)
  = on_state f (World.optional_pass hook ev st).
Proof.
  unfold World.optional_pass. rewrite f_suspended.
  destruct (World.suspended st); [reflexivity|].
  rewrite f_systems. apply for_each_frame.
  intros x s. rewrite f_system_store.
  destruct (System.enabled _); [|reflexivity].
  destruct (hook _); [apply invoke_frame|reflexivity].
Qed.
End Frames.

Lemma pause_resume (st : State) :
  paused st = false ->
  World.resume (World.pause st)
  = set_bus
      (bus st
       ++ [BusEmit (Literal "world.pause"); BusEmit (Literal "world.resume")])
      st.
Proof.
  intros Hrun. unfold World.pause. rewrite Hrun.
  unfold World.resume, publish. destruct st. simpl in *. subst.
  unfold set_bus. simpl. now rewrite <- app_assoc.
Qed.

(** What an optional pass does on a running world: the scheduled calls,
    in order, up to the first one that raises. *)
Lemma optional_pass_run_at (hook : System.t -> option HookBehaviour)
    (ev : SystemRef -> Event) (xs : list SystemRef) (st : State)
    (t : list Event) :
  for_each
    (fun system s =>
       if System.enabled (system_store s system) then
         match hook (system_store s system) with
         | Some h => invoke (ev system) h s
         | None => Normal s
         end
       else Normal s)
    xs (set_trace t st)
  = run_calls
      (flat_map
         (fun s =>
            if System.enabled (system_store st s) then
              match hook (system_store st s) with
              | Some h => [(ev s, h)]
              | None => []
              end
            else [])
         xs)
      (set_trace t st).
Proof.
  revert t. induction xs as [|x xs IH]; intros t.
  - unfold run_calls. simpl. now rewrite app_nil_r.
  - cbn [for_each flat_map].
    change (system_store (set_trace t st) x) with (system_store st x).
    destruct (System.enabled (system_store st x));
      [|cbn [bind app]; apply IH].
    destruct (hook (system_store st x)) as [[|]|];
      cbn [invoke bind app]; [| |apply IH].
    + change (log (ev x) (set_trace t st))
        with (set_trace (t ++ [ev x]) st).
      rewrite IH. unfold run_calls. simpl. now rewrite <- app_assoc.
    + reflexivity.
Qed.

Lemma optional_pass_run hook ev st :
  World.suspended st = false ->
  World.optional_pass hook ev st = run_calls (optional_calls hook ev st) st.
Proof.
  intros Hrun. unfold World.optional_pass, optional_calls. rewrite Hrun.
  pose proof (optional_pass_run_at hook ev (systems st) st (trace st)) as H.
  now rewrite (set_trace_same st) in H.
Qed.

(** C9: while a world is paused (or inactive) each of [update],
    [fixedUpdate], [preRender] and [postRender] returns at once: no hook is
    called and the state -- entities, systems, registry, scene graph, trace
    -- is the one it was given.  [pause] then [resume] on a running world
    gives back the state it started from, with only the two notifications
    added on the event bus, and on it each pass does exactly what it does
    on the state before the pause.  On an active world the passes dispatch
    again after [resume]: [update] calls the [update] hook of the enabled
    systems and then of the active entities, and each of the other three
    calls its hook on the enabled systems that have it, as the state before
    the pause schedules them. *)
Theorem suspended_world_runs_no_pass (st : State) (dt : Number) :
  (paused st = true \/ active st = false ->
   World.update dt st = Normal st
   /\ World.fixedUpdate dt st = Normal st
   /\ World.preRender st = Normal st
   /\ World.postRender st = Normal st)
  /\ (paused st = false ->
      let held := World.pause st in
      let back := World.resume held in
      let notes :=
        bus st
        ++ [BusEmit (Literal "world.pause");
            BusEmit (Literal "world.resume")] in
      paused held = true
      /\ World.update dt held = Normal held
      /\ World.fixedUpdate dt held = Normal held
      /\ World.preRender held = Normal held
      /\ World.postRender held = Normal held
      /\ paused back = false
      /\ back = set_bus notes st
      /\ World.update dt back = on_state (set_bus notes) (World.update dt st)
      /\ World.fixedUpdate dt back
         = on_state (set_bus notes) (World.fixedUpdate dt st)
      /\ World.preRender back = on_state (set_bus notes) (World.preRender st)
      /\ World.postRender back
         = on_state (set_bus notes) (World.postRender st)
      /\ (active st = true ->
          World.update dt back = run_calls (update_calls dt st) back
          /\ World.fixedUpdate dt back
             = run_calls
                 (optional_calls System.fixedUpdate
                    (fun s => SystemFixedUpdate s dt) st) back
          /\ World.preRender back
             = run_calls
                 (optional_calls System.preRender SystemPreRender st) back
          /\ World.postRender back
             = run_calls
                 (optional_calls System.postRender SystemPostRender st) back)).
Proof.
  assert (Hgate : forall s, World.suspended s = true ->
            World.update dt s = Normal s
            /\ World.fixedUpdate dt s = Normal s
            /\ World.preRender s = Normal s
            /\ World.postRender s = Normal s).
  { intros s Hs.
    unfold World.update, World.fixedUpdate, World.preRender,
      World.postRender, World.optional_pass.
    now rewrite Hs. }
  split.
  - intros Hsusp. apply Hgate. unfold World.suspended.
    destruct Hsusp as [-> | ->]; [apply orb_true_r | reflexivity].
  - intros Hrun. cbn zeta. rewrite (pause_resume st Hrun).
    assert (Hheld : paused (World.pause st) = true).
    { unfold World.pause. now rewrite Hrun. }
    split; [exact Hheld|].
    destruct (Hgate (World.pause st)) as (H1 & H2 & H3 & H4).
    { unfold World.suspended. rewrite Hheld. apply orb_true_r. }
    repeat split; try assumption.
    + apply update_frame; reflexivity.
    + apply optional_pass_frame; reflexivity.
    + apply optional_pass_frame; reflexivity.
    + apply optional_pass_frame; reflexivity.
    + apply (update_run dt (set_bus _ st)).
      now apply (suspended_false st).
    + apply (optional_pass_run System.fixedUpdate
               (fun s => SystemFixedUpdate s dt) (set_bus _ st)).
      now apply (suspended_false st).
    + apply (optional_pass_run System.preRender SystemPreRender
               (set_bus _ st)).
      now apply (suspended_false st).
    + apply (optional_pass_run System.postRender SystemPostRender
               (set_bus _ st)).
      now apply (suspended_false st).
Qed.

Lemma suspended_world_runs_no_pass_witness :
  World.update Garage.tick (World.pause Garage.scheduled)
  = Normal (World.pause Garage.scheduled)
  /\ World.update Garage.tick (World.resume (World.pause Garage.scheduled))
     = on_state
         (set_bus
            [BusEmit (Literal "world.pause"); BusEmit (Literal "world.resume")])
         (World.update Garage.tick Garage.scheduled)
  /\ trace
       (state_of
          (World.update Garage.tick
             (World.resume (World.pause Garage.scheduled))))
     = [SystemUpdate 2 Garage.tick; SystemUpdate 3 Garage.tick;
        SystemUpdate 1 Garage.tick; EntityUpdate 1 Garage.tick;
        EntityUpdate 3 Garage.tick]
  /\ trace
       (state_of
          (World.fixedUpdate Garage.tick
             (World.resume (World.pause Garage.scheduled))))
     = [SystemFixedUpdate 2 Garage.tick]
  /\ trace
       (state_of
          (World.preRender (World.resume (World.pause Garage.scheduled))))
     = [SystemPreRender 3]
  /\ trace
       (state_of
          (World.postRender (World.resume (World.pause Garage.scheduled))))
     = [SystemPostRender 3].
Proof.
  split.
  - apply (proj1 (suspended_world_runs_no_pass
                    (World.pause Garage.scheduled) Garage.tick)).
    left. reflexivity.
  - destruct (proj2 (suspended_world_runs_no_pass Garage.scheduled
                       Garage.tick) eq_refl)
      as (_ & _ & _ & _ & _ & _ & _ & Hsame & _ & _ & _ & Hagain).
    split; [exact Hsame|].
    destruct (Hagain eq_refl) as (Hu & Hf & Hpre & Hpost).
    cbn zeta in Hu, Hf, Hpre, Hpost.
    rewrite Hu, Hf, Hpre, Hpost. repeat split.
Defined.
(** C10: a newly constructed world is active, not paused and not
    initialized, with an empty registry and an empty system list.  No pass
    reads the [initialized] flag: whatever it is set to, each pass does the
    same and leaves it as it was.  So on a running world that was never
    initialized all four passes dispatch: [update] makes its scheduled
    calls, and [fixedUpdate], [preRender] and [postRender] call their hook
    on the enabled systems that have it. *)
Theorem passes_do_not_wait_for_initialize :
  (forall scn eo so n,
     let w := World.new scn eo so n in
     active w = true /\ paused w = false /\ initialized w = false
     /\ entities w = [] /\ systems w = [])
  /\ (forall st b dt,
        World.update dt (set_initialized b st)
        = on_state (set_initialized b) (World.update dt st)
        /\ World.fixedUpdate dt (set_initialized b st)
           = on_state (set_initialized b) (World.fixedUpdate dt st)
        /\ World.preRender (set_initialized b st)
           = on_state (set_initialized b) (World.preRender st)
        /\ World.postRender (set_initialized b st)
           = on_state (set_initialized b) (World.postRender st))
  /\ (forall st dt,
        initialized st = false -> active st = true -> paused st = false ->
        trace (state_of (World.update dt st))
        = trace st ++ made_calls (update_calls dt st))
  /\ (forall st dt,
        initialized st = false -> active st = true -> paused st = false ->
        World.update dt st = run_calls (update_calls dt st) st
        /\ World.fixedUpdate dt st
           = run_calls
               (optional_calls System.fixedUpdate
                  (fun s => SystemFixedUpdate s dt) st) st
        /\ World.preRender st
           = run_calls (optional_calls System.preRender SystemPreRender st) st
        /\ World.postRender st
           = run_calls
               (optional_calls System.postRender SystemPostRender st) st).
Proof.
  split; [intros; cbn; repeat split; reflexivity|]. split; [|split].
  - intros st b dt. repeat split.
    + apply update_frame; reflexivity.
    + apply optional_pass_frame; reflexivity.
    + apply optional_pass_frame; reflexivity.
    + apply optional_pass_frame; reflexivity.
  - intros st dt _ Hact Hrun.
    rewrite (update_run dt st (suspended_false st Hact Hrun)).
    unfold run_calls. now destruct (some_raises _).
  - intros st dt _ Hact Hrun.
    pose proof (suspended_false st Hact Hrun) as Hgate.
    unfold World.fixedUpdate, World.preRender, World.postRender.
    repeat split; [now apply update_run|now apply optional_pass_run..].
Qed.

Lemma passes_do_not_wait_for_initialize_witness :
  initialized Garage.scheduled = false
  /\ trace (state_of (World.update Garage.tick Garage.scheduled))
     = [SystemUpdate 2 Garage.tick; SystemUpdate 3 Garage.tick;
        SystemUpdate 1 Garage.tick; EntityUpdate 1 Garage.tick;
        EntityUpdate 3 Garage.tick]
  /\ trace (state_of (World.fixedUpdate Garage.tick Garage.scheduled))
     = [SystemFixedUpdate 2 Garage.tick]
  /\ trace (state_of (World.preRender Garage.scheduled))
     = [SystemPreRender 3]
  /\ trace (state_of (World.postRender Garage.scheduled))
     = [SystemPostRender 3].
Proof.
  split; [reflexivity|].
  split.
  - apply (proj1 (proj2 (proj2 passes_do_not_wait_for_initialize))
             Garage.scheduled Garage.tick);
      reflexivity.
  - destruct (proj2 (proj2 (proj2 passes_do_not_wait_for_initialize))
                Garage.scheduled Garage.tick eq_refl eq_refl eq_refl)
      as (_ & Hf & Hpre & Hpost).
    rewrite Hf, Hpre, Hpost. repeat split.
Defined.

(** * Tearing the world down *)

Lemma remove_children_enough (fuel : nat) (children : list NodeRef) :
  length children <= fuel -> World.remove_children fuel children = [].
Proof.
  revert children. induction fuel as [|fuel IH]; intros [|c cs] Hlen;
    simpl in *; try reflexivity; try lia.
  rewrite Nat.eqb_refl. apply IH. lia.
Qed.

Lemma destroy_entities_loop (m : JsMap.t EntityRef) (ids : list EntityId)
    (vals : list EntityRef) (st : State) :
  entities st = m ->
  List.map (fun id => JsMap.get id m) ids = List.map Some vals ->
  let st' :=
    for_each_do
      (fun id s =>
         match JsMap.get id (entities s) with
         | Some entity => BaseEntity.destroy entity s
         | None => s
         end)
      ids st in
  trace st' = trace st ++ List.map EntityDestroy vals
  /\ entities st' = m /\ systems st' = systems st /\ scene st' = scene st
  /\ system_store st' = system_store st.
Proof.
  revert vals st. induction ids as [|id ids IH]; intros [|v vals] st Hm Hget;
    try discriminate Hget.
  - simpl. now rewrite app_nil_r.
  - cbn zeta. rewrite for_each_do_cons.
    simpl in Hget. injection Hget as Hid Hrest.
    rewrite Hm, Hid.
    destruct (IH vals (BaseEntity.destroy v st) Hm Hrest)
      as (Ht & He & Hs & Hsc & Hss).
    rewrite Ht, He, Hs, Hsc, Hss. simpl.
    now rewrite <- app_assoc.
Qed.

Lemma tracked_by_destroy (s x : SystemRef) st :
  tracked_by s (BaseSystem.destroy x st)
  = if decide (x = s) then ∅ else tracked_by s st.
Proof.
  unfold tracked_by, BaseSystem.destroy. simpl.
  destruct (decide (x = s)) as [->|Hne].
  - now rewrite fn_lookup_alter.
  - now rewrite fn_lookup_alter_ne.
Qed.

Lemma destroy_loop_tracked (xs : list SystemRef) st s :
  s ∈ xs -> tracked_by s (for_each_do BaseSystem.destroy xs st) = ∅.
Proof.
  assert (Hkeep : forall ys st0, tracked_by s st0 = ∅ ->
            tracked_by s (for_each_do BaseSystem.destroy ys st0) = ∅).
  { induction ys as [|y ys IH]; intros st0 H0; [assumption|].
    rewrite for_each_do_cons. apply IH. rewrite tracked_by_destroy.
    now destruct (decide (y = s)). }
  revert st. induction xs as [|x xs IH]; intros st Hin.
  - now apply elem_of_nil in Hin.
  - rewrite for_each_do_cons. destruct (decide (x = s)) as [->|Hne].
    + apply Hkeep. rewrite tracked_by_destroy.
      now destruct (decide (s = s)).
    + apply IH. apply elem_of_cons in Hin as [->|Hin]; [contradiction|].
      assumption.
Qed.

(** C5: [World.destroy] returns, and when it has: [destroy] was called on
    every registered entity, in registry order, and then on every system of
    the list, in list order; the registry is empty, the system list is
    empty, the scene-graph root has no children, and the world is neither
    active nor initialized.  The destroyed systems track nothing. *)
Theorem destroy_tears_everything_down (st : State) :
  NoDup (JsMap.keys (entities st)) ->
  trace (World.destroy st)
  = trace st ++ List.map EntityDestroy (registered st)
    ++ List.map SystemDestroy (systems st)
  /\ entities (World.destroy st) = []
  /\ systems (World.destroy st) = []
  /\ scene (World.destroy st) = []
  /\ active (World.destroy st) = false
  /\ initialized (World.destroy st) = false
  /\ (forall s, s ∈ systems st -> tracked_by s (World.destroy st) = ∅).
Proof.
  intros Hnd. unfold World.destroy. cbn zeta.
  destruct (destroy_entities_loop (entities st) (JsMap.keys (entities st))
              (JsMap.values (entities st)) st eq_refl
              (JsMap_get_keys (entities st) Hnd))
    as (Ht & He & Hs & Hsc & Hss).
  set (st1 := for_each_do _ (JsMap.keys (entities st)) st) in *.
  cbn [systems set_entities].
  set (st3 := for_each_do BaseSystem.destroy (systems st1)
                (set_entities [] st1)).
  assert (Ht3 : trace st3
                = trace st ++ List.map EntityDestroy (registered st)
                  ++ List.map SystemDestroy (systems st)).
  { unfold st3. rewrite (for_each_do_trace SystemDestroy) by reflexivity.
    simpl. rewrite Ht, Hs. now rewrite <- app_assoc. }
  repeat split; simpl.
  - exact Ht3.
  - unfold st3. now rewrite for_each_do_preserves.
  - apply remove_children_enough. reflexivity.
  - intros s Hin. unfold tracked_by. simpl. fold (tracked_by s st3).
    unfold st3. apply destroy_loop_tracked. now rewrite Hs.
Qed.

Lemma destroy_tears_everything_down_witness :
  registered Garage.scheduled = [1; 2; 3]
  /\ systems Garage.scheduled = [2; 3; 1]
  /\ trace (World.destroy Garage.scheduled)
     = [EntityDestroy 1; EntityDestroy 2; EntityDestroy 3;
        SystemDestroy 2; SystemDestroy 3; SystemDestroy 1]
  /\ entities (World.destroy Garage.scheduled) = []
  /\ systems (World.destroy Garage.scheduled) = []
  /\ scene (World.destroy Garage.scheduled) = []
  /\ active (World.destroy Garage.scheduled) = false
  /\ initialized (World.destroy Garage.scheduled) = false.
Proof.
  split; [reflexivity|]. split; [reflexivity|].
  assert (Hnd : NoDup (JsMap.keys (entities Garage.scheduled))).
  { apply (bool_decide_unpack _). vm_compute. exact I. }
  destruct (destroy_tears_everything_down Garage.scheduled Hnd)
    as (H1 & H2 & H3 & H4 & H5 & H6 & _).
  repeat split; assumption.
Defined.

(** * The priority order of the system list *)

Section SortByKey.
Context {A : Type}.
Variable key : A -> Z.

Let cmp (a b : A) : Z := (key a - key b)%Z.
Let le (a b : A) : Prop := (key a <= key b)%Z.

Lemma insert_elem_of (x y : A) (xs : list A) :
  y ∈ JsArray.insert cmp x xs <-> y = x \/ y ∈ xs.
Proof.
  induction xs as [|z zs IH]; simpl.
  - now rewrite elem_of_cons.
  - destruct (cmp x z <=? 0)%Z.
    + now rewrite elem_of_cons.
    + rewrite !elem_of_cons, IH. tauto.
Qed.

Lemma insert_sorted (x : A) (xs : list A) :
  StronglySorted le xs -> StronglySorted le (JsArray.insert cmp x xs).
Proof.
  induction 1 as [|z zs Hzs IH Hall]; simpl.
  - repeat constructor.
  - destruct (Z.leb_spec (cmp x z) 0) as [Hle|Hgt]; unfold cmp in *.
    + constructor; [now constructor|].
      constructor; [unfold le; lia|].
      eapply Forall_impl; [exact Hall|]. unfold le. intros; lia.
    + constructor; [exact IH|].
      apply Forall_forall. intros y Hy.
      apply insert_elem_of in Hy as [->|Hy].
      * unfold le. lia.
      * rewrite Forall_forall in Hall. now apply Hall.
Qed.

Lemma sort_sorted (xs : list A) : StronglySorted le (JsArray.sort cmp xs).
Proof.
  induction xs as [|x xs IH]; simpl; [constructor|].
  now apply insert_sorted.
Qed.

Lemma sort_elem_of (y : A) (xs : list A) :
  y ∈ JsArray.sort cmp xs <-> y ∈ xs.
Proof.
  induction xs as [|x xs IH]; simpl; [reflexivity|].
  now rewrite insert_elem_of, elem_of_cons, IH.
Qed.

(** Stability: among the elements of one key, insertion puts the new one
    first and sorting changes nothing. *)
Lemma filter_insert (p : Z) (x : A) (xs : list A) :
  List.filter (fun y => (key y =? p)%Z) (JsArray.insert cmp x xs)
  = List.filter (fun y => (key y =? p)%Z) (x :: xs).
Proof.
  induction xs as [|z zs IH]; [reflexivity|].
  cbn [JsArray.insert].
  destruct (Z.leb_spec (cmp x z) 0) as [Hle|Hgt]; [reflexivity|].
  unfold cmp in Hgt. cbn [List.filter] in *. rewrite IH.
  destruct (Z.eqb_spec (key x) p) as [Hx|Hx];
    destruct (Z.eqb_spec (key z) p) as [Hz|Hz]; try reflexivity.
  lia.
Qed.

Lemma filter_sort (p : Z) (xs : list A) :
  List.filter (fun y => (key y =? p)%Z) (JsArray.sort cmp xs)
  = List.filter (fun y => (key y =? p)%Z) xs.
Proof.
  induction xs as [|x xs IH]; [reflexivity|].
  cbn [JsArray.sort fold_right]. rewrite filter_insert.
  cbn [List.filter]. fold (JsArray.sort cmp xs). now rewrite IH.
Qed.

Lemma filter_strongly_sorted (f : A -> bool) (xs : list A) :
  StronglySorted le xs -> StronglySorted le (List.filter f xs).
Proof.
  induction 1 as [|z zs Hzs IH Hall]; simpl; [constructor|].
  destruct (f z); [|exact IH].
  constructor; [exact IH|].
  rewrite Forall_forall in *. intros y Hy.
  apply list_elem_of_In, filter_In in Hy as [Hy _].
  now apply Hall, list_elem_of_In.
Qed.

Lemma prefix_strongly_sorted (xs ys : list A) :
  StronglySorted le (xs ++ ys) -> StronglySorted le xs.
Proof.
  induction xs as [|x xs IH]; simpl; [constructor|].
  intros H. apply StronglySorted_inv in H as [Hs Hall].
  constructor; [now apply IH|].
  apply Forall_app in Hall. tauto.
Qed.
End SortByKey.

Lemma remove_first_sorted (R : SystemRef -> SystemRef -> Prop) x xs :
  StronglySorted R xs -> StronglySorted R (JsArray.remove_first x xs).
Proof.
  induction 1 as [|z zs Hzs IH Hall]; simpl; [constructor|].
  destruct (Nat.eqb x z); [exact Hzs|].
  constructor; [exact IH|].
  rewrite Forall_forall in *. intros y Hy. apply Hall.
  clear -Hy. induction zs as [|w ws IHw]; simpl in *; [assumption|].
  destruct (Nat.eqb x w); [now apply list_elem_of_further|].
  apply elem_of_cons in Hy as [->|Hy]; [apply list_elem_of_here|].
  now apply list_elem_of_further, IHw.
Qed.

Lemma remove_first_absent x xs : x ∉ xs -> JsArray.remove_first x xs = xs.
Proof.
  induction xs as [|z zs IH]; simpl; [reflexivity|].
  rewrite elem_of_cons. intros Hnot.
  destruct (Nat.eqb_spec x z) as [->|Hne]; [tauto|].
  rewrite IH; tauto.
Qed.

Lemma filter_remove_first (f : SystemRef -> bool) x xs :
  List.filter f (JsArray.remove_first x xs)
  = if f x then JsArray.remove_first x (List.filter f xs)
    else List.filter f xs.
Proof.
  induction xs as [|z zs IH]; simpl; [now destruct (f x)|].
  destruct (Nat.eqb_spec x z) as [->|Hne].
  - destruct (f z) eqn:E; simpl; [now rewrite Nat.eqb_refl | reflexivity].
  - simpl. rewrite IH. destruct (f z) eqn:Ez; destruct (f x) eqn:Ex;
      simpl; try reflexivity.
    destruct (Nat.eqb_spec x z); [contradiction|reflexivity].
Qed.

Lemma sort_ext {A} (cmp cmp' : A -> A -> Z) (xs : list A) :
  (forall a b, cmp a b = cmp' a b) ->
  JsArray.sort cmp xs = JsArray.sort cmp' xs.
Proof.
  intros Hext. induction xs as [|x xs IH]; [reflexivity|].
  cbn [JsArray.sort fold_right]. fold (JsArray.sort cmp xs).
  fold (JsArray.sort cmp' xs). rewrite IH.
  generalize (JsArray.sort cmp' xs) as ys.
  induction ys as [|y ys IHy]; [reflexivity|].
  cbn [JsArray.insert]. now rewrite Hext, IHy.
Qed.

(** The bookkeeping the world does on a system never touches its
    priority. *)
Lemma alter_priority (f : System.t -> System.t) (x a : SystemRef)
    (store : SystemRef -> System.t) :
  (forall y, System.priority (f y) = System.priority y) ->
  System.priority (alter f x store a) = System.priority (store a).
Proof.
  intros Hf. destruct (decide (x = a)) as [->|Hne].
  - now rewrite fn_lookup_alter.
  - now rewrite fn_lookup_alter_ne.
Qed.

Lemma offer_priority system entity st a :
  priority_of (World.offer system entity st) a = priority_of st a.
Proof.
  unfold World.offer, priority_of.
  destruct (System.checkEntityCompatibility _ _); [|reflexivity].
  simpl. now apply alter_priority.
Qed.

Lemma addSystem_priority system st a :
  priority_of (World.addSystem system st) a = priority_of st a.
Proof.
  unfold World.addSystem.
  destruct (JsArray.includes system (systems st)); [reflexivity|].
  cbn zeta.
  set (st3 := World.sortSystems _).
  assert (H3 : priority_of st3 a = priority_of st a).
  { unfold st3, priority_of. simpl. now apply alter_priority. }
  destruct (initialized st3); [|exact H3].
  rewrite (for_each_do_preserves (fun s => priority_of s a)).
  - exact H3.
  - intros x s. apply offer_priority.
Qed.

Lemma removeSystem_priority system st a :
  priority_of (snd (World.removeSystem system st)) a = priority_of st a.
Proof.
  unfold World.removeSystem.
  destruct (JsArray.includes system (systems st)); [|reflexivity].
  unfold priority_of. simpl. now apply alter_priority.
Qed.

Lemma addSystem_systems system st :
  systems (World.addSystem system st)
  = if JsArray.includes system (systems st) then systems st
    else JsArray.sort
           (fun a b => (priority_of st a - priority_of st b)%Z)
           (systems st ++ [system]).
Proof.
  unfold World.addSystem.
  destruct (JsArray.includes system (systems st)); [reflexivity|].
  cbn zeta.
  set (st3 := World.sortSystems _).
  assert (H3 : systems st3
               = JsArray.sort
                   (fun a b => (priority_of st a - priority_of st b)%Z)
                   (systems st ++ [system])).
  { unfold st3, World.sortSystems. simpl. apply sort_ext.
    intros a b. unfold priority_of.
    now rewrite !alter_priority by reflexivity. }
  destruct (initialized st3); [|exact H3].
  rewrite (for_each_do_preserves systems); [exact H3|].
  intros x s. unfold World.offer.
  now destruct (System.checkEntityCompatibility _ _).
Qed.

Lemma removeSystem_systems system st :
  systems (snd (World.removeSystem system st))
  = JsArray.remove_first system (systems st).
Proof.
  unfold World.removeSystem, JsArray.includes.
  case_bool_decide as Hin; [reflexivity|].
  simpl. now rewrite remove_first_absent.
Qed.

Lemma elem_of_filter_key (key : SystemRef -> Z) (s : SystemRef) xs :
  s ∈ xs <-> s ∈ List.filter (fun y => (key y =? key s)%Z) xs.
Proof.
  rewrite !list_elem_of_In, filter_In, Z.eqb_refl. tauto.
Qed.

Lemma priority_ordered_ext (key key' : SystemRef -> Z) order current :
  (forall a, key a = key' a) ->
  priority_ordered key order current -> priority_ordered key' order current.
Proof.
  intros Hkey [Hsorted Hfilter]. split.
  - clear Hfilter.
    induction Hsorted as [|z zs Hzs IH Hall]; [constructor|].
    constructor; [exact IH|].
    eapply Forall_impl; [exact Hall|].
    intros b Hb. simpl in Hb. now rewrite <- !Hkey.
  - intros p.
    rewrite (filter_ext (fun y => (key' y =? p)%Z) (fun y => (key y =? p)%Z))
      by (intros; now rewrite Hkey).
    rewrite Hfilter. apply filter_ext. intros; now rewrite Hkey.
Qed.

Lemma priority_ordered_elem_of key order current s :
  priority_ordered key order current -> s ∈ current <-> s ∈ order.
Proof.
  intros [_ Hfilter].
  now rewrite (elem_of_filter_key key s current), Hfilter,
    <- elem_of_filter_key.
Qed.

Lemma run_ops_priority_ordered (ops : list SystemOp) (st : State)
    (order : list SystemRef) :
  priority_ordered (priority_of st) order (systems st) ->
  (forall a, priority_of (run_ops ops st) a = priority_of st a)
  /\ priority_ordered (priority_of st) (fold_left insertion_step ops order)
       (systems (run_ops ops st)).
Proof.
  revert st order. induction ops as [|op ops IH]; intros st order Hinv.
  - split; [reflexivity|exact Hinv].
  - cbn [run_ops fold_left]. fold (run_ops ops (apply_op st op)).
    assert (Hprio : forall a, priority_of (apply_op st op) a = priority_of st a).
    { intros a. destruct op; [apply addSystem_priority|].
      apply removeSystem_priority. }
    assert (Hstep : priority_ordered (priority_of st)
                      (insertion_step order op) (systems (apply_op st op))).
    { destruct op as [s|s]; cbn [apply_op insertion_step].
      - rewrite addSystem_systems. unfold JsArray.includes.
        rewrite (bool_decide_ext (s ∈ systems st) (s ∈ order))
          by exact (priority_ordered_elem_of _ _ _ s Hinv).
        do 2 case_bool_decide; try contradiction; [exact Hinv|].
        destruct Hinv as [_ Hfilter]. split; [apply sort_sorted|].
        intros p. rewrite filter_sort, !List.filter_app. now rewrite Hfilter.
      - rewrite removeSystem_systems. destruct Hinv as [Hsorted Hfilter].
        split; [now apply remove_first_sorted|].
        intros p. rewrite !filter_remove_first. now rewrite Hfilter. }
    assert (Hext : forall l l',
              priority_ordered (priority_of st) l l'
              <-> priority_ordered (priority_of (apply_op st op)) l l').
    { intros l l'. split; apply priority_ordered_ext; intros a;
        now rewrite Hprio. }
    destruct (IH (apply_op st op) (insertion_step order op))
      as [Hp Hi]; [now apply Hext|].
    split.
    + intros a. now rewrite Hp, Hprio.
    + now apply Hext.
Qed.

(** C4: after any sequence of [addSystem] and [removeSystem] calls on a
    world whose system list was empty, the list is sorted by ascending
    priority, and the systems of one priority stand in the order they were
    inserted; [removeSystem] takes the system out and leaves the rest in
    place; and in a frame the systems whose [update] is called are an
    initial part of the enabled systems of the list, so they are called in
    ascending priority. *)
Theorem systems_stay_in_priority_order (st0 : State) (ops : list SystemOp)
    (dt : Number) :
  systems st0 = [] ->
  let st := run_ops ops st0 in
  StronglySorted (fun a b => (priority_of st a <= priority_of st b)%Z)
    (systems st)
  /\ (forall p,
        List.filter (has_priority st p) (systems st)
        = List.filter (has_priority st p) (insertion_order ops))
  /\ (forall s,
        systems (snd (World.removeSystem s st))
        = JsArray.remove_first s (systems st))
  /\ exists evs,
       trace (state_of (World.update dt st)) = trace st ++ evs
       /\ updated_systems evs
          `prefix_of` List.filter
                        (fun s => System.enabled (system_store st s))
                        (systems st)
       /\ StronglySorted
            (fun a b => (priority_of st a <= priority_of st b)%Z)
            (updated_systems evs).
Proof.
  intros Hempty st.
  destruct (run_ops_priority_ordered ops st0 []) as [Hprio Hinv].
  { rewrite Hempty. split; [constructor|reflexivity]. }
  fold st in Hprio, Hinv. fold (insertion_order ops) in Hinv.
  apply (priority_ordered_ext _ (priority_of st)) in Hinv;
    [|intros a; now rewrite Hprio].
  destruct Hinv as [Hsorted Hfilter].
  split; [exact Hsorted|]. split; [exact Hfilter|].
  split; [intros s; apply removeSystem_systems|].
  assert (Hevs : exists evs,
             trace (state_of (World.update dt st)) = trace st ++ evs
             /\ evs `prefix_of` update_plan dt st).
  { destruct (World.suspended st) eqn:Hgate.
    - exists []. unfold World.update. rewrite Hgate. simpl.
      split; [now rewrite app_nil_r | apply prefix_nil].
    - exists (made_calls (update_calls dt st)).
      rewrite (update_run dt st Hgate), <- update_plan_calls.
      split; [|apply made_calls_prefix].
      unfold run_calls. now destruct (some_raises _). }
  destruct Hevs as (evs & Htrace & [rest Hplan]).
  assert (Hpre : updated_systems evs
                 `prefix_of` List.filter
                               (fun s => System.enabled (system_store st s))
                               (systems st)).
  { exists (updated_systems rest).
    now rewrite <- updated_systems_plan with (dt := dt), Hplan,
      updated_systems_app. }
  exists evs. split; [exact Htrace|]. split; [exact Hpre|].
  destruct Hpre as [more Hmore].
  apply (prefix_strongly_sorted (priority_of st) _ more).
  rewrite <- Hmore. now apply filter_strongly_sorted.
Qed.

Lemma systems_stay_in_priority_order_witness :
  List.map (priority_of Garage.populated) [1; 2; 3] = [30%Z; 10%Z; 20%Z]
  /\ systems Garage.registered_in_turn = [2; 3; 1]
  /\ updated_systems
       (trace
          (state_of
             (World.update Garage.tick
                Garage.registered_in_turn))) = [2; 3; 1]
  /\ StronglySorted
       (fun a b =>
          (priority_of
             Garage.registered_in_turn a
           <= priority_of
                Garage.registered_in_turn b)%Z)
       (systems
          Garage.registered_in_turn).
Proof.
  split; [reflexivity|]. split; [reflexivity|]. split; [reflexivity|].
  apply (systems_stay_in_priority_order Garage.populated
           Garage.registrations Garage.tick).
  reflexivity.
Defined.

(** * The tracked subset of a system *)

Lemma alter_compat (f : System.t -> System.t) (x a : SystemRef)
    (store : SystemRef -> System.t) :
  (forall y,
     System.checkEntityCompatibility (f y) = System.checkEntityCompatibility y) ->
  System.checkEntityCompatibility (alter f x store a)
  = System.checkEntityCompatibility (store a).
Proof.
  intros Hf. destruct (decide (x = a)) as [->|Hne].
  - now rewrite fn_lookup_alter.
  - now rewrite fn_lookup_alter_ne.
Qed.

(** What one offer changes and what it leaves alone. *)
Lemma offer_frame system entity st :
  entities (World.offer system entity st) = entities st
  /\ systems (World.offer system entity st) = systems st
  /\ scene (World.offer system entity st) = scene st
  /\ initialized (World.offer system entity st) = initialized st
  /\ entity_store (World.offer system entity st) = entity_store st
  /\ (forall s e,
        compatible s (World.offer system entity st) e = compatible s st e).
Proof.
  unfold World.offer, compatible.
  destruct (System.checkEntityCompatibility _ _); repeat split.
  intros s e. simpl. now rewrite alter_compat.
Qed.

Lemma offer_tracked system entity st s :
  tracked_by s (World.offer system entity st)
  = if decide (system = s) then
      if compatible s st entity then {[entity]} ∪ tracked_by s st
      else tracked_by s st
    else tracked_by s st.
Proof.
  unfold World.offer, compatible, tracked_by.
  destruct (decide (system = s)) as [->|Hne].
  - destruct (System.checkEntityCompatibility _ _); [|reflexivity].
    simpl. now rewrite fn_lookup_alter.
  - destruct (System.checkEntityCompatibility _ _); [|reflexivity].
    simpl. now rewrite fn_lookup_alter_ne.
Qed.

(** The loop of [addEntity] over the systems. *)
Lemma offer_to_systems entity (xs : list SystemRef) st :
  let st' := for_each_do (fun system => World.offer system entity) xs st in
  entities st' = entities st
  /\ systems st' = systems st
  /\ initialized st' = initialized st
  /\ entity_store st' = entity_store st
  /\ (forall s e, compatible s st' e = compatible s st e)
  /\ forall s,
       tracked_by s st'
       = if bool_decide (s ∈ xs) && compatible s st entity
         then {[entity]} ∪ tracked_by s st
         else tracked_by s st.
Proof.
  revert st. induction xs as [|x xs IH]; intros st.
  - repeat split.
  - cbn zeta. rewrite for_each_do_cons.
    destruct (offer_frame x entity st) as (He & Hs & _ & Hi & Hes & Hc).
    destruct (IH (World.offer x entity st)) as (He' & Hs' & Hi' & Hes' & Hc' & Ht').
    rewrite He', Hs', Hi', Hes', He, Hs, Hi, Hes.
    split; [reflexivity|]. split; [reflexivity|]. split; [reflexivity|].
    split; [reflexivity|]. split; [intros s e; now rewrite Hc', Hc|].
    intros s. rewrite Ht', Hc, offer_tracked.
    destruct (decide (x = s)) as [->|Hne].
    + rewrite (bool_decide_eq_true_2 (s ∈ s :: xs))
        by apply list_elem_of_here.
      destruct (compatible s st entity); simpl.
      * case_bool_decide; set_solver.
      * now rewrite andb_false_r.
    + rewrite (bool_decide_ext (s ∈ x :: xs) (s ∈ xs)); [reflexivity|].
      rewrite elem_of_cons. split; [|tauto].
      intros [->|?]; [contradiction|assumption].
Qed.

(** The loop of [addSystem] over the registry. *)
Lemma offer_entities system (es : list EntityRef) st :
  let st' := for_each_do (fun entity => World.offer system entity) es st in
  entities st' = entities st
  /\ systems st' = systems st
  /\ initialized st' = initialized st
  /\ entity_store st' = entity_store st
  /\ (forall s e, compatible s st' e = compatible s st e)
  /\ tracked_by system st'
     = list_to_set (List.filter (compatible system st) es)
       ∪ tracked_by system st.
Proof.
  revert st. induction es as [|x es IH]; intros st.
  - repeat split. simpl. set_solver.
  - cbn zeta. rewrite for_each_do_cons.
    destruct (offer_frame system x st) as (He & Hs & _ & Hi & Hes & Hc).
    destruct (IH (World.offer system x st))
      as (He' & Hs' & Hi' & Hes' & Hc' & Ht').
    rewrite He', Hs', Hi', Hes', He, Hs, Hi, Hes.
    split; [reflexivity|]. split; [reflexivity|]. split; [reflexivity|].
    split; [reflexivity|]. split; [intros s e; now rewrite Hc', Hc|].
    rewrite Ht', offer_tracked.
    rewrite (filter_ext (compatible system (World.offer system x st))
               (compatible system st)) by (intros; apply Hc).
    destruct (decide (system = system)) as [_|]; [|contradiction].
    cbn [List.filter]. destruct (compatible system st x); [|reflexivity].
    set_solver.
Qed.

(** [addEntity] of an entity whose name is free. *)
Lemma addEntity_fresh entity st :
  JsMap.has (name_of st entity) (entities st) = false ->
  let st' := World.addEntity entity st in
  entities st' = entities st ++ [(name_of st entity, entity)]
  /\ systems st' = systems st
  /\ initialized st' = initialized st
  /\ entity_store st' = entity_store st
  /\ (forall s e, compatible s st' e = compatible s st e)
  /\ forall s,
       tracked_by s st'
       = if bool_decide (s ∈ systems st) && compatible s st entity
         then {[entity]} ∪ tracked_by s st
         else tracked_by s st.
Proof.
  intros Hfresh. unfold World.addEntity. unfold name_of in *.
  rewrite Hfresh. cbn zeta.
  rewrite (JsMap_set_fresh _ _ _ Hfresh).
  set (st2 := set_scene _ (set_entities _ st)).
  destruct (offer_to_systems entity (systems st2) st2)
    as (He & Hs & Hi & Hes & Hc & Ht).
  set (st3 := for_each_do _ (systems st2) st2) in *.
  assert (Hall : entities st3
                 = entities st ++ [(Entity.name (entity_store st entity), entity)]
                 /\ systems st3 = systems st
                 /\ initialized st3 = initialized st
                 /\ entity_store st3 = entity_store st
                 /\ (forall s e, compatible s st3 e = compatible s st e)
                 /\ forall s,
                      tracked_by s st3
                      = if bool_decide (s ∈ systems st)
                           && compatible s st entity
                        then {[entity]} ∪ tracked_by s st
                        else tracked_by s st).
  { rewrite He, Hs, Hi, Hes. repeat split.
    - intros s e. now rewrite Hc.
    - intros s. now rewrite Ht. }
  remember (initialized st3) as late eqn:Hlate in |- *.
  destruct late; exact Hall.
Qed.

(** After one entity is registered the others are as new as before. *)
Lemma fresh_after_addEntity x (ents : list EntityRef) st :
  NoDup (List.map (name_of st) (x :: ents)) ->
  (forall e, e ∈ x :: ents ->
     JsMap.has (name_of st e) (entities st) = false) ->
  NoDup (List.map (name_of (World.addEntity x st)) ents)
  /\ forall e, e ∈ ents ->
       JsMap.has (name_of (World.addEntity x st) e)
         (entities (World.addEntity x st)) = false.
Proof.
  intros Hnd Hfresh.
  simpl in Hnd. apply NoDup_cons in Hnd as [Hx Hnd].
  destruct (addEntity_fresh x st) as (He & _ & _ & Hes & _).
  { apply Hfresh, list_elem_of_here. }
  set (st1 := World.addEntity x st) in *.
  assert (Hname : forall e, name_of st1 e = name_of st e)
    by (intros e; unfold name_of; now rewrite Hes).
  split; [now rewrite (map_ext _ _ Hname)|].
  intros e He1. rewrite Hname.
  destruct (JsMap.has (name_of st e) (entities st1)) eqn:Hhas;
    [|reflexivity].
  exfalso. apply JsMap_has_keys in Hhas.
  unfold JsMap.keys in Hhas. rewrite He, map_app in Hhas.
  apply elem_of_app in Hhas as [Hold|Hnew].
  - apply JsMap_has_keys in Hold.
    rewrite Hfresh in Hold; [discriminate|].
    now apply list_elem_of_further.
  - simpl in Hnew. apply list_elem_of_singleton in Hnew.
    apply Hx. rewrite <- Hnew.
    apply list_elem_of_In, in_map, list_elem_of_In, He1.
Qed.

Lemma addEntities_fresh (ents : list EntityRef) st :
  NoDup (List.map (name_of st) ents) ->
  (forall e, e ∈ ents -> JsMap.has (name_of st e) (entities st) = false) ->
  let st' := addEntities ents st in
  registered st' = registered st ++ ents
  /\ systems st' = systems st
  /\ initialized st' = initialized st
  /\ entity_store st' = entity_store st
  /\ (forall s e, compatible s st' e = compatible s st e)
  /\ forall s,
       tracked_by s st'
       = (if bool_decide (s ∈ systems st)
          then list_to_set (List.filter (compatible s st) ents)
          else ∅)
         ∪ tracked_by s st.
Proof.
  revert st. induction ents as [|x ents IH]; intros st Hnd Hfresh.
  - cbn. rewrite app_nil_r. repeat split.
    intros s. case_bool_decide; set_solver.
  - cbn zeta. unfold addEntities. rewrite for_each_do_cons.
    fold (addEntities ents (World.addEntity x st)).
    destruct (fresh_after_addEntity x ents st Hnd Hfresh) as [Hnd1 Hfresh1].
    destruct (addEntity_fresh x st) as (He & Hs & Hi & Hes & Hc & Ht).
    { apply Hfresh, list_elem_of_here. }
    set (st1 := World.addEntity x st) in *.
    destruct (IH st1 Hnd1 Hfresh1) as (He' & Hs' & Hi' & Hes' & Hc' & Ht').
    rewrite Hs', Hi', Hes', Hs, Hi, Hes.
    split.
    { rewrite He'. unfold registered, JsMap.values.
      rewrite He, map_app. simpl. now rewrite <- app_assoc. }
    split; [reflexivity|]. split; [reflexivity|]. split; [reflexivity|].
    split; [intros s e; now rewrite Hc', Hc|].
    intros s. rewrite Ht', Ht, Hs.
    rewrite (filter_ext (compatible s st1) (compatible s st))
      by (intros; apply Hc).
    cbn [List.filter].
    case_bool_decide; simpl; destruct (compatible s st x); set_solver.
Qed.

(** [addSystem] of a system that is not in the list, on an initialized
    world. *)
Lemma addSystem_seeds system st :
  initialized st = true ->
  system ∉ systems st ->
  let st' := World.addSystem system st in
  entities st' = entities st
  /\ system ∈ systems st'
  /\ initialized st' = true
  /\ entity_store st' = entity_store st
  /\ (forall s e, compatible s st' e = compatible s st e)
  /\ tracked_by system st'
     = list_to_set (List.filter (compatible system st) (registered st))
       ∪ tracked_by system st.
Proof.
  intros Hinit Hnew. cbn zeta.
  assert (Hin : system ∈ systems (World.addSystem system st)).
  { rewrite addSystem_systems. unfold JsArray.includes.
    rewrite bool_decide_eq_false_2 by assumption.
    apply sort_elem_of, elem_of_app. right. apply list_elem_of_here. }
  revert Hin. unfold World.addSystem, JsArray.includes.
  rewrite bool_decide_eq_false_2 by assumption. cbn zeta.
  set (st3 := World.sortSystems _).
  assert (H3 : initialized st3 = true) by exact Hinit.
  rewrite H3.
  set (st4 := BaseSystem.initialize system st3).
  assert (Hc4 : forall s e, compatible s st4 e = compatible s st e).
  { intros s e. unfold compatible. simpl. now rewrite alter_compat. }
  assert (Ht4 : tracked_by system st4 = tracked_by system st).
  { unfold tracked_by. simpl. now rewrite fn_lookup_alter. }
  destruct (offer_entities system (JsMap.values (entities st4)) st4)
    as (He & Hs & Hi & Hes & Hc & Ht).
  intros Hin. rewrite He, Hi, Hes. repeat split; try assumption.
  - intros s e. now rewrite Hc, Hc4.
  - rewrite Ht, Ht4.
    rewrite (filter_ext (compatible system st4) (compatible system st))
      by (intros; apply Hc4).
    reflexivity.
Qed.

(** ** The calls of [addEntity] the world makes on a system

    The same facts read off the trace, where they do not depend on what a
    system does with the call. *)

Lemma offer_accepted system entity st s e :
  accepted s e (World.offer system entity st)
  <-> accepted s e st
      \/ (system = s /\ entity = e /\ compatible s st e = true).
Proof.
  unfold World.offer, accepted, compatible.
  destruct (System.checkEntityCompatibility _ _) eqn:Hc.
  - simpl. rewrite elem_of_app, list_elem_of_singleton. split.
    + intros [H|H]; [now left|]. injection H as <- <-. right. auto.
    + intros [H|(<- & <- & _)]; [now left|now right].
  - split; [now left|].
    intros [H|(<- & <- & H)]; [assumption|]. congruence.
Qed.

Lemma offer_to_systems_accepted entity (xs : list SystemRef) st s e :
  accepted s e (for_each_do (fun system => World.offer system entity) xs st)
  <-> accepted s e st
      \/ (s ∈ xs /\ entity = e /\ compatible s st e = true).
Proof.
  revert st. induction xs as [|x xs IH]; intros st.
  - simpl. rewrite elem_of_nil. tauto.
  - rewrite for_each_do_cons, IH, offer_accepted.
    destruct (offer_frame x entity st) as (_ & _ & _ & _ & _ & Hc).
    rewrite Hc, elem_of_cons. split.
    + intros [[H|(-> & H)]|(H1 & H)]; auto.
    + intros [H|([->|H1] & H)]; auto.
Qed.

Lemma offer_entities_accepted system (es : list EntityRef) st s e :
  accepted s e (for_each_do (fun entity => World.offer system entity) es st)
  <-> accepted s e st
      \/ (system = s /\ e ∈ es /\ compatible s st e = true).
Proof.
  revert st. induction es as [|x es IH]; intros st.
  - simpl. rewrite elem_of_nil. tauto.
  - rewrite for_each_do_cons, IH, offer_accepted.
    destruct (offer_frame system x st) as (_ & _ & _ & _ & _ & Hc).
    rewrite Hc, elem_of_cons. split.
    + intros [[H|(-> & -> & H)]|(-> & H1 & H)]; auto.
    + intros [H|(-> & [->|H1] & H)]; auto.
Qed.

Lemma addEntity_fresh_accepted entity st s e :
  JsMap.has (name_of st entity) (entities st) = false ->
  accepted s e (World.addEntity entity st)
  <-> accepted s e st
      \/ (s ∈ systems st /\ entity = e /\ compatible s st e = true).
Proof.
  intros Hfresh. unfold World.addEntity. unfold name_of in Hfresh.
  rewrite Hfresh. cbn zeta.
  set (st2 := set_scene _ _).
  pose proof (offer_to_systems_accepted entity (systems st2) st2 s e) as Hloop.
  change (accepted s e st2) with (accepted s e st) in Hloop.
  change (compatible s st2 e) with (compatible s st e) in Hloop.
  change (systems st2) with (systems st) in Hloop at 2.
  rewrite <- Hloop.
  destruct (initialized _); [|reflexivity].
  unfold accepted, BaseEntity.initialize, log. simpl.
  rewrite elem_of_app, list_elem_of_singleton. split; [|now left].
  intros [H|H]; [assumption|discriminate].
Qed.

Lemma addEntities_fresh_accepted (ents : list EntityRef) st s e :
  NoDup (List.map (name_of st) ents) ->
  (forall x, x ∈ ents -> JsMap.has (name_of st x) (entities st) = false) ->
  accepted s e (addEntities ents st)
  <-> accepted s e st
      \/ (s ∈ systems st /\ e ∈ ents /\ compatible s st e = true).
Proof.
  revert st. induction ents as [|x ents IH]; intros st Hnd Hfresh.
  - simpl. rewrite elem_of_nil. tauto.
  - unfold addEntities. rewrite for_each_do_cons.
    fold (addEntities ents (World.addEntity x st)).
    destruct (fresh_after_addEntity x ents st Hnd Hfresh) as [Hnd1 Hfresh1].
    destruct (addEntity_fresh x st) as (_ & Hs & _ & _ & Hc & _).
    { apply Hfresh, list_elem_of_here. }
    rewrite (IH _ Hnd1 Hfresh1), Hs, Hc, addEntity_fresh_accepted
      by apply Hfresh, list_elem_of_here.
    rewrite elem_of_cons. split.
    + intros [[H|(H1 & -> & H)]|(H1 & H2 & H)]; auto.
    + intros [H|(H1 & [->|H2] & H)]; auto.
Qed.

Lemma addSystem_seeds_accepted system st e :
  initialized st = true ->
  system ∉ systems st ->
  accepted system e (World.addSystem system st)
  <-> accepted system e st
      \/ (e ∈ registered st /\ compatible system st e = true).
Proof.
  intros Hinit Hnew. unfold World.addSystem, JsArray.includes.
  rewrite bool_decide_eq_false_2 by assumption. cbn zeta.
  set (st3 := World.sortSystems _).
  assert (H3 : initialized st3 = true) by exact Hinit.
  rewrite H3.
  set (st4 := BaseSystem.initialize system st3).
  rewrite offer_entities_accepted.
  assert (Hc4 : compatible system st4 e = compatible system st e).
  { unfold compatible. simpl. now rewrite alter_compat. }
  assert (Ha4 : accepted system e st4 <-> accepted system e st).
  { unfold accepted, st4, BaseSystem.initialize, log. simpl.
    rewrite elem_of_app, list_elem_of_singleton. split; [|now left].
    intros [H|H]; [assumption|discriminate]. }
  rewrite Hc4, Ha4. change (JsMap.values (entities st4)) with (registered st).
  tauto.
Qed.

(** C2, on a world that was never initialized: registering the system
    after the entities leaves it tracking nothing, while registering the
    entities after the system makes it track them. *)
Lemma seeding_depends_on_order_before_initialize :
  ~ seeding_is_order_independent Garage.empty 2 [1; 3].
Proof.
  intros [Heq _].
  apply (f_equal (fun tracked => bool_decide (1 ∈ tracked))) in Heq.
  vm_compute in Heq. discriminate Heq.
Qed.

(** C2, amended: on an initialized world, for a system that is not yet
    registered and tracks nothing, and entities whose names are pairwise
    distinct and free in the registry, the system ends up tracking the same
    entities whether it is registered after the entities or before them:
    exactly the compatible ones among the registered entities, old and
    new.  The calls of [addEntity] the world makes on the system say the
    same: in either order it is called for exactly those entities. *)
Theorem seeding_is_order_independent_when_initialized (st : State)
    (system : SystemRef) (ents : list EntityRef) :
  initialized st = true ->
  system ∉ systems st ->
  tracked_by system st = ∅ ->
  NoDup (List.map (name_of st) ents) ->
  (forall e, e ∈ ents -> JsMap.has (name_of st e) (entities st) = false) ->
  tracked_by system (World.addSystem system (addEntities ents st))
  = tracked_by system (addEntities ents (World.addSystem system st))
  /\ tracked_by system (World.addSystem system (addEntities ents st))
     = list_to_set
         (List.filter (compatible system st) (registered st ++ ents))
  /\ forall e,
       (accepted system e (World.addSystem system (addEntities ents st))
        <-> accepted system e st
            \/ (e ∈ registered st ++ ents /\ compatible system st e = true))
       /\ (accepted system e (addEntities ents (World.addSystem system st))
           <-> accepted system e st
               \/ (e ∈ registered st ++ ents
                   /\ compatible system st e = true)).
Proof.
  intros Hinit Hnew Hnone Hnd Hfresh.
  (* the entities first, then the system *)
  destruct (addEntities_fresh ents st Hnd Hfresh)
    as (Hr1 & Hs1 & Hi1 & Hes1 & Hc1 & Ht1).
  pose proof (fun e => addEntities_fresh_accepted ents st system e Hnd Hfresh)
    as Ha1.
  set (st1 := addEntities ents st) in *.
  assert (Hinit1 : initialized st1 = true) by now rewrite Hi1.
  assert (Hnew1 : system ∉ systems st1) by now rewrite Hs1.
  destruct (addSystem_seeds system st1 Hinit1 Hnew1)
    as (_ & _ & _ & _ & _ & HtA).
  pose proof (fun e => addSystem_seeds_accepted system st1 e Hinit1 Hnew1)
    as HaA.
  rewrite (filter_ext (compatible system st1) (compatible system st)) in HtA
    by (intros; apply Hc1).
  rewrite Hr1, Ht1, Hnone in HtA.
  rewrite (bool_decide_eq_false_2 (system ∈ systems st)) in HtA
    by assumption.
  (* the system first, then the entities *)
  destruct (addSystem_seeds system st Hinit Hnew)
    as (He2 & Hin2 & Hi2 & Hes2 & Hc2 & Ht2).
  pose proof (fun e => addSystem_seeds_accepted system st e Hinit Hnew)
    as Ha2.
  set (st2 := World.addSystem system st) in *.
  assert (Hname : forall e, name_of st2 e = name_of st e)
    by (intros e; unfold name_of; now rewrite Hes2).
  assert (Hnd2 : NoDup (List.map (name_of st2) ents))
    by now rewrite (map_ext _ _ Hname).
  assert (Hfresh2 : forall e, e ∈ ents ->
            JsMap.has (name_of st2 e) (entities st2) = false).
  { intros e He. rewrite Hname, He2. now apply Hfresh. }
  destruct (addEntities_fresh ents st2 Hnd2 Hfresh2)
    as (_ & _ & _ & _ & _ & HtB).
  pose proof (fun e => addEntities_fresh_accepted ents st2 system e Hnd2
                         Hfresh2) as HaB.
  specialize (HtB system).
  rewrite (bool_decide_eq_true_2 (system ∈ systems st2)) in HtB
    by assumption.
  rewrite (filter_ext (compatible system st2) (compatible system st)) in HtB
    by (intros; apply Hc2).
  rewrite Ht2, Hnone in HtB.
  rewrite HtA, HtB, List.filter_app, list_to_set_app_L.
  split; [set_solver|]. split; [set_solver|].
  intros e. rewrite HaA, Ha1, Hr1, Hc1, HaB, Ha2, Hc2, elem_of_app.
  split; tauto.
Qed.

Lemma seeding_is_order_independent_when_initialized_witness :
  tracked_by 1
    (World.addSystem 1 (addEntities [1; 2; 3] (World.initialize Garage.empty)))
  = tracked_by 1
      (addEntities [1; 2; 3] (World.addSystem 1 (World.initialize Garage.empty)))
  /\ tracked_by 1
       (World.addSystem 1
          (addEntities [1; 2; 3] (World.initialize Garage.empty)))
     = {[1; 3]}.
Proof.
  destruct (seeding_is_order_independent_when_initialized
              (World.initialize Garage.empty) 1 [1; 2; 3])
    as (Hsame & Hset & _).
  - reflexivity.
  - apply not_elem_of_nil.
  - reflexivity.
  - apply (bool_decide_unpack _). vm_compute. exact I.
  - intros e He.
    repeat (apply elem_of_cons in He as [->|He]; [reflexivity|]).
    now apply elem_of_nil in He.
  - split; [exact Hsame|]. rewrite Hset. reflexivity.
Defined.

(** * Snapshot and restore *)

(** Enumeration order of a plain object: a new key that is not an array
    index goes last, a new array index goes into the ascending run of
    array indices at the front. *)
Lemma JsObject_insert_named {V} (k : string) (v : V) (o : JsObject.t V) :
  JsObject.array_index k = None ->
  JsObject.insert k v o = o ++ [(k, v)].
Proof.
  intros Hk. induction o as [|[k' v'] o IH]; cbn; [reflexivity|].
  rewrite Hk. now rewrite IH.
Qed.

Lemma JsObject_insert_front {V} (k : string) (v : V) (n : N)
    (front back : JsObject.t V) :
  JsObject.array_index k = Some n ->
  List.Forall (fun kv => is_index kv = false) back ->
  JsObject.insert k v (front ++ back) = JsObject.insert k v front ++ back.
Proof.
  intros Hk Hback. induction front as [|[k' v'] front IH].
  - destruct back as [|[k' v'] back]; [reflexivity|].
    cbn. rewrite Hk. apply List.Forall_inv in Hback.
    unfold is_index in Hback. cbn in Hback.
    now destruct (JsObject.array_index k').
  - cbn. rewrite Hk.
    destruct (JsObject.array_index k') as [n'|]; [|reflexivity].
    destruct (n <? n')%N; [reflexivity|]. now rewrite IH.
Qed.

Lemma JsObject_insert_permutation {V} (k : string) (v : V)
    (o : JsObject.t V) :
  Permutation (JsObject.insert k v o) ((k, v) :: o).
Proof.
  induction o as [|[k' v'] o IH]; cbn; [reflexivity|].
  destruct (JsObject.array_index k) as [n|].
  - destruct (JsObject.array_index k') as [n'|]; [|reflexivity].
    destruct (n <? n')%N; [reflexivity|].
    rewrite IH. apply perm_swap.
  - rewrite IH. apply perm_swap.
Qed.

Lemma JsObject_insert_sorted {V} (k : string) (v : V) (n : N)
    (front : JsObject.t V) :
  JsObject.array_index k = Some n ->
  List.Forall (fun kv => is_index kv = true) front ->
  StronglySorted index_le front ->
  List.Forall (fun kv => is_index kv = true) (JsObject.insert k v front)
  /\ StronglySorted index_le (JsObject.insert k v front).
Proof.
  intros Hk Hidx Hsorted.
  assert (Hkv : is_index (k, v) = true)
    by (unfold is_index; cbn; now rewrite Hk).
  split.
  - eapply Permutation_Forall;
      [symmetry; apply JsObject_insert_permutation|].
    now constructor.
  - induction front as [|[k' v'] front IH]; cbn.
    + repeat constructor.
    + rewrite Hk.
      apply List.Forall_cons_iff in Hidx as [Hk' Hidx].
      apply StronglySorted_inv in Hsorted as [Hsorted Hall].
      unfold is_index in Hk'. cbn in Hk'.
      destruct (JsObject.array_index k') as [n'|] eqn:Ek'; [|discriminate].
      destruct (n <? n')%N eqn:Elt.
      * apply N.ltb_lt in Elt.
        constructor; [constructor; assumption|].
        assert (Hle : index_le (k, v) (k', v')).
        { unfold index_le, index_of. cbn. rewrite Hk, Ek'. cbn. lia. }
        constructor; [exact Hle|].
        eapply List.Forall_impl; [|exact Hall].
        intros x Hx. unfold index_le in *. lia.
      * apply N.ltb_ge in Elt.
        constructor; [now apply IH|].
        eapply Permutation_Forall;
          [symmetry; apply JsObject_insert_permutation|].
        constructor; [|exact Hall].
        unfold index_le, index_of. cbn. rewrite Hk, Ek'. cbn. lia.
Qed.

(** The entries of a snapshot, in the order the object enumerates them:
    the root entities whose name is an array index, in ascending order,
    then the other root entities in registry order. *)
Lemma toJSON_entries (st : State) :
  NoDup (JsMap.keys (entities st)) ->
  exists front,
    WorldJSON.entities (World.toJSON st)
    = Some (front ++ List.filter named (root_entries st))
    /\ List.Forall (fun kv => is_index kv = true) front
    /\ StronglySorted index_le front
    /\ Permutation front (List.filter is_index (root_entries st)).
Proof.
  intros Hnd. apply NoDup_ListNoDup in Hnd.
  unfold World.toJSON, root_entries.
  cbn [WorldJSON.entities].
  set (step := fun acc kv => _).
  set (entry := fun kv : string * EntityRef =>
                  (fst kv, BaseEntity.toJSON (snd kv) st)).
  assert (Hgen : forall m front back,
            List.NoDup (JsObject.keys (front ++ back) ++ JsMap.keys m) ->
            List.Forall (fun kv => is_index kv = true) front ->
            StronglySorted index_le front ->
            List.Forall (fun kv => is_index kv = false) back ->
            exists front',
              fold_left step m (front ++ back)
              = front' ++ back
                ++ List.filter named
                     (List.map entry
                        (List.filter
                           (fun kv => is_root st kv && is_property kv) m))
              /\ List.Forall (fun kv => is_index kv = true) front'
              /\ StronglySorted index_le front'
              /\ Permutation front'
                   (front
                    ++ List.filter is_index
                         (List.map entry
                            (List.filter
                               (fun kv => is_root st kv && is_property kv)
                               m)))).
  { induction m as [|[k r] m IH]; intros front back Hacc Hidx Hsorted Hback.
    - exists front. cbn. rewrite !app_nil_r. repeat split; try assumption.
      reflexivity.
    - cbn [fold_left List.filter]. unfold step at 2.
      change (is_root st (k, r))
        with (match Entity.parent (entity_store st r) with
              | None => true
              | Some _ => false
              end).
      change (is_property (k, r)) with (negb (String.eqb k "__proto__")).
      unfold JsObject.set.
      cbn [fst snd]. cbn [JsMap.keys List.map fst] in Hacc.
      destruct (Entity.parent (entity_store st r)); cbn [andb];
        [|destruct (String.eqb k "__proto__"); cbn [negb]].
      + apply IH; try assumption.
        eapply List.NoDup_remove_1. exact Hacc.
      + apply IH; try assumption.
        eapply List.NoDup_remove_1. exact Hacc.
      + assert (Hfresh : JsObject.has k (front ++ back) = false).
        { unfold JsObject.has.
          destruct (JsMap.has k (front ++ back)) eqn:E; [|reflexivity].
          apply JsMap_has_keys in E. apply list_elem_of_In in E.
          apply List.NoDup_remove_2 in Hacc.
          exfalso. apply Hacc. apply in_or_app. now left. }
        rewrite Hfresh.
        set (v := BaseEntity.toJSON r st).
        cbn [List.map]. unfold entry at 1 3. cbn [fst snd]. fold v.
        cbn [List.filter]. unfold named at 1, is_index at 1 3. cbn [fst].
        destruct (JsObject.array_index k) as [n|] eqn:Ek; cbn [negb].
        * rewrite (JsObject_insert_front k v n front back Ek Hback).
          destruct (JsObject_insert_sorted k v n front Ek Hidx Hsorted)
            as [Hidx' Hsorted'].
          destruct (IH (JsObject.insert k v front) back)
            as (front' & Hfold & Hi & Hs & Hp); try assumption.
          { eapply Permutation_NoDup; [|exact Hacc].
            unfold JsObject.keys, JsMap.keys. rewrite !map_app.
            rewrite (Permutation_map fst
                       (JsObject_insert_permutation k v front)).
            cbn [List.map fst app]. symmetry. apply Permutation_middle. }
          exists front'. repeat split; try assumption.
          rewrite Hp, (JsObject_insert_permutation k v front).
          cbn [app]. apply Permutation_middle.
        * rewrite (JsObject_insert_named k v (front ++ back) Ek).
          rewrite <- app_assoc.
          destruct (IH front (back ++ [(k, v)]))
            as (front' & Hfold & Hi & Hs & Hp); try assumption.
          { eapply Permutation_NoDup; [|exact Hacc].
            unfold JsObject.keys, JsMap.keys. rewrite !map_app.
            cbn [List.map fst]. rewrite <- !app_assoc. cbn [app].
            reflexivity. }
          { apply List.Forall_app. split; [exact Hback|].
            constructor; [|constructor].
            unfold is_index. cbn. now rewrite Ek. }
          exists front'. repeat split; try assumption.
          rewrite Hfold. rewrite <- !app_assoc. reflexivity. }
  destruct (Hgen (entities st) [] [])
    as (front & Hfold & Hi & Hs & Hp); try constructor.
  { cbn. exact Hnd. }
  exists front. cbn in Hfold, Hp. rewrite Hfold.
  repeat split; assumption.
Qed.

(** The top-level keys of a snapshot are the names of the root entities,
    in a world where no entity is called [__proto__]. *)
Lemma toJSON_lists_the_roots (st : State) :
  NoDup (JsMap.keys (entities st)) ->
  "__proto__" ∉ JsMap.keys (entities st) ->
  exists ents,
    WorldJSON.entities (World.toJSON st) = Some ents
    /\ Permutation (JsObject.keys ents) (roots st).
Proof.
  intros Hnd Hproto.
  destruct (toJSON_entries st Hnd) as (front & Hents & _ & _ & Hp).
  eexists. split; [exact Hents|].
  unfold JsObject.keys. rewrite map_app, (Permutation_map fst Hp).
  rewrite <- map_app.
  assert (Hsplit : forall (l : list (string * EntityJSON.t)),
            Permutation (List.filter is_index l ++ List.filter named l) l).
  { induction l as [|x l IH]; [reflexivity|].
    cbn [List.filter]. unfold named at 1.
    destruct (is_index x); cbn [negb app].
    - now apply perm_skip.
    - rewrite <- Permutation_middle. now apply perm_skip. }
  rewrite (Permutation_map fst (Hsplit (root_entries st))).
  unfold root_entries, roots, JsMap.keys. rewrite List.map_map.
  cbn [fst].
  assert (Hsame : List.filter (fun kv => is_root st kv && is_property kv)
                    (entities st)
                  = List.filter (is_root st) (entities st)).
  { apply filter_ext_in. intros kv Hin.
    assert (Hprop : is_property kv = true).
    { unfold is_property. apply negb_true_iff, String.eqb_neq.
      intros Heq. apply Hproto. apply list_elem_of_In.
      unfold JsMap.keys. rewrite <- Heq. now apply in_map. }
    rewrite Hprop. apply andb_true_r. }
  rewrite Hsame. reflexivity.
Qed.

(** C1, at a world with a car, its wheel and a cone: the snapshot lists
    the two roots, and restoring it on a fresh world brings back the roots
    and their flags but neither the wheel nor the edge from the car to it:
    the restored tree is not isomorphic to the one that was saved. *)
Theorem snapshot_restore_drops_children :
  roots Garage.populated = ["car"; "cone"]
  /\ edges Garage.populated = [("car", "wheel")]
  /\ active_flags Garage.populated
     = [("car", true); ("wheel", false); ("cone", true)]
  /\ option_map JsMap.keys (WorldJSON.entities (World.toJSON Garage.populated))
     = Some ["car"; "cone"]
  /\ roots (World.fromJSON (World.toJSON Garage.populated) Garage.empty)
     = ["car"; "cone"]
  /\ JsMap.keys
       (entities (World.fromJSON (World.toJSON Garage.populated) Garage.empty))
     = ["car"; "cone"]
  /\ edges (World.fromJSON (World.toJSON Garage.populated) Garage.empty) = []
  /\ active_flags
       (World.fromJSON (World.toJSON Garage.populated) Garage.empty)
     = [("car", true); ("cone", true)].
Proof. vm_compute. repeat split. Qed.

(** ** Why a restored world has lost the children *)

Lemma addEntity_registry_grows_by_one entity st :
  length (entities (World.addEntity entity st)) <= S (length (entities st)).
Proof.
  destruct (JsMap.has (name_of st entity) (entities st)) eqn:Hhas.
  - rewrite (addEntity_taken entity st Hhas). lia.
  - destruct (addEntity_fresh entity st Hhas) as [-> _].
    rewrite length_app. simpl. lia.
Qed.

Lemma create_pass_registry (ents : JsObject.t EntityJSON.t) st :
  length (entities (snd (World.create_pass ents st)))
  <= length (entities st) + length ents.
Proof.
  unfold World.create_pass.
  generalize (@nil (string * EntityRef)) as acc.
  revert st. induction ents as [|kv ents IH]; intros st acc.
  - simpl. lia.
  - cbn [fold_left]. cbn [snd fst].
    destruct (World.createEntity (EntityJSON.name (snd kv)) st)
      as [entity st1] eqn:Hcreate.
    etransitivity; [apply IH|].
    assert (Hone : length (entities st1) <= S (length (entities st))).
    { unfold World.createEntity in Hcreate. injection Hcreate as _ <-.
      etransitivity; [apply addEntity_registry_grows_by_one|].
      reflexivity. }
    simpl. lia.
Qed.

Lemma data_pass_registry entityMap (ents : JsObject.t EntityJSON.t) st :
  entities (World.data_pass entityMap ents st) = entities st.
Proof.
  unfold World.data_pass. apply for_each_do_preserves.
  intros kv s. destruct (JsMap.get (fst kv) entityMap); [|reflexivity].
  unfold BaseEntity.fromJSON. now destruct (EntityJSON.active (snd kv)).
Qed.

Lemma link_pass_registry entityMap (ents : JsObject.t EntityJSON.t) st :
  entities (World.link_pass entityMap ents st) = entities st.
Proof.
  unfold World.link_pass. apply for_each_do_preserves.
  intros kv s. destruct (JsMap.get (fst kv) entityMap); [|reflexivity].
  destruct (EntityJSON.children (snd kv)); [|reflexivity].
  apply for_each_do_preserves.
  intros childId s'. now destruct (JsMap.get childId entityMap).
Qed.

(** [fromJSON] on a world with an empty registry registers at most one
    entity for each top-level key of the snapshot. *)
Lemma fromJSON_one_entity_per_key (data : WorldJSON.t) st
    (ents : JsObject.t EntityJSON.t) :
  entities st = [] ->
  WorldJSON.entities data = Some ents ->
  length (entities (World.fromJSON data st)) <= length ents.
Proof.
  intros Hempty Hents. unfold World.fromJSON. rewrite Hents.
  set (st1 := match WorldJSON.active data with
              | Some b => set_active b st
              | None => st
              end).
  assert (H1 : entities st1 = []).
  { unfold st1. now destruct (WorldJSON.active data). }
  rewrite H1. cbn [JsMap.values List.map].
  rewrite for_each_do_nil.
  pose proof (create_pass_registry ents st1) as Hlen.
  destruct (World.create_pass ents st1) as [entityMap st3].
  rewrite link_pass_registry, data_pass_registry.
  simpl in Hlen. rewrite H1 in Hlen. simpl in Hlen. exact Hlen.
Qed.

(** A world with a registered child, and no entity called [__proto__],
    comes back from its own snapshot with fewer registered entities,
    whatever fresh world it is restored on. *)
Lemma restore_loses_entities (st fresh : State) (id : EntityId)
    (child parent : EntityRef) :
  NoDup (JsMap.keys (entities st)) ->
  "__proto__" ∉ JsMap.keys (entities st) ->
  (id, child) ∈ entities st ->
  Entity.parent (entity_store st child) = Some parent ->
  entities fresh = [] ->
  length (entities (World.fromJSON (World.toJSON st) fresh))
  < length (entities st).
Proof.
  intros Hnd Hproto Hin Hparent Hfresh.
  destruct (toJSON_lists_the_roots st Hnd Hproto) as (ents & Hents & Hkeys).
  eapply Nat.le_lt_trans;
    [apply (fromJSON_one_entity_per_key _ _ ents Hfresh Hents)|].
  assert (Hlen : length ents = length (roots st)).
  { transitivity (length (JsObject.keys ents));
      [unfold JsObject.keys; now rewrite length_map
      |now apply Permutation_length]. }
  rewrite Hlen. unfold roots, JsMap.keys. rewrite length_map.
  clear -Hin Hparent. induction (entities st) as [|kv m IH].
  - now apply elem_of_nil in Hin.
  - cbn [List.filter]. apply elem_of_cons in Hin as [<-|Hin].
    + cbn [snd]. rewrite Hparent. simpl.
      pose proof (filter_length_le
                    (fun kv =>
                       match Entity.parent (entity_store st (snd kv)) with
                       | Some _ => false
                       | None => true
                       end) m).
      lia.
    + specialize (IH Hin).
      destruct (Entity.parent (entity_store st (snd kv))); simpl; lia.
Qed.

(** * The registry keeps its keys unique

    The uniqueness of keys assumed of a registry above is an invariant of a
    JavaScript [Map]; the operations of the world that write the registry
    keep it. *)

Lemma new_world_keys_unique scn eo so n :
  NoDup (JsMap.keys (entities (World.new scn eo so n))).
Proof. apply NoDup_nil_2. Qed.

Lemma addEntity_keeps_keys_unique entity st :
  NoDup (JsMap.keys (entities st)) ->
  NoDup (JsMap.keys (entities (World.addEntity entity st))).
Proof.
  intros Hnd.
  destruct (JsMap.has (name_of st entity) (entities st)) eqn:Hhas.
  - now rewrite (addEntity_taken entity st Hhas).
  - destruct (addEntity_fresh entity st Hhas) as [-> _].
    unfold JsMap.keys. rewrite map_app. simpl.
    apply NoDup_app. repeat split; [assumption| |apply NoDup_singleton].
    intros k Hk Hk'. apply list_elem_of_singleton in Hk'. subst k.
    apply JsMap_has_keys in Hk. rewrite Hhas in Hk. discriminate.
Qed.

Lemma delete_keeps_keys_unique {V} (k : string) (m : JsMap.t V) :
  NoDup (JsMap.keys m) -> NoDup (JsMap.keys (JsMap.delete k m)).
Proof.
  induction m as [|[k' v] m IH]; simpl; [trivial|].
  intros Hnd. apply NoDup_cons in Hnd as [Hk' Hnd].
  destruct (String.eqb k k'); simpl; [now apply IH|].
  apply NoDup_cons. split; [|now apply IH].
  intros Hin. apply Hk'. clear -Hin.
  induction m as [|[k0 v0] m IHm]; simpl in *; [assumption|].
  destruct (String.eqb k k0); simpl in Hin.
  - now apply list_elem_of_further, IHm.
  - apply elem_of_cons in Hin as [->|Hin]; [apply list_elem_of_here|].
    now apply list_elem_of_further, IHm.
Qed.

Lemma removeEntity_keeps_keys_unique entityOrId st :
  NoDup (JsMap.keys (entities st)) ->
  NoDup (JsMap.keys (entities (snd (World.removeEntity entityOrId st)))).
Proof.
  intros Hnd. unfold World.removeEntity.
  destruct (JsMap.get _ (entities st)); [|exact Hnd].
  cbn [snd entities set_entities].
  rewrite (for_each_do_preserves entities) by reflexivity.
  now apply delete_keeps_keys_unique.
Qed.

(** * Further properties of the world *)

(** ** Initialization *)

Lemma initialize_trace (st : State) :
  initialized st = false ->
  trace (World.initialize st)
  = trace st ++ List.map SystemInitialize (systems st)
    ++ List.map EntityInitialize (registered st).
Proof.
  intros Hnot. unfold World.initialize. rewrite Hnot. cbn zeta.
  cbn [trace publish set_bus set_initialized].
  rewrite (for_each_do_trace EntityInitialize) by reflexivity.
  rewrite (for_each_do_preserves entities) by reflexivity.
  rewrite (for_each_do_trace SystemInitialize) by reflexivity.
  now rewrite <- app_assoc.
Qed.

Lemma initialize_frame (st : State) :
  entities (World.initialize st) = entities st
  /\ systems (World.initialize st) = systems st
  /\ scene (World.initialize st) = scene st
  /\ entity_store (World.initialize st) = entity_store st
  /\ system_store (World.initialize st) = system_store st
  /\ initialized (World.initialize st) = true.
Proof.
  unfold World.initialize. destruct (initialized st) eqn:Hinit;
    [repeat split; exact Hinit|].
  cbn zeta. cbn [entities systems scene entity_store system_store initialized
                 publish set_bus set_initialized].
  rewrite !(for_each_do_preserves entities), !(for_each_do_preserves systems),
    !(for_each_do_preserves scene), !(for_each_do_preserves entity_store),
    !(for_each_do_preserves system_store) by reflexivity.
  repeat split.
Qed.

(** X1: [initialize] on a world that is not initialized calls [initialize]
    on every system in list order and then on every entity in registry
    order, sets the flag, subscribes [update] to the tick and announces the
    world; it changes nothing else, and a second call does nothing. *)
Theorem initialize_runs_once (st : State) :
  initialized st = false ->
  trace (World.initialize st)
  = trace st ++ List.map SystemInitialize (systems st)
    ++ List.map EntityInitialize (registered st)
  /\ bus (World.initialize st)
     = bus st ++ [BusOn EVENT_UPDATE; BusEmit EVENT_WORLD_INIT]
  /\ initialized (World.initialize st) = true
  /\ entities (World.initialize st) = entities st
  /\ systems (World.initialize st) = systems st
  /\ scene (World.initialize st) = scene st
  /\ World.initialize (World.initialize st) = World.initialize st.
Proof.
  intros Hnot.
  destruct (initialize_frame st) as (He & Hs & Hsc & _ & _ & Hi).
  split; [now apply initialize_trace|].
  split.
  { unfold World.initialize. rewrite Hnot. cbn zeta.
    cbn [bus publish set_bus set_initialized].
    rewrite !(for_each_do_preserves bus) by reflexivity.
    now rewrite <- app_assoc. }
  split; [exact Hi|]. split; [exact He|]. split; [exact Hs|].
  split; [exact Hsc|].
  unfold World.initialize at 1. now rewrite Hi.
Qed.

Lemma initialize_runs_once_witness :
  trace (World.initialize Garage.scheduled)
  = [SystemInitialize 2; SystemInitialize 3; SystemInitialize 1;
     EntityInitialize 1; EntityInitialize 2; EntityInitialize 3]
  /\ World.initialize (World.initialize Garage.scheduled)
     = World.initialize Garage.scheduled.
Proof.
  destruct (initialize_runs_once Garage.scheduled eq_refl)
    as (Ht & _ & _ & _ & _ & _ & Hagain).
  split; [exact Ht | exact Hagain].
Defined.

(** ** The calls a registration makes, in order *)

Lemma offer_trace system entity st :
  trace (World.offer system entity st)
  = trace st
    ++ (if compatible system st entity
        then [SystemAddEntity system entity] else []).
Proof.
  unfold World.offer, compatible.
  destruct (System.checkEntityCompatibility _ _); simpl;
    [reflexivity | now rewrite app_nil_r].
Qed.

Lemma offer_to_systems_trace entity (xs : list SystemRef) st :
  trace (for_each_do (fun system => World.offer system entity) xs st)
  = trace st
    ++ List.map (fun s => SystemAddEntity s entity)
         (List.filter (fun s => compatible s st entity) xs).
Proof.
  revert st. induction xs as [|x xs IH]; intros st.
  - simpl. now rewrite app_nil_r.
  - rewrite for_each_do_cons, IH, offer_trace.
    destruct (offer_frame x entity st) as (_ & _ & _ & _ & _ & Hc).
    rewrite (filter_ext (fun s => compatible s (World.offer x entity st) entity)
               (fun s => compatible s st entity)) by (intros; apply Hc).
    cbn [List.filter]. destruct (compatible x st entity); simpl.
    + now rewrite <- app_assoc.
    + now rewrite app_nil_r.
Qed.

Lemma offer_entities_trace system (es : list EntityRef) st :
  trace (for_each_do (fun entity => World.offer system entity) es st)
  = trace st
    ++ List.map (SystemAddEntity system)
         (List.filter (compatible system st) es).
Proof.
  revert st. induction es as [|x es IH]; intros st.
  - simpl. now rewrite app_nil_r.
  - rewrite for_each_do_cons, IH, offer_trace.
    destruct (offer_frame system x st) as (_ & _ & _ & _ & _ & Hc).
    rewrite (filter_ext (compatible system (World.offer system x st))
               (compatible system st)) by (intros; apply Hc).
    cbn [List.filter]. destruct (compatible system st x); simpl.
    + now rewrite <- app_assoc.
    + now rewrite app_nil_r.
Qed.

Lemma addEntity_fresh_trace entity st :
  JsMap.has (name_of st entity) (entities st) = false ->
  trace (World.addEntity entity st)
  = trace st
    ++ List.map (fun s => SystemAddEntity s entity)
         (List.filter (fun s => compatible s st entity) (systems st))
    ++ (if initialized st then [EntityInitialize entity] else []).
Proof.
  intros Hfresh. unfold World.addEntity. unfold name_of in Hfresh.
  rewrite Hfresh. cbn zeta.
  set (st2 := set_scene _ _).
  pose proof (offer_to_systems_trace entity (systems st2) st2) as Hloop.
  destruct (offer_to_systems entity (systems st2) st2)
    as (_ & _ & Hi & _).
  change (initialized st2) with (initialized st) in Hi.
  change (trace st2) with (trace st) in Hloop.
  change (systems st2) with (systems st) in Hloop at 2.
  rewrite (filter_ext (fun s => compatible s st2 entity)
             (fun s => compatible s st entity)) in Hloop by reflexivity.
  rewrite Hi. destruct (initialized st).
  - unfold BaseEntity.initialize, log. cbn [trace set_trace].
    rewrite Hloop. now rewrite <- app_assoc.
  - rewrite Hloop. now rewrite app_nil_r.
Qed.

Lemma addSystem_new_trace system st :
  system ∉ systems st ->
  trace (World.addSystem system st)
  = trace st
    ++ (if initialized st
        then SystemInitialize system
             :: List.map (SystemAddEntity system)
                  (List.filter (compatible system st) (registered st))
        else []).
Proof.
  intros Hnew. unfold World.addSystem, JsArray.includes.
  rewrite bool_decide_eq_false_2 by assumption. cbn zeta.
  set (st3 := World.sortSystems _).
  change (initialized st3) with (initialized st).
  destruct (initialized st); [|simpl; now rewrite app_nil_r].
  rewrite offer_entities_trace.
  set (st4 := BaseSystem.initialize system st3).
  rewrite (filter_ext (compatible system st4) (compatible system st)).
  - unfold st4, BaseSystem.initialize, log. cbn [trace set_trace].
    now rewrite <- app_assoc.
  - intros e. unfold compatible. simpl. now rewrite alter_compat.
Qed.

(** X2: registering an entity under a free name calls [addEntity] on the
    compatible systems, in list order, and only after them, on an
    initialized world, [initialize] on the entity; registering a system that
    is not in the list makes no call on a world that is not initialized,
    and on an initialized one calls the system's [initialize] and then its
    [addEntity] for the compatible registered entities, in registry
    order. *)
Theorem registration_calls_in_order (st : State) (entity : EntityRef)
    (system : SystemRef) :
  JsMap.has (name_of st entity) (entities st) = false ->
  system ∉ systems st ->
  trace (World.addEntity entity st)
  = trace st
    ++ List.map (fun s => SystemAddEntity s entity)
         (List.filter (fun s => compatible s st entity) (systems st))
    ++ (if initialized st then [EntityInitialize entity] else [])
  /\ trace (World.addSystem system st)
     = trace st
       ++ (if initialized st
           then SystemInitialize system
                :: List.map (SystemAddEntity system)
                     (List.filter (compatible system st) (registered st))
           else []).
Proof.
  intros Hfresh Hnew. split.
  - now apply addEntity_fresh_trace.
  - now apply addSystem_new_trace.
Qed.

Lemma registration_calls_in_order_witness :
  trace (World.addEntity 3 running_garage)
  = trace running_garage
    ++ [SystemAddEntity 2 3; SystemAddEntity 1 3; EntityInitialize 3]
  /\ trace (World.addSystem 4 running_garage)
     = trace running_garage ++ [SystemInitialize 4; SystemAddEntity 4 1].
Proof.
  apply (registration_calls_in_order running_garage 3 4).
  - reflexivity.
  - apply (bool_decide_unpack _). vm_compute. exact I.
Defined.

(** ** Every member is initialized once *)

Lemma entity_initializations_app entity evs1 evs2 :
  entity_initializations entity (evs1 ++ evs2)
  = entity_initializations entity evs1 + entity_initializations entity evs2.
Proof.
  induction evs1 as [|ev evs1 IH]; [reflexivity|].
  destruct ev; simpl; rewrite IH; lia.
Qed.

Lemma system_initializations_app system evs1 evs2 :
  system_initializations system (evs1 ++ evs2)
  = system_initializations system evs1 + system_initializations system evs2.
Proof.
  induction evs1 as [|ev evs1 IH]; [reflexivity|].
  destruct ev; simpl; rewrite IH; lia.
Qed.

Lemma entity_initializations_of_entities entity (es : list EntityRef) :
  entity_initializations entity (List.map EntityInitialize es)
  = count_occ Nat.eq_dec es entity.
Proof.
  induction es as [|e es IH]; [reflexivity|]. simpl. rewrite IH.
  destruct (Nat.eqb_spec e entity), (Nat.eq_dec e entity);
    try contradiction; reflexivity.
Qed.

Lemma system_initializations_of_systems system (ss : list SystemRef) :
  system_initializations system (List.map SystemInitialize ss)
  = count_occ Nat.eq_dec ss system.
Proof.
  induction ss as [|s ss IH]; [reflexivity|]. simpl. rewrite IH.
  destruct (Nat.eqb_spec s system), (Nat.eq_dec s system);
    try contradiction; reflexivity.
Qed.

Lemma no_entity_initializations {A} entity (f : A -> Event) (xs : list A) :
  (forall x e, f x <> EntityInitialize e) ->
  entity_initializations entity (List.map f xs) = 0.
Proof.
  intros Hf. induction xs as [|x xs IH]; [reflexivity|].
  simpl. destruct (f x) eqn:Hx; try exact IH.
  now destruct (Hf x e).
Qed.

Lemma no_system_initializations {A} system (f : A -> Event) (xs : list A) :
  (forall x s, f x <> SystemInitialize s) ->
  system_initializations system (List.map f xs) = 0.
Proof.
  intros Hf. induction xs as [|x xs IH]; [reflexivity|].
  simpl. destruct (f x) eqn:Hx; try exact IH.
  now destruct (Hf x s).
Qed.

Lemma insert_permutation {A} (cmp : A -> A -> Z) (x : A) (xs : list A) :
  Permutation (JsArray.insert cmp x xs) (x :: xs).
Proof.
  induction xs as [|y ys IH]; simpl; [reflexivity|].
  destruct (cmp x y <=? 0)%Z; [reflexivity|].
  rewrite IH. apply perm_swap.
Qed.

Lemma sort_permutation {A} (cmp : A -> A -> Z) (xs : list A) :
  Permutation (JsArray.sort cmp xs) xs.
Proof.
  induction xs as [|x xs IH]; simpl; [reflexivity|].
  rewrite insert_permutation. now apply perm_skip.
Qed.

Lemma count_occ_absent (xs : list nat) (x : nat) :
  x ∉ xs -> count_occ Nat.eq_dec xs x = 0.
Proof.
  intros Hnot. apply count_occ_not_In. now rewrite <- list_elem_of_In.
Qed.

(** X3: an entity under a free name and a system that is not in the list
    get exactly one call of [initialize], whether they are registered
    before the world is initialized or after. *)
Theorem members_are_initialized_once (st : State) (entity : EntityRef)
    (system : SystemRef) :
  initialized st = false ->
  JsMap.has (name_of st entity) (entities st) = false ->
  entity ∉ registered st ->
  system ∉ systems st ->
  entity_initializations entity
    (trace (World.initialize (World.addEntity entity st)))
  = S (entity_initializations entity (trace st))
  /\ entity_initializations entity
       (trace (World.addEntity entity (World.initialize st)))
     = S (entity_initializations entity (trace st))
  /\ system_initializations system
       (trace (World.initialize (World.addSystem system st)))
     = S (system_initializations system (trace st))
  /\ system_initializations system
       (trace (World.addSystem system (World.initialize st)))
     = S (system_initializations system (trace st)).
Proof.
  intros Hnot Hfresh Hentity Hsystem.
  destruct (initialize_frame st) as (He & Hs & _ & Hes & Hss & Hi).
  assert (Hsame : Nat.eqb entity entity = true /\ Nat.eqb system system = true)
    by (now rewrite !Nat.eqb_refl).
  destruct Hsame as [Hee Hse].
  repeat split.
  - destruct (addEntity_fresh entity st Hfresh) as (Hr & Hs1 & Hi1 & _).
    assert (Hreg : registered (World.addEntity entity st)
                   = registered st ++ [entity]).
    { unfold registered, JsMap.values. now rewrite Hr, map_app. }
    rewrite initialize_trace by now rewrite Hi1.
    rewrite addEntity_fresh_trace, Hnot, Hreg, Hs1 by assumption.
    rewrite !entity_initializations_app, map_app,
      entity_initializations_app, entity_initializations_of_entities.
    rewrite !no_entity_initializations by (intros; discriminate).
    rewrite (count_occ_absent (registered st)) by assumption.
    simpl. rewrite Hee. lia.
  - rewrite addEntity_fresh_trace
      by (unfold name_of; now rewrite Hes, He).
    rewrite Hi, Hs, initialize_trace by assumption.
    rewrite !entity_initializations_app, entity_initializations_of_entities.
    rewrite !no_entity_initializations by (intros; discriminate).
    rewrite (count_occ_absent (registered st)) by assumption.
    simpl. rewrite Hee. lia.
  - assert (Hstill : initialized (World.addSystem system st) = false).
    { unfold World.addSystem.
      destruct (JsArray.includes system (systems st)); [exact Hnot|].
      cbn zeta.
      change (initialized (World.sortSystems _)) with (initialized st).
      now rewrite Hnot. }
    rewrite initialize_trace by assumption.
    rewrite addSystem_new_trace, Hnot, app_nil_r by assumption.
    rewrite addSystem_systems. unfold JsArray.includes.
    rewrite bool_decide_eq_false_2 by assumption.
    rewrite !system_initializations_app, system_initializations_of_systems.
    rewrite (proj1 (Permutation_count_occ Nat.eq_dec _ _)
               (sort_permutation _ _)).
    rewrite count_occ_app, (count_occ_absent (systems st)) by assumption.
    rewrite no_system_initializations by (intros; discriminate).
    simpl. destruct (Nat.eq_dec system system); [lia|contradiction].
  - rewrite addSystem_new_trace by now rewrite Hs.
    rewrite Hi, initialize_trace by assumption.
    rewrite !system_initializations_app, system_initializations_of_systems.
    rewrite (count_occ_absent (systems st)) by assumption.
    rewrite no_system_initializations by (intros; discriminate).
    cbn [system_initializations].
    rewrite no_system_initializations by (intros; discriminate).
    rewrite Hse. lia.
Qed.

Lemma members_are_initialized_once_witness :
  entity_initializations 1
    (trace (World.initialize (World.addEntity 1 Garage.empty))) = 1
  /\ entity_initializations 1
       (trace (World.addEntity 1 (World.initialize Garage.empty))) = 1
  /\ system_initializations 2
       (trace (World.initialize (World.addSystem 2 Garage.empty))) = 1
  /\ system_initializations 2
       (trace (World.addSystem 2 (World.initialize Garage.empty))) = 1.
Proof.
  apply (members_are_initialized_once Garage.empty 1 2).
  - reflexivity.
  - reflexivity.
  - apply not_elem_of_nil.
  - apply not_elem_of_nil.
Defined.

(** ** Registering and removing, composed *)

Lemma Scene_remove_not_there (n : NodeRef) (children : list NodeRef) :
  n ∉ children -> Scene.remove n children = children.
Proof.
  induction children as [|c cs IH]; simpl; [reflexivity|].
  rewrite elem_of_cons. intros Hnot.
  destruct (Nat.eqb_spec n c) as [->|_]; [tauto|].
  rewrite IH; tauto.
Qed.

Lemma Scene_remove_last (n : NodeRef) (children : list NodeRef) :
  n ∉ children -> Scene.remove n (children ++ [n]) = children.
Proof.
  induction children as [|c cs IH]; simpl.
  - now rewrite Nat.eqb_refl.
  - rewrite elem_of_cons. intros Hnot.
    destruct (Nat.eqb_spec n c) as [->|_]; [tauto|].
    rewrite IH; tauto.
Qed.

Lemma Scene_remove_add (n : NodeRef) (children : list NodeRef) :
  n ∉ children -> Scene.remove n (Scene.add n children) = children.
Proof.
  intros Hnot. unfold Scene.add.
  rewrite (Scene_remove_not_there n children Hnot).
  now apply Scene_remove_last.
Qed.

Lemma JsMap_get_last {V} (k : string) (v : V) (m : JsMap.t V) :
  JsMap.has k m = false -> JsMap.get k (m ++ [(k, v)]) = Some v.
Proof.
  unfold JsMap.has. induction m as [|[k' v'] m IH]; simpl.
  - now rewrite String.eqb_refl.
  - destruct (String.eqb k k'); [discriminate|]. exact IH.
Qed.

Lemma JsMap_get_app_other {V} (k k' : string) (v : V) (m : JsMap.t V) :
  k' <> k -> JsMap.get k' (m ++ [(k, v)]) = JsMap.get k' m.
Proof.
  intros Hne. induction m as [|[k0 v0] m IH]; simpl.
  - destruct (String.eqb_spec k' k); [contradiction|reflexivity].
  - destruct (String.eqb k' k0); [reflexivity|exact IH].
Qed.

Lemma JsMap_delete_last {V} (k : string) (v : V) (m : JsMap.t V) :
  JsMap.has k m = false -> JsMap.delete k (m ++ [(k, v)]) = m.
Proof.
  unfold JsMap.has, JsMap.delete. induction m as [|[k' v'] m IH]; simpl.
  - now rewrite String.eqb_refl.
  - destruct (String.eqb k k') eqn:E; [discriminate|].
    simpl. intros H. now rewrite IH.
Qed.

Lemma addEntity_fresh_scene entity st :
  JsMap.has (name_of st entity) (entities st) = false ->
  scene (World.addEntity entity st)
  = Scene.add (Entity.object3D (entity_store st entity)) (scene st).
Proof.
  intros Hfresh. unfold World.addEntity. unfold name_of in Hfresh.
  rewrite Hfresh. cbn zeta.
  set (st2 := set_scene _ _).
  assert (Hloop : scene (for_each_do (fun system => World.offer system entity)
                           (systems st2) st2) = scene st2).
  { apply for_each_do_preserves. intros x s.
    now destruct (offer_frame x entity s) as (_ & _ & Hsc & _). }
  destruct (initialized _);
    [change (scene (BaseEntity.initialize entity ?s)) with (scene s)|];
    rewrite Hloop; reflexivity.
Qed.

(** X4: an entity registered under a free name is found under that name;
    removing it again gives back the registry, the scene (when its node was
    not in it before) and the system list as they were; every system of
    the list is told to remove it and ends up not tracking it; and the
    entity's [destroy] is never called. *)
Theorem register_then_remove_restores (st : State) (entity : EntityRef) :
  JsMap.has (name_of st entity) (entities st) = false ->
  Entity.object3D (entity_store st entity) ∉ scene st ->
  World.getEntity (name_of st entity) (World.addEntity entity st)
  = Some entity
  /\ fst (World.removeEntity (AnEntity entity) (World.addEntity entity st))
     = true
  /\ entities
       (snd (World.removeEntity (AnEntity entity) (World.addEntity entity st)))
     = entities st
  /\ scene
       (snd (World.removeEntity (AnEntity entity) (World.addEntity entity st)))
     = scene st
  /\ systems
       (snd (World.removeEntity (AnEntity entity) (World.addEntity entity st)))
     = systems st
  /\ (forall s,
        tracked_by s
          (snd (World.removeEntity (AnEntity entity)
                  (World.addEntity entity st)))
        = if bool_decide (s ∈ systems st)
          then tracked_by s st ∖ {[entity]}
          else tracked_by s st)
  /\ trace
       (snd (World.removeEntity (AnEntity entity) (World.addEntity entity st)))
     = trace (World.addEntity entity st)
       ++ List.map (fun s => SystemRemoveEntity s entity) (systems st).
Proof.
  intros Hfresh Hnode.
  destruct (addEntity_fresh entity st Hfresh)
    as (He & Hs & _ & Hes & _ & Ht).
  pose proof (addEntity_fresh_scene entity st Hfresh) as Hsc.
  set (st1 := World.addEntity entity st) in *.
  assert (Hget : JsMap.get (name_of st entity) (entities st1) = Some entity).
  { rewrite He. now apply JsMap_get_last. }
  split; [exact Hget|].
  unfold World.removeEntity. rewrite Hes. fold (name_of st entity).
  rewrite Hget. cbn [fst snd].
  set (st2 := set_scene _ st1).
  set (loop := for_each_do _ (systems st2) st2).
  assert (Hl_ents : entities loop = entities st1)
    by (unfold loop; now rewrite for_each_do_preserves).
  assert (Hl_scene : scene loop = scene st2)
    by (unfold loop; now rewrite for_each_do_preserves).
  assert (Hl_sys : systems loop = systems st1)
    by (unfold loop; now rewrite for_each_do_preserves).
  split; [reflexivity|]. split.
  { cbn [entities set_entities]. rewrite Hl_ents, He.
    now apply JsMap_delete_last. }
  split.
  { cbn [scene set_entities]. rewrite Hl_scene. unfold st2.
    cbn [scene set_scene]. rewrite Hsc. now apply Scene_remove_add. }
  split; [cbn [systems set_entities]; now rewrite Hl_sys|].
  split.
  - intros s. unfold tracked_by. cbn [system_store set_entities].
    fold (tracked_by s loop). unfold loop.
    rewrite remove_loop_tracked.
    change (systems st2) with (systems st1).
    change (tracked_by s st2) with (tracked_by s st1).
    rewrite Hs, Ht.
    case_bool_decide; [|reflexivity]. simpl.
    destruct (compatible s st entity); set_solver.
  - cbn [trace set_entities]. unfold loop.
    rewrite (for_each_do_trace (fun s => SystemRemoveEntity s entity))
      by reflexivity.
    change (systems st2) with (systems st1). now rewrite Hs.
Qed.

Lemma register_then_remove_restores_witness :
  World.getEntity "cone" (World.addEntity 3 running_garage) = Some 3
  /\ entities
       (snd (World.removeEntity (AnEntity 3) (World.addEntity 3 running_garage)))
     = entities running_garage
  /\ scene
       (snd (World.removeEntity (AnEntity 3) (World.addEntity 3 running_garage)))
     = scene running_garage.
Proof.
  destruct (register_then_remove_restores running_garage 3)
    as (H1 & _ & H2 & H3 & _).
  - reflexivity.
  - apply (bool_decide_unpack _). vm_compute. exact I.
  - split; [exact H1|]. split; [exact H2 | exact H3].
Defined.

(** ** The registry and the scene stay consistent *)

Lemma Scene_remove_elem_of (n x : NodeRef) (children : list NodeRef) :
  x <> n -> x ∈ Scene.remove n children <-> x ∈ children.
Proof.
  intros Hne. induction children as [|c cs IH]; simpl; [reflexivity|].
  destruct (Nat.eqb_spec n c) as [->|Hnc].
  - rewrite elem_of_cons. split; [now right|]. intros [->|H]; tauto.
  - rewrite !elem_of_cons, IH. reflexivity.
Qed.

Lemma Scene_remove_subset (n x : NodeRef) (children : list NodeRef) :
  x ∈ Scene.remove n children -> x ∈ children.
Proof.
  induction children as [|c cs IH]; simpl; [trivial|].
  destruct (Nat.eqb n c).
  - apply list_elem_of_further.
  - rewrite !elem_of_cons. intros [->|H]; [now left|right; now apply IH].
Qed.

Lemma Scene_remove_NoDup (n : NodeRef) (children : list NodeRef) :
  NoDup children -> NoDup (Scene.remove n children).
Proof.
  induction children as [|c cs IH]; simpl; [trivial|].
  intros Hnd. apply NoDup_cons in Hnd as [Hc Hnd].
  destruct (Nat.eqb n c); [assumption|].
  apply NoDup_cons. split; [|now apply IH].
  intros Hin. apply Hc. now apply Scene_remove_subset in Hin.
Qed.

Lemma Scene_add_NoDup (n : NodeRef) (children : list NodeRef) :
  NoDup children -> NoDup (Scene.add n children).
Proof.
  intros Hnd. unfold Scene.add. apply NoDup_app. repeat split.
  - now apply Scene_remove_NoDup.
  - intros x Hx Hx'. apply list_elem_of_singleton in Hx'. subst x.
    now apply (Scene_remove_absent n children).
  - apply NoDup_singleton.
Qed.

Lemma Scene_add_elem_of (n x : NodeRef) (children : list NodeRef) :
  x ∈ Scene.add n children <-> x = n \/ x ∈ children.
Proof.
  unfold Scene.add. rewrite elem_of_app, list_elem_of_singleton.
  destruct (decide (x = n)) as [->|Hne].
  - tauto.
  - rewrite Scene_remove_elem_of by assumption. tauto.
Qed.

Lemma JsMap_get_elem_of {V} (k : string) (v : V) (m : JsMap.t V) :
  JsMap.get k m = Some v -> (k, v) ∈ m.
Proof.
  induction m as [|[k' v'] m IH]; simpl; [discriminate|].
  destruct (String.eqb_spec k k') as [->|_].
  - intros H. injection H as ->. apply list_elem_of_here.
  - intros H. now apply list_elem_of_further, IH.
Qed.

Lemma JsMap_delete_elem_of {V} (k k' : string) (v : V) (m : JsMap.t V) :
  (k', v) ∈ JsMap.delete k m <-> k' <> k /\ (k', v) ∈ m.
Proof.
  unfold JsMap.delete.
  rewrite !list_elem_of_In, filter_In. simpl.
  destruct (String.eqb_spec k k') as [->|Hne]; simpl.
  - split; [intros [_ H]; discriminate | intros [H _]; contradiction].
  - split; [intros [H _]; split; [congruence|assumption] | tauto].
Qed.

Lemma registered_elem_of (st : State) (r : EntityRef) :
  r ∈ registered st <-> exists k, (k, r) ∈ entities st.
Proof.
  unfold registered, JsMap.values.
  rewrite list_elem_of_In, in_map_iff. split.
  - intros [[k r'] [<- Hin]]. exists k. now apply list_elem_of_In.
  - intros [k Hin]. exists (k, r). split; [reflexivity|].
    now apply list_elem_of_In.
Qed.

Lemma removeEntity_shape entityOrId st :
  entity_store (snd (World.removeEntity entityOrId st)) = entity_store st
  /\ match JsMap.get (id_of entityOrId st) (entities st) with
     | None => snd (World.removeEntity entityOrId st) = st
     | Some r =>
         entities (snd (World.removeEntity entityOrId st))
         = JsMap.delete (id_of entityOrId st) (entities st)
         /\ scene (snd (World.removeEntity entityOrId st))
            = Scene.remove (node_of st r) (scene st)
     end.
Proof.
  assert (Hid : World.removeEntity entityOrId st
                = match JsMap.get (id_of entityOrId st) (entities st) with
                  | None => (false, st)
                  | Some entity =>
                      (true,
                       set_entities
                         (JsMap.delete (id_of entityOrId st)
                            (entities
                               (for_each_do
                                  (fun system =>
                                     BaseSystem.removeEntity system entity)
                                  (systems st)
                                  (set_scene
                                     (Scene.remove (node_of st entity)
                                        (scene st)) st))))
                         (for_each_do
                            (fun system =>
                               BaseSystem.removeEntity system entity)
                            (systems st)
                            (set_scene
                               (Scene.remove (node_of st entity) (scene st))
                               st)))
                  end).
  { now destruct entityOrId. }
  rewrite Hid.
  destruct (JsMap.get (id_of entityOrId st) (entities st)) as [r|];
    [|split; reflexivity].
  cbn [snd entity_store entities scene set_entities].
  rewrite (for_each_do_preserves entity_store),
    (for_each_do_preserves entities), (for_each_do_preserves scene)
    by reflexivity.
  repeat split.
Qed.

Lemma entity_op_keeps_consistency (universe : list EntityRef) (st : State)
    (op : EntityOp) :
  registry_consistent st ->
  scene_consistent st ->
  (forall r, r ∈ registered st -> r ∈ universe) ->
  (forall r, r ∈ added [op] -> r ∈ universe) ->
  (forall a b, a ∈ universe -> b ∈ universe ->
     node_of st a = node_of st b -> a = b) ->
  registry_consistent (apply_entity_op st op)
  /\ scene_consistent (apply_entity_op st op)
  /\ (forall r, r ∈ registered (apply_entity_op st op) -> r ∈ universe)
  /\ entity_store (apply_entity_op st op) = entity_store st.
Proof.
  intros [Hkeys Hnames] [Hscene Hnodes] Hreg Hadd Hinj.
  destruct op as [e|arg]; cbn [apply_entity_op].
  - destruct (JsMap.has (name_of st e) (entities st)) eqn:Hhas.
    { rewrite (addEntity_taken e st Hhas). repeat split; assumption. }
    destruct (addEntity_fresh e st Hhas) as (He & _ & _ & Hes & _).
    pose proof (addEntity_fresh_scene e st Hhas) as Hsc.
    pose proof (addEntity_keeps_keys_unique e st Hkeys) as Hkeys'.
    set (st' := World.addEntity e st) in *.
    assert (Hname : forall r, name_of st' r = name_of st r)
      by (intros; unfold name_of; now rewrite Hes).
    assert (Hnode : forall r, node_of st' r = node_of st r)
      by (intros; unfold node_of; now rewrite Hes).
    assert (Hreg' : forall r, r ∈ registered st' -> r = e \/ r ∈ registered st).
    { intros r Hr. apply registered_elem_of in Hr as [k Hk].
      rewrite He in Hk. apply elem_of_app in Hk as [Hk|Hk].
      - right. apply registered_elem_of. now exists k.
      - apply list_elem_of_singleton in Hk. injection Hk as _ ->. now left. }
    repeat split.
    + exact Hkeys'.
    + intros k r Hk. rewrite Hname. rewrite He in Hk.
      apply elem_of_app in Hk as [Hk|Hk]; [now apply Hnames|].
      apply list_elem_of_singleton in Hk. now injection Hk as -> ->.
    + rewrite Hsc. now apply Scene_add_NoDup.
    + intros r Hr. rewrite Hsc, Hnode. apply Scene_add_elem_of.
      destruct (Hreg' r Hr) as [->|Hold]; [now left|right; now apply Hnodes].
    + intros r Hr. destruct (Hreg' r Hr) as [->|Hold]; [|now apply Hreg].
      apply Hadd. simpl. apply list_elem_of_here.
    + exact Hes.
  - destruct (removeEntity_shape arg st) as [Hes Hshape].
    destruct (JsMap.get (id_of arg st) (entities st)) as [gone|] eqn:Hget.
    2:{ rewrite Hshape. repeat split; assumption. }
    destruct Hshape as [He Hsc].
    set (st' := snd (World.removeEntity arg st)) in *.
    assert (Hname : forall r, name_of st' r = name_of st r)
      by (intros; unfold name_of; now rewrite Hes).
    assert (Hnode : forall r, node_of st' r = node_of st r)
      by (intros; unfold node_of; now rewrite Hes).
    apply JsMap_get_elem_of in Hget.
    repeat split.
    + rewrite He. now apply delete_keeps_keys_unique.
    + intros k r Hk. rewrite Hname. rewrite He in Hk.
      apply JsMap_delete_elem_of in Hk as [_ Hk]. now apply Hnames.
    + rewrite Hsc. now apply Scene_remove_NoDup.
    + intros r Hr. apply registered_elem_of in Hr as [k Hk].
      rewrite He in Hk. apply JsMap_delete_elem_of in Hk as [Hne Hk].
      assert (Hr : r ∈ registered st)
        by (apply registered_elem_of; now exists k).
      rewrite Hsc, Hnode. apply Scene_remove_elem_of; [|now apply Hnodes].
      intros Hsame. apply Hne.
      assert (r = gone).
      { apply Hinj; [now apply Hreg| |exact Hsame].
        apply Hreg, registered_elem_of. now exists (id_of arg st). }
      subst r. rewrite <- (Hnames k gone Hk).
      now apply Hnames.
    + intros r Hr. apply registered_elem_of in Hr as [k Hk].
      rewrite He in Hk. apply JsMap_delete_elem_of in Hk as [_ Hk].
      apply Hreg, registered_elem_of. now exists k.
    + exact Hes.
Qed.

(** X5: through any sequence of [addEntity] and [removeEntity] calls the
    registry never holds a key twice, every registered entity stands under
    its own name, and the node of every registered entity is a child of the
    scene root exactly once -- provided it was so before and the entities
    involved have nodes of their own. *)
Theorem registry_and_scene_stay_consistent (st : State)
    (ops : list EntityOp) (universe : list EntityRef) :
  registry_consistent st ->
  scene_consistent st ->
  (forall r, r ∈ registered st -> r ∈ universe) ->
  (forall r, r ∈ added ops -> r ∈ universe) ->
  (forall a b, a ∈ universe -> b ∈ universe ->
     node_of st a = node_of st b -> a = b) ->
  registry_consistent (run_entity_ops ops st)
  /\ scene_consistent (run_entity_ops ops st).
Proof.
  revert st. induction ops as [|op ops IH];
    intros st Hreg Hsc Hin Hadd Hinj; [now split|].
  cbn [run_entity_ops fold_left].
  fold (run_entity_ops ops (apply_entity_op st op)).
  destruct (entity_op_keeps_consistency universe st op Hreg Hsc Hin)
    as (Hreg' & Hsc' & Hin' & Hes); [|exact Hinj|].
  { intros r Hr. apply Hadd. unfold added in *. simpl in *.
    rewrite app_nil_r in Hr. apply elem_of_app. now left. }
  apply IH; try assumption.
  - intros r Hr. apply Hadd. unfold added. simpl.
    apply elem_of_app. now right.
  - intros a b Ha Hb. unfold node_of. rewrite Hes. now apply Hinj.
Qed.

Lemma registry_and_scene_stay_consistent_witness :
  entities (run_entity_ops garage_traffic Garage.empty) = [("cone", 3)]
  /\ scene (run_entity_ops garage_traffic Garage.empty) = [12]
  /\ registry_consistent (run_entity_ops garage_traffic Garage.empty)
  /\ scene_consistent (run_entity_ops garage_traffic Garage.empty).
Proof.
  split; [reflexivity|]. split; [reflexivity|].
  apply (registry_and_scene_stay_consistent Garage.empty garage_traffic
           [1; 3; 4]).
  - split; [apply NoDup_nil_2|]. intros k r H. now apply elem_of_nil in H.
  - split; [apply NoDup_nil_2|]. intros r H. now apply elem_of_nil in H.
  - intros r H. now apply elem_of_nil in H.
  - intros r H. apply (bool_decide_unpack _).
    repeat (apply elem_of_cons in H as [->|H]; [vm_compute; exact I|]).
    now apply elem_of_nil in H.
  - intros a b Ha Hb.
    repeat (apply elem_of_cons in Ha as [->|Ha]);
      try (now apply elem_of_nil in Ha);
      repeat (apply elem_of_cons in Hb as [->|Hb]);
      try (now apply elem_of_nil in Hb);
      vm_compute; intros H; try reflexivity; discriminate H.
Defined.

(** ** Queries *)

Lemma find_by_name_in_consistent (store : EntityRef -> Entity.t)
    (nm : string) (m : JsMap.t EntityRef) :
  NoDup (JsMap.keys m) ->
  (forall k r, (k, r) ∈ m -> Entity.name (store r) = k) ->
  List.filter (fun entity => String.eqb (Entity.name (store entity)) nm)
    (JsMap.values m)
  = match JsMap.get nm m with Some e => [e] | None => [] end.
Proof.
  induction m as [|[k r] m IH]; intros Hnd Hnames; [reflexivity|].
  simpl in Hnd. apply NoDup_cons in Hnd as [Hk Hnd].
  assert (Hr : Entity.name (store r) = k)
    by (apply Hnames, list_elem_of_here).
  assert (Hrest : forall k' r', (k', r') ∈ m -> Entity.name (store r') = k')
    by (intros; now apply Hnames, list_elem_of_further).
  cbn [JsMap.values List.map List.filter snd JsMap.get]. rewrite Hr.
  fold (JsMap.values m). rewrite (IH Hnd Hrest).
  destruct (String.eqb_spec k nm) as [->|Hne].
  - rewrite String.eqb_refl.
    destruct (JsMap.get nm m) as [e|] eqn:Hget; [|reflexivity].
    exfalso. apply Hk.
    apply JsMap_has_keys. unfold JsMap.has. now rewrite Hget.
  - destruct (String.eqb_spec nm k) as [->|_]; [contradiction|reflexivity].
Qed.

(** X6: in a registry where every entity stands under its own name and no
    key is twice, the scan [findEntitiesByName] finds what the keyed lookup
    [getEntity] finds: the one entity registered under the name, or
    nothing. *)
Theorem findEntitiesByName_agrees_with_getEntity (st : State) (nm : string) :
  registry_consistent st ->
  World.findEntitiesByName nm st
  = match World.getEntity nm st with Some e => [e] | None => [] end.
Proof.
  intros [Hnd Hnames]. unfold World.findEntitiesByName, World.getEntity.
  now apply find_by_name_in_consistent.
Qed.

Lemma findEntitiesByName_agrees_with_getEntity_witness :
  World.findEntitiesByName "wheel" Garage.populated = [2]
  /\ World.findEntitiesByName "trailer" Garage.populated = [].
Proof.
  assert (Hok : registry_consistent Garage.populated).
  { split; [apply (bool_decide_unpack _); vm_compute; exact I|].
    intros k r H.
    repeat (apply elem_of_cons in H as [H|H];
            [injection H as -> ->; reflexivity|]).
    now apply elem_of_nil in H. }
  split.
  - apply (findEntitiesByName_agrees_with_getEntity Garage.populated
             "wheel" Hok).
  - apply (findEntitiesByName_agrees_with_getEntity Garage.populated
             "trailer" Hok).
Defined.

Lemma find_in_sorted (key : SystemRef -> Z) (f : SystemRef -> bool)
    (xs : list SystemRef) :
  StronglySorted (fun a b => (key a <= key b)%Z) xs ->
  match List.find f xs with
  | Some s =>
      s ∈ xs /\ f s = true
      /\ forall s', s' ∈ xs -> f s' = true -> (key s <= key s')%Z
  | None => forall s', s' ∈ xs -> f s' = false
  end.
Proof.
  induction 1 as [|x xs Hxs IH Hall]; simpl.
  - intros s' H. now apply elem_of_nil in H.
  - destruct (f x) eqn:Hx.
    + split; [apply list_elem_of_here|]. split; [exact Hx|].
      intros s' Hs' _. apply elem_of_cons in Hs' as [->|Hs']; [lia|].
      rewrite Forall_forall in Hall. now apply Hall.
    + destruct (List.find f xs) as [s|].
      * destruct IH as (Hin & Hf & Hleast).
        split; [now apply list_elem_of_further|]. split; [exact Hf|].
        intros s' Hs' Hfs'. apply elem_of_cons in Hs' as [->|Hs'];
          [congruence|now apply Hleast].
      * intros s' Hs'. apply elem_of_cons in Hs' as [->|Hs'];
          [exact Hx|now apply IH].
Qed.

(** X7: on a system list sorted by priority [getSystem] returns a
    registered system of the asked class whose priority is least among the
    registered systems of that class, and nothing exactly when no
    registered system is of the class. *)
Theorem getSystem_returns_first_of_class (st : State)
    (systemType : System.t -> bool) :
  StronglySorted (fun a b => (priority_of st a <= priority_of st b)%Z)
    (systems st) ->
  match World.getSystem systemType st with
  | Some s =>
      s ∈ systems st
      /\ systemType (system_store st s) = true
      /\ forall s', s' ∈ systems st ->
           systemType (system_store st s') = true ->
           (priority_of st s <= priority_of st s')%Z
  | None =>
      forall s', s' ∈ systems st -> systemType (system_store st s') = false
  end.
Proof.
  intros Hsorted. unfold World.getSystem.
  exact (find_in_sorted (priority_of st)
           (fun s => systemType (system_store st s)) (systems st) Hsorted).
Qed.

Lemma getSystem_returns_first_of_class_witness :
  systems garage_with_replay = [2; 3; 5; 1]
  /\ World.getSystem
       (fun s => String.eqb (System.name s) "ReplaySystem")
       garage_with_replay = Some 5
  /\ World.getSystem
       (fun s => String.eqb (System.name s) "AudioSystem")
       garage_with_replay = None
  /\ forall s',
       s' ∈ systems garage_with_replay ->
       System.enabled (system_store garage_with_replay s') = true ->
       Z.le (priority_of garage_with_replay 2)
         (priority_of garage_with_replay s').
Proof.
  split; [reflexivity|]. split; [reflexivity|]. split; [reflexivity|].
  assert (Hsorted : StronglySorted
                      (fun a b =>
                         (priority_of garage_with_replay a
                          <= priority_of garage_with_replay b)%Z)
                      (systems garage_with_replay)).
  { repeat constructor; vm_compute; intros H; discriminate H. }
  pose proof (getSystem_returns_first_of_class garage_with_replay
                System.enabled Hsorted) as Hfirst.
  change (World.getSystem System.enabled garage_with_replay)
    with (Some 2) in Hfirst.
  exact (proj2 (proj2 Hfirst)).
Defined.

(** ** Registering and removing a system, composed *)

(** A list sorted by key is determined by its sublists of equal key. *)
Lemma sorted_by_key_unique (key : SystemRef -> Z) (xs ys : list SystemRef) :
  StronglySorted (fun a b => (key a <= key b)%Z) xs ->
  StronglySorted (fun a b => (key a <= key b)%Z) ys ->
  (forall p,
     List.filter (fun y => (key y =? p)%Z) xs
     = List.filter (fun y => (key y =? p)%Z) ys) ->
  xs = ys.
Proof.
  intros Hxs. revert ys.
  induction Hxs as [|x xs Hxs IH Hall]; intros ys Hys Hsame.
  - destruct ys as [|y ys]; [reflexivity|].
    specialize (Hsame (key y)). simpl in Hsame.
    rewrite Z.eqb_refl in Hsame. discriminate Hsame.
  - destruct ys as [|y ys].
    { specialize (Hsame (key x)). simpl in Hsame.
      rewrite Z.eqb_refl in Hsame. discriminate Hsame. }
    apply StronglySorted_inv in Hys as [Hys Hally].
    rewrite Forall_forall in Hall, Hally.
    assert (Hxy : (key y <= key x)%Z).
    { pose proof (Hsame (key x)) as H. simpl in H.
      rewrite Z.eqb_refl in H.
      destruct (Z.eqb_spec (key y) (key x)) as [->|_]; [lia|].
      assert (Hin : x ∈ List.filter (fun z => (key z =? key x)%Z) ys)
        by (rewrite <- H; apply list_elem_of_here).
      apply list_elem_of_In, filter_In in Hin as [Hin _].
      apply Hally. now apply list_elem_of_In. }
    assert (Hyx : (key x <= key y)%Z).
    { pose proof (Hsame (key y)) as H. simpl in H.
      rewrite Z.eqb_refl in H.
      destruct (Z.eqb_spec (key x) (key y)) as [->|_]; [lia|].
      assert (Hin : y ∈ List.filter (fun z => (key z =? key y)%Z) xs)
        by (rewrite H; apply list_elem_of_here).
      apply list_elem_of_In, filter_In in Hin as [Hin _].
      apply Hall. now apply list_elem_of_In. }
    assert (Hkey : key x = key y) by lia.
    pose proof (Hsame (key x)) as Hhead. simpl in Hhead.
    rewrite Z.eqb_refl, <- Hkey, Z.eqb_refl in Hhead.
    injection Hhead as -> Htail.
    f_equal. apply IH; [exact Hys|].
    intros p. destruct (Z.eqb_spec (key y) p) as [<-|Hne]; [exact Htail|].
    specialize (Hsame p). simpl in Hsame.
    destruct (Z.eqb_spec (key y) p); [contradiction|exact Hsame].
Qed.

Lemma remove_first_last x (xs : list SystemRef) :
  x ∉ xs -> JsArray.remove_first x (xs ++ [x]) = xs.
Proof.
  induction xs as [|z zs IH]; simpl.
  - now rewrite Nat.eqb_refl.
  - rewrite elem_of_cons. intros Hnot.
    destruct (Nat.eqb_spec x z) as [->|_]; [tauto|].
    rewrite IH; tauto.
Qed.

(** X8: registering a system that is not in a sorted list and removing it
    again gives the list back as it was, whatever the priority of the
    system; the removal reports [true], ends with the call of the system's
    [destroy], leaves the registry alone and the system tracking
    nothing. *)
Theorem register_then_remove_system_restores (st : State)
    (system : SystemRef) :
  system ∉ systems st ->
  StronglySorted (fun a b => (priority_of st a <= priority_of st b)%Z)
    (systems st) ->
  fst (World.removeSystem system (World.addSystem system st)) = true
  /\ systems (snd (World.removeSystem system (World.addSystem system st)))
     = systems st
  /\ entities (snd (World.removeSystem system (World.addSystem system st)))
     = entities st
  /\ tracked_by system
       (snd (World.removeSystem system (World.addSystem system st))) = ∅
  /\ trace (snd (World.removeSystem system (World.addSystem system st)))
     = trace (World.addSystem system st) ++ [SystemDestroy system].
Proof.
  intros Hnew Hsorted.
  pose proof (addSystem_systems system st) as Hsys.
  unfold JsArray.includes in Hsys.
  rewrite bool_decide_eq_false_2 in Hsys by assumption.
  assert (Hin : system ∈ systems (World.addSystem system st)).
  { rewrite Hsys. apply sort_elem_of, elem_of_app. right.
    apply list_elem_of_here. }
  assert (Hrem : World.removeSystem system (World.addSystem system st)
                 = (true,
                    BaseSystem.destroy system
                      (set_systems
                         (JsArray.remove_first system
                            (systems (World.addSystem system st)))
                         (World.addSystem system st)))).
  { unfold World.removeSystem, JsArray.includes.
    now rewrite bool_decide_eq_true_2. }
  rewrite Hrem. cbn [fst snd].
  split; [reflexivity|]. split.
  { cbn [systems BaseSystem.destroy log set_trace set_system_store
           set_systems]. rewrite Hsys.
    apply (sorted_by_key_unique (priority_of st)).
    - apply remove_first_sorted, sort_sorted.
    - exact Hsorted.
    - intros p. rewrite filter_remove_first, filter_sort, List.filter_app.
      cbn [List.filter].
      destruct (Z.eqb_spec (priority_of st system) p) as [Hp|Hp].
      + apply remove_first_last. intros Hmem.
        apply list_elem_of_In, filter_In in Hmem as [Hmem _].
        now apply Hnew, list_elem_of_In.
      + now rewrite app_nil_r. }
  split.
  { cbn [entities BaseSystem.destroy log set_trace set_system_store
           set_systems].
    unfold World.addSystem, JsArray.includes.
    rewrite bool_decide_eq_false_2 by assumption. cbn zeta.
    destruct (initialized _); [|reflexivity].
    rewrite (for_each_do_preserves entities); [reflexivity|].
    intros x s. now destruct (offer_frame system x s) as (He & _). }
  split.
  { rewrite tracked_by_destroy. now destruct (decide (system = system)). }
  reflexivity.
Qed.

Lemma register_then_remove_system_restores_witness :
  systems Garage.scheduled = [2; 3; 1]
  /\ systems (World.addSystem 5 Garage.scheduled) = [2; 3; 5; 1]
  /\ systems
       (snd (World.removeSystem 5 (World.addSystem 5 Garage.scheduled)))
     = systems Garage.scheduled.
Proof.
  split; [reflexivity|]. split; [reflexivity|].
  apply (register_then_remove_system_restores Garage.scheduled 5).
  - apply (bool_decide_unpack _). vm_compute. exact I.
  - repeat constructor; vm_compute; intros H; discriminate H.
Defined.

(** ** Pausing and resuming *)

(** X9: through any sequence of [pause] and [resume] calls the world's
    notifications on the event bus alternate -- never two pauses or two
    resumes in a row, beginning with the one that changes the state the
    world is in -- there is at most one per call, the flag ends up as the
    last notification says, and nothing else of the state changes. *)
Theorem pause_notifications_alternate (ops : list PauseOp) (st : State) :
  exists n,
    n <= length ops
    /\ bus (run_pause_ops ops st) = bus st ++ alternating (paused st) n
    /\ paused (run_pause_ops ops st)
       = (if Nat.even n then paused st else negb (paused st))
    /\ set_bus (bus st) (set_paused (paused st) (run_pause_ops ops st)) = st.
Proof.
  revert st. induction ops as [|op ops IH]; intros st.
  - exists 0. simpl. rewrite app_nil_r. repeat split; [lia|].
    now destruct st.
  - cbn [run_pause_ops fold_left]. fold (run_pause_ops ops (apply_pause_op st op)).
    destruct (IH (apply_pause_op st op)) as (n & Hn & Hbus & Hflag & Hrest).
    assert (Hstep :
              apply_pause_op st op = st
              \/ (bus (apply_pause_op st op)
                  = bus st ++ alternating (paused st) 1
                  /\ paused (apply_pause_op st op) = negb (paused st)
                  /\ set_bus (bus st)
                       (set_paused (paused st) (apply_pause_op st op)) = st)).
    { destruct op; cbn [apply_pause_op]; unfold World.pause, World.resume;
        destruct (paused st) eqn:Hp; auto; right;
        (split; [reflexivity|]); (split; [reflexivity|]);
        destruct st; simpl in *; now subst. }
    destruct Hstep as [Hsame | (Hb1 & Hp1 & Hr1)].
    + rewrite Hsame in *. exists n. repeat split; try assumption. simpl; lia.
    + exists (S n). split; [simpl; lia|]. split.
      { rewrite Hbus, Hb1, Hp1. simpl. now rewrite <- app_assoc. }
      split.
      { rewrite Hflag, Hp1. rewrite Nat.even_succ, <- Nat.negb_even.
        destruct (Nat.even n), (paused st); reflexivity. }
      remember (run_pause_ops ops (apply_pause_op st op)) as after.
      remember (apply_pause_op st op) as once.
      clear - Hrest Hr1.
      destruct after, once, st. unfold set_bus, set_paused in *.
      simpl in *. injection Hrest. injection Hr1. intros. now subst.
Qed.

Lemma pause_notifications_alternate_witness :
  bus (run_pause_ops [Pause; Pause; Resume; Resume; Resume; Pause]
         Garage.scheduled)
  = [BusEmit (Literal "world.pause"); BusEmit (Literal "world.resume");
     BusEmit (Literal "world.pause")]
  /\ exists n,
       n <= 6
       /\ bus (run_pause_ops [Pause; Pause; Resume; Resume; Resume; Pause]
                 Garage.scheduled)
          = bus Garage.scheduled ++ alternating (paused Garage.scheduled) n
       /\ paused (run_pause_ops [Pause; Pause; Resume; Resume; Resume; Pause]
                    Garage.scheduled)
          = (if Nat.even n then paused Garage.scheduled
             else negb (paused Garage.scheduled))
       /\ set_bus (bus Garage.scheduled)
            (set_paused (paused Garage.scheduled)
               (run_pause_ops [Pause; Pause; Resume; Resume; Resume; Pause]
                  Garage.scheduled))
          = Garage.scheduled.
Proof.
  split; [reflexivity|].
  exact (pause_notifications_alternate
           [Pause; Pause; Resume; Resume; Resume; Pause] Garage.scheduled).
Defined.

(** ** After [destroy] *)

Lemma destroy_empties (st : State) :
  entities (World.destroy st) = []
  /\ systems (World.destroy st) = []
  /\ scene (World.destroy st) = []
  /\ active (World.destroy st) = false
  /\ initialized (World.destroy st) = false.
Proof.
  unfold World.destroy. cbn zeta.
  split.
  { cbn [entities set_initialized set_active set_scene set_systems].
    now rewrite for_each_do_preserves. }
  split; [reflexivity|]. split; [|split; reflexivity].
  cbn [scene set_initialized set_active set_scene].
  apply remove_children_enough. reflexivity.
Qed.

Lemma destroy_of_empty (st : State) :
  entities st = [] -> systems st = [] -> scene st = [] ->
  active st = false -> initialized st = false ->
  World.destroy st = st.
Proof.
  intros He Hs Hsc Ha Hi. destruct st. simpl in *. subst. reflexivity.
Qed.

(** X10: a destroyed world is inert: each of the four passes returns at
    once and leaves it as it is, and so does a second [destroy]. *)
Theorem destroyed_world_is_inert (st : State) (dt : Number) :
  World.update dt (World.destroy st) = Normal (World.destroy st)
  /\ World.fixedUpdate dt (World.destroy st) = Normal (World.destroy st)
  /\ World.preRender (World.destroy st) = Normal (World.destroy st)
  /\ World.postRender (World.destroy st) = Normal (World.destroy st)
  /\ World.destroy (World.destroy st) = World.destroy st.
Proof.
  destruct (destroy_empties st) as (He & Hs & Hsc & Ha & Hi).
  assert (Hgate : World.suspended (World.destroy st) = true)
    by (unfold World.suspended; now rewrite Ha).
  unfold World.update, World.fixedUpdate, World.preRender, World.postRender,
    World.optional_pass.
  rewrite Hgate. repeat split.
  now apply destroy_of_empty.
Qed.

(** ** The optional passes *)

(** X11: on an active, unpaused world [fixedUpdate], [preRender] and
    [postRender] call their hook on exactly the enabled systems that have
    it, in list order, up to the first call that raises, and call no hook
    of an entity. *)
Theorem optional_passes_call_systems_that_have_the_hook (st : State)
    (dt : Number) :
  active st = true ->
  paused st = false ->
  World.fixedUpdate dt st
  = run_calls
      (optional_calls System.fixedUpdate
         (fun s => SystemFixedUpdate s dt) st) st
  /\ World.preRender st
     = run_calls (optional_calls System.preRender SystemPreRender st) st
  /\ World.postRender st
     = run_calls (optional_calls System.postRender SystemPostRender st) st.
Proof.
  intros Hact Hrun.
  pose proof (suspended_false st Hact Hrun) as Hgate.
  unfold World.fixedUpdate, World.preRender, World.postRender.
  repeat split; now apply optional_pass_run.
Qed.

Lemma optional_passes_call_systems_that_have_the_hook_witness :
  World.fixedUpdate Garage.tick Garage.scheduled
  = Normal
      (set_trace (trace Garage.scheduled ++ [SystemFixedUpdate 2 Garage.tick])
         Garage.scheduled)
  /\ World.preRender Garage.scheduled
     = Normal
         (set_trace (trace Garage.scheduled ++ [SystemPreRender 3])
            Garage.scheduled)
  /\ World.postRender Garage.scheduled
     = Normal
         (set_trace (trace Garage.scheduled ++ [SystemPostRender 3])
            Garage.scheduled).
Proof.
  exact (optional_passes_call_systems_that_have_the_hook Garage.scheduled
           Garage.tick eq_refl eq_refl).
Defined.

(** ** Creating entities *)

Lemma addEntity_next_ref entity st :
  next_ref (World.addEntity entity st) = next_ref st.
Proof.
  unfold World.addEntity.
  destruct (JsMap.has _ (entities st)); [reflexivity|]. cbn zeta.
  set (st2 := set_scene _ _).
  assert (Hloop : next_ref (for_each_do
                              (fun system => World.offer system entity)
                              (systems st2) st2) = next_ref st).
  { rewrite (for_each_do_preserves next_ref); [reflexivity|].
    intros x s. unfold World.offer.
    now destruct (System.checkEntityCompatibility _ _). }
  destruct (initialized _); exact Hloop.
Qed.

(** X12: [createEntity] makes a new entity object with the given name
    ("Entity" when none is given), active and without parent or children,
    and returns it.  It is registered when the name is free, last in the
    registry; when the name is taken the world is left as it was and the
    entity that is returned is not in the registry. *)
Theorem createEntity_registers_under_a_free_name (st : State)
    (nm : option string) :
  fst (World.createEntity nm st) = next_ref st
  /\ next_ref (snd (World.createEntity nm st)) = S (next_ref st)
  /\ entity_store (snd (World.createEntity nm st)) (next_ref st)
     = Entity.new (default "Entity" nm) (next_ref st)
  /\ (JsMap.has (default "Entity" nm) (entities st) = false ->
      entities (snd (World.createEntity nm st))
      = entities st ++ [(default "Entity" nm, next_ref st)]
      /\ World.getEntity (default "Entity" nm) (snd (World.createEntity nm st))
         = Some (next_ref st))
  /\ (JsMap.has (default "Entity" nm) (entities st) = true ->
      entities (snd (World.createEntity nm st)) = entities st
      /\ scene (snd (World.createEntity nm st)) = scene st
      /\ trace (snd (World.createEntity nm st)) = trace st
      /\ (next_ref st ∉ registered st ->
          next_ref st ∉ registered (snd (World.createEntity nm st)))).
Proof.
  unfold World.createEntity. cbn zeta. cbn [fst snd].
  set (e := next_ref st).
  set (st1 := set_next_ref (S e) (set_entity_store _ st)).
  assert (Hname : name_of st1 e = default "Entity" nm).
  { unfold name_of, st1. simpl. now rewrite fn_lookup_insert. }
  assert (Hobj : entity_store st1 e = Entity.new (default "Entity" nm) e).
  { unfold st1. simpl. now rewrite fn_lookup_insert. }
  split; [reflexivity|].
  split; [now rewrite addEntity_next_ref|].
  split.
  { destruct (JsMap.has (name_of st1 e) (entities st1)) eqn:Hhas.
    - now rewrite (addEntity_taken e st1 Hhas).
    - destruct (addEntity_fresh e st1 Hhas) as (_ & _ & _ & -> & _).
      exact Hobj. }
  split.
  - intros Hfree.
    assert (Hhas : JsMap.has (name_of st1 e) (entities st1) = false)
      by now rewrite Hname.
    destruct (addEntity_fresh e st1 Hhas) as (He & _).
    rewrite He, Hname. split; [reflexivity|].
    unfold World.getEntity. rewrite He, Hname.
    now apply JsMap_get_last.
  - intros Htaken.
    assert (Hhas : JsMap.has (name_of st1 e) (entities st1) = true)
      by now rewrite Hname.
    rewrite (addEntity_taken e st1 Hhas). repeat split. auto.
Qed.

Lemma createEntity_registers_under_a_free_name_witness :
  World.getEntity "Entity" (snd (World.createEntity None Garage.empty))
  = Some 100
  /\ fst (World.createEntity None (snd (World.createEntity None Garage.empty)))
     = 101
  /\ registered
       (snd (World.createEntity None
               (snd (World.createEntity None Garage.empty))))
     = [100].
Proof.
  destruct (createEntity_registers_under_a_free_name Garage.empty None)
    as (_ & _ & _ & Hfree & _).
  destruct (createEntity_registers_under_a_free_name
              (snd (World.createEntity None Garage.empty)) None)
    as (Hfst & _ & _ & _ & Htaken).
  split; [exact (proj2 (Hfree eq_refl))|]. split; [exact Hfst|].
  unfold registered. now rewrite (proj1 (Htaken eq_refl)).
Defined.

(** ** What a snapshot holds *)

Lemma filter_named_all {V} (l : list (string * V)) :
  List.Forall (fun kv => is_index kv = false) l ->
  List.filter named l = l /\ List.filter is_index l = [].
Proof.
  induction l as [|x l IH]; intros Hall; [now split|].
  apply List.Forall_cons_iff in Hall as [Hx Hall].
  destruct (IH Hall) as [Hn Hi].
  cbn [List.filter]. unfold named at 1. rewrite Hx. cbn [negb].
  now rewrite Hn, Hi.
Qed.

(** X13: the snapshot of a world records its name and its active flag and
    holds, for exactly the registered entities without a parent (one called
    [__proto__] apart, which a plain object takes as its prototype), the
    entity's own serialization under its registry key; an entity that has a
    parent gets no entry.  The entries come in the order a plain object
    enumerates its keys: first the root entities whose name is an array
    index, in ascending numeric order, then the other root entities in
    registry order -- so in registry order throughout when no root entity
    has such a name. *)
Theorem toJSON_holds_the_roots (st : State) :
  NoDup (JsMap.keys (entities st)) ->
  (exists front,
     World.toJSON st
     = WorldJSON.mk (Some (name st)) (Some (active st))
         (Some (front ++ List.filter named (root_entries st)))
     /\ Permutation front (List.filter is_index (root_entries st))
     /\ StronglySorted index_le front)
  /\ (List.Forall (fun kv => is_index kv = false) (root_entries st) ->
      World.toJSON st
      = WorldJSON.mk (Some (name st)) (Some (active st))
          (Some (root_entries st))).
Proof.
  intros Hnd.
  destruct (toJSON_entries st Hnd) as (front & Hents & _ & Hsorted & Hperm).
  assert (Hjson : World.toJSON st
                  = WorldJSON.mk (Some (name st)) (Some (active st))
                      (Some (front ++ List.filter named (root_entries st)))).
  { unfold World.toJSON in *. cbn [WorldJSON.entities] in Hents.
    now rewrite Hents. }
  split.
  - exists front. now repeat split.
  - intros Hall. destruct (filter_named_all _ Hall) as [Hn Hi].
    rewrite Hi in Hperm. apply Permutation_nil_r in Hperm.
    rewrite Hjson, Hperm, Hn. reflexivity.
Qed.

Lemma toJSON_holds_the_roots_witness :
  JsMap.keys (entities Shelf.numbered) = ["2"; "b"; "1"]
  /\ option_map JsObject.keys
       (WorldJSON.entities (World.toJSON Shelf.numbered))
     = Some ["1"; "2"; "b"]
  /\ (exists front,
        World.toJSON Shelf.numbered
        = WorldJSON.mk (Some "BaseWorld") (Some true)
            (Some (front ++ List.filter named (root_entries Shelf.numbered)))
        /\ Permutation front
             (List.filter is_index (root_entries Shelf.numbered))
        /\ StronglySorted index_le front)
  /\ World.toJSON Garage.populated
     = WorldJSON.mk (Some "BaseWorld") (Some true)
         (Some
            [("car", EntityJSON.mk (Some "car") (Some true) (Some ["wheel"]));
             ("cone", EntityJSON.mk (Some "cone") (Some true) (Some []))]).
Proof.
  split; [reflexivity|]. split; [reflexivity|]. split.
  - apply (proj1 (toJSON_holds_the_roots Shelf.numbered
                    ltac:(apply (bool_decide_unpack _); vm_compute; exact I))).
  - apply (proj2 (toJSON_holds_the_roots Garage.populated
                    ltac:(apply (bool_decide_unpack _); vm_compute; exact I))).
    repeat constructor.
Defined.

(** ** The dummy lookup *)

Lemma named_true (dummyName : string) (dummy : DummyLookupSystem.Object3D) :
  DummyLookupSystem.named dummyName dummy = true <->
  DummyLookupSystem.name dummy = Some dummyName.
Proof.
  unfold DummyLookupSystem.named.
  destruct (DummyLookupSystem.name dummy) as [n|]; split; intros H;
    try discriminate.
  - apply String.eqb_eq in H. now subst.
  - injection H as ->. apply String.eqb_refl.
Qed.

Lemma getDummies_of_object (nm : string) (object : DummyLookupSystem.Object3D) :
  DummyLookupSystem.getDummies
    (Some (DummyLookupSystem.mkEntityView nm (Some object))) =
  List.filter DummyLookupSystem.is_dummy (DummyLookupSystem.traverse object).
Proof. reflexivity. Qed.

Lemma getDummies_In (entity : option DummyLookupSystem.EntityView)
    (d : DummyLookupSystem.Object3D) :
  In d (DummyLookupSystem.getDummies entity) <->
  DummyLookupSystem.is_dummy d = true /\
  exists e object, entity = Some e /\
    DummyLookupSystem.object3D e = Some object /\
    In d (DummyLookupSystem.traverse object).
Proof.
  destruct entity as [[nm [object|]]|]; cbn.
  - rewrite filter_In. split.
    + intros [Hin Hd]. split; [exact Hd|]. now eexists _, object.
    + intros [Hd (e & o & He & Ho & Hin)]. injection He as <-.
      cbn in Ho. injection Ho as <-. now split.
  - split; [intros []|]. intros [_ (e & o & He & Ho & _)].
    injection He as <-. discriminate Ho.
  - split; [intros []|]. intros [_ (e & o & He & _)]. discriminate He.
Qed.

Lemma filter_flat_map {A B : Type} (p : B -> bool) (f : A -> list B)
    (l : list A) :
  List.filter p (flat_map f l) = flat_map (fun x => List.filter p (f x)) l.
Proof.
  induction l as [|x l IH]; [reflexivity|].
  cbn. now rewrite List.filter_app, IH.
Qed.

(** X16: a lookup by a name that does not contain "dummy" (in any letter
    case) finds nothing, whatever the entity: also when a node of that very
    name is in the entity's subtree. *)
Theorem getDummy_needs_dummy_in_the_name
    (entity : option DummyLookupSystem.EntityView) (dummyName : string)
    (Hname : JsString.includes "dummy" (JsString.toLowerCase dummyName) = false) :
  DummyLookupSystem.getDummy entity dummyName = None.
Proof.
  unfold DummyLookupSystem.getDummy.
  destruct (List.find _ _) as [d|] eqn:Hfind; [|reflexivity].
  apply find_some in Hfind as [Hin Hnamed].
  apply named_true in Hnamed.
  apply getDummies_In in Hin as [Hd _].
  unfold DummyLookupSystem.is_dummy in Hd. rewrite Hnamed in Hd.
  congruence.
Qed.

Lemma getDummy_needs_dummy_in_the_name_witness :
  In Model.wheel (DummyLookupSystem.traverse Model.car) /\
  DummyLookupSystem.name Model.wheel = Some "wheel_fl" /\
  DummyLookupSystem.getDummy Model.entity "wheel_fl" = None.
Proof.
  split; [cbn; tauto|]. split; [reflexivity|].
  apply (getDummy_needs_dummy_in_the_name Model.entity "wheel_fl").
  reflexivity.
Defined.

(** X17: when the entity's subtree has a node of the requested name and the
    name contains "dummy" in some letter case, the lookup returns a node of
    the subtree with exactly that name; and whatever the lookup returns is
    such a node. *)
Theorem getDummy_finds_a_named_dummy
    (e : DummyLookupSystem.EntityView) (object d : DummyLookupSystem.Object3D)
    (dummyName : string)
    (Hobject : DummyLookupSystem.object3D e = Some object)
    (Hin : In d (DummyLookupSystem.traverse object))
    (Hd : DummyLookupSystem.name d = Some dummyName)
    (Hname : JsString.includes "dummy" (JsString.toLowerCase dummyName) = true) :
  exists d',
    DummyLookupSystem.getDummy (Some e) dummyName = Some d' /\
    DummyLookupSystem.name d' = Some dummyName /\
    In d' (DummyLookupSystem.traverse object).
Proof.
  unfold DummyLookupSystem.getDummy.
  destruct (List.find _ _) as [d'|] eqn:Hfind.
  - exists d'. split; [reflexivity|].
    apply find_some in Hfind as [Hin' Hnamed].
    split; [now apply named_true|].
    apply getDummies_In in Hin' as [_ (e' & o & He & Ho & Hin')].
    injection He as <-. rewrite Hobject in Ho. now injection Ho as <-.
  - exfalso.
    assert (Hd' : In d (DummyLookupSystem.getDummies (Some e))).
    { apply getDummies_In. split.
      - unfold DummyLookupSystem.is_dummy. now rewrite Hd.
      - now exists e, object. }
    pose proof (find_none _ _ Hfind d Hd') as Hno.
    apply named_true in Hd. congruence.
Qed.

Lemma getDummy_finds_a_named_dummy_witness :
  DummyLookupSystem.getDummy Model.entity "wheel_DUMMY_fl" =
    Some Model.wheel_dummy /\
  exists d',
    DummyLookupSystem.getDummy Model.entity "wheel_DUMMY_fl" = Some d' /\
    DummyLookupSystem.name d' = Some "wheel_DUMMY_fl" /\
    In d' (DummyLookupSystem.traverse Model.car).
Proof.
  split; [reflexivity|].
  apply (getDummy_finds_a_named_dummy
           (DummyLookupSystem.mkEntityView "s15" (Some Model.car))
           Model.car Model.wheel_dummy "wheel_DUMMY_fl").
  - reflexivity.
  - cbn. tauto.
  - reflexivity.
  - reflexivity.
Defined.

(** X18: the dummies of an entity are collected in traversal order: the
    entity's node first when it is a dummy itself, then the dummies under
    each child, child by child.  Without an entity, or for an entity without
    a node, there are none. *)
Theorem getDummies_in_traversal_order :
  DummyLookupSystem.getDummies None = [] /\
  (forall nm,
     DummyLookupSystem.getDummies
       (Some (DummyLookupSystem.mkEntityView nm None)) = []) /\
  (forall nm object,
     DummyLookupSystem.getDummies
       (Some (DummyLookupSystem.mkEntityView nm (Some object))) =
     (if DummyLookupSystem.is_dummy object then [object] else []) ++
     flat_map
       (fun child =>
          DummyLookupSystem.getDummies
            (Some (DummyLookupSystem.mkEntityView nm (Some child))))
       (DummyLookupSystem.children object)).
Proof.
  split; [reflexivity|]. split; [reflexivity|].
  intros nm [n cs]. rewrite getDummies_of_object.
  cbn [DummyLookupSystem.traverse DummyLookupSystem.children List.filter].
  rewrite filter_flat_map.
  now destruct (DummyLookupSystem.is_dummy (DummyLookupSystem.Node n cs)).
Qed.

(** ** The audio manager *)

Lemma JsMap_get_set_eq {V} (k : string) (v : V) (m : JsMap.t V) :
  JsMap.get k (JsMap.set k v m) = Some v.
Proof.
  induction m as [|[k' v'] m IH]; cbn.
  - now rewrite String.eqb_refl.
  - destruct (String.eqb k k') eqn:E; cbn.
    + now rewrite String.eqb_refl.
    + now rewrite E.
Qed.

Lemma JsMap_get_set_ne {V} (k k' : string) (v : V) (m : JsMap.t V) :
  k' <> k -> JsMap.get k' (JsMap.set k v m) = JsMap.get k' m.
Proof.
  intros Hne. induction m as [|[k0 v0] m IH]; cbn.
  - apply String.eqb_neq in Hne. now rewrite Hne.
  - destruct (String.eqb k k0) eqn:E; cbn.
    + apply String.eqb_eq in E. subst k0.
      apply String.eqb_neq in Hne. now rewrite Hne.
    + now rewrite IH.
Qed.

Lemma get_on_sound_eq (k : string) (f : Sound.Step) (m : AudioManager.t) :
  AudioManager.get k (AudioManager.on_sound k f m) =
  option_map (fun s => fst (f s)) (AudioManager.get k m).
Proof.
  unfold AudioManager.on_sound.
  destruct (AudioManager.get k m) as [s|] eqn:E; cbn.
  - destruct (f s) as [s' cs]. unfold AudioManager.get. cbn.
    apply JsMap_get_set_eq.
  - exact E.
Qed.

Lemma get_on_sound_ne (k k' : string) (f : Sound.Step) (m : AudioManager.t) :
  k' <> k ->
  AudioManager.get k' (AudioManager.on_sound k f m) = AudioManager.get k' m.
Proof.
  intros Hne. unfold AudioManager.on_sound.
  destruct (AudioManager.get k m) as [s|]; [|reflexivity].
  destruct (f s) as [s' cs]. unfold AudioManager.get. cbn.
  now apply JsMap_get_set_ne.
Qed.

Lemma calls_on_sound (k : string) (f : Sound.Step) (m : AudioManager.t) :
  AudioManager.calls (AudioManager.on_sound k f m) =
  AudioManager.calls m ++
  match AudioManager.get k m with
  | Some s => snd (f s)
  | None => []
  end.
Proof.
  unfold AudioManager.on_sound.
  destruct (AudioManager.get k m) as [s|].
  - now destruct (f s).
  - now rewrite app_nil_r.
Qed.

Lemma get_forEach (k : string) (f : Sound.Step) (m : AudioManager.t) :
  AudioManager.get k (AudioManager.forEach f m) =
  option_map (fun s => fst (f s)) (AudioManager.get k m).
Proof.
  unfold AudioManager.get, AudioManager.forEach. cbn.
  induction (AudioManager.sounds m) as [|[k' s] l IH]; [reflexivity|].
  cbn. now destruct (String.eqb k k').
Qed.

Lemma keys_forEach (f : Sound.Step) (m : AudioManager.t) :
  JsMap.keys (AudioManager.sounds (AudioManager.forEach f m)) =
  JsMap.keys (AudioManager.sounds m).
Proof.
  unfold JsMap.keys, AudioManager.forEach. cbn.
  rewrite List.map_map. now apply map_ext.
Qed.

(** X19: a sound's own flag and its audio object's flag stay in step: when
    they agree before [play], [pause] or [stop], they agree afterwards, and
    the sound plays after [play] with restart and does not after [pause] or
    [stop].  A restart of a playing sound stops it before it plays it
    again. *)
Theorem sound_flags_stay_in_step (s : Sound.t)
    (Hstep : in_step s = true) :
  (forall restart, in_step (fst (Sound.play restart s)) = true) /\
  in_step (fst (Sound.pause s)) = true /\
  in_step (fst (Sound.stop s)) = true /\
  Sound.isPlaying (fst (Sound.play true s)) = true /\
  Sound.isPlaying (fst (Sound.pause s)) = false /\
  Sound.isPlaying (fst (Sound.stop s)) = false /\
  snd (Sound.play true s) =
    (if Sound.isPlaying s then [AudioStop (Sound.key s)] else []) ++
    [AudioPlay (Sound.key s)].
Proof.
  destruct s as [k ty cfg p a]. unfold in_step in Hstep. cbn in Hstep.
  apply Bool.eqb_prop in Hstep. subst a.
  repeat split; try intros restart; try destruct restart; destruct p;
    reflexivity.
Qed.

Lemma sound_flags_stay_in_step_witness :
  in_step Studio.theme = true /\
  Sound.isPlaying (fst (Sound.stop Studio.theme)) = false /\
  snd (Sound.play true Studio.theme) = [AudioStop "theme"; AudioPlay "theme"].
Proof.
  split; [reflexivity|].
  pose proof (sound_flags_stay_in_step Studio.theme eq_refl)
    as (_ & _ & _ & _ & _ & Hstop & Hcalls).
  split; [exact Hstop | exact Hcalls].
Defined.

(** X20: pausing all sounds and resuming them (both with the same exception,
    if any) on a manager that is not muted leaves every sound of the
    excepted type as it was and every other sound playing exactly when its
    configuration asks for autoplay: a sound without autoplay that was
    playing is not resumed, and an autoplay sound that was not playing is
    started.  On a muted manager no sound that the pause concerns plays
    afterwards.  The keys of the registry do not change. *)
Theorem pause_then_resume_follows_autoplay
    (exceptType : option SoundType) (m : AudioManager.t) (k : string)
    (sound : Sound.t)
    (Hsound : AudioManager.get k m = Some sound) :
  let m' := AudioManager.resumeAll exceptType
              (AudioManager.pauseAll exceptType m) in
  JsMap.keys (AudioManager.sounds m') = JsMap.keys (AudioManager.sounds m) /\
  exists sound',
    AudioManager.get k m' = Some sound' /\
    (AudioManager.concerns exceptType sound = false -> sound' = sound) /\
    (AudioManager.concerns exceptType sound = true ->
     Sound.isPlaying sound' =
       negb (AudioManager.muted m) && config_autoplay (Sound.config sound)).
Proof.
  cbn zeta. unfold AudioManager.resumeAll.
  assert (Hpaused :
    AudioManager.get k (AudioManager.pauseAll exceptType m) =
    Some (fst (Sound.when (AudioManager.concerns exceptType)
                 (Sound.when Sound.isPlaying Sound.pause) sound))).
  { unfold AudioManager.pauseAll. now rewrite get_forEach, Hsound. }
  assert (Hmuted : AudioManager.muted (AudioManager.pauseAll exceptType m) =
                   AudioManager.muted m) by reflexivity.
  rewrite Hmuted.
  destruct (AudioManager.muted m) eqn:Em.
  - split; [apply keys_forEach|].
    eexists. split; [exact Hpaused|].
    destruct sound as [k0 ty cfg p a].
    unfold Sound.when, AudioManager.concerns. cbn.
    destruct exceptType as [ty'|]; [destruct (SoundType_eqb ty ty')|];
      destruct p; cbn; split; intros Hc; try discriminate Hc; reflexivity.
  - split; [rewrite keys_forEach; apply keys_forEach|].
    rewrite get_forEach, Hpaused. cbn [option_map].
    eexists. split; [reflexivity|].
    destruct sound as [k0 ty [ck cty auto] p a].
    unfold Sound.when, AudioManager.concerns. cbn.
    destruct exceptType as [ty'|]; [destruct (SoundType_eqb ty ty') eqn:Et|];
      destruct p, auto; cbn; rewrite ?Et; cbn;
      split; intros Hc; try discriminate Hc; reflexivity.
Qed.

Lemma pause_then_resume_follows_autoplay_witness :
  let m' := AudioManager.resumeAll (Some MUSIC)
              (AudioManager.pauseAll (Some MUSIC) Studio.mixer) in
  Sound.isPlaying Studio.click = true /\
  exists sound',
    AudioManager.get "click" m' = Some sound' /\
    Sound.isPlaying sound' = false.
Proof.
  cbn zeta. split; [reflexivity|].
  destruct (pause_then_resume_follows_autoplay (Some MUSIC) Studio.mixer
              "click" Studio.click eq_refl)
    as [_ (sound' & Hget & _ & Hplaying)].
  exists sound'. split; [exact Hget|].
  exact (Hplaying eq_refl).
Defined.

Lemma append_cancel_l (p a b : string) :
  String.append p a = String.append p b -> a = b.
Proof.
  induction p as [|c p IH]; cbn; [easy|].
  intros H. injection H as H. now apply IH.
Qed.

Lemma pooled_key_inj (baseKey : string) (i j : nat) :
  AudioManager.pooled_key baseKey i = AudioManager.pooled_key baseKey j ->
  i = j.
Proof.
  unfold AudioManager.pooled_key. intros H.
  do 2 apply append_cancel_l in H.
  assert (Hu : Nat.to_uint i = Nat.to_uint j).
  { pose proof (DecimalString.NilEmpty.usu (Nat.to_uint i)) as Hi.
    pose proof (DecimalString.NilEmpty.usu (Nat.to_uint j)) as Hj.
    rewrite H in Hi. congruence. }
  rewrite <- (DecimalNat.Unsigned.of_to i), <- (DecimalNat.Unsigned.of_to j).
  now rewrite Hu.
Qed.

Lemma first_idle_finds (baseKey : string) (m : AudioManager.t) (j : nat) :
  forall n i,
    i <= j < i + n ->
    (forall i', i <= i' < j -> busy_at baseKey m i') ->
    idle_at baseKey m j ->
    AudioManager.first_idle baseKey i n m =
    Some (AudioManager.pooled_key baseKey j).
Proof.
  induction n as [|n IH]; intros i Hj Hbusy Hidle; [lia|].
  cbn [AudioManager.first_idle].
  destruct (Nat.eq_dec i j) as [->|Hne].
  - destruct Hidle as (sound & -> & ->). reflexivity.
  - assert (Hb : busy_at baseKey m i) by (apply Hbusy; lia).
    unfold busy_at in Hb.
    destruct (AudioManager.get (AudioManager.pooled_key baseKey i) m)
      as [sound|].
    + rewrite Hb. cbn. apply IH; [lia| |exact Hidle].
      intros i' Hi'. apply Hbusy. lia.
    + apply IH; [lia| |exact Hidle].
      intros i' Hi'. apply Hbusy. lia.
Qed.

Lemma first_idle_none (baseKey : string) (m : AudioManager.t) :
  forall n i,
    (forall i', i <= i' < i + n -> busy_at baseKey m i') ->
    AudioManager.first_idle baseKey i n m = None.
Proof.
  induction n as [|n IH]; intros i Hbusy; [reflexivity|].
  cbn [AudioManager.first_idle].
  assert (Hb : busy_at baseKey m i) by (apply Hbusy; lia).
  unfold busy_at in Hb.
  destruct (AudioManager.get (AudioManager.pooled_key baseKey i) m)
    as [sound|].
  - rewrite Hb. cbn. apply IH. intros i' Hi'. apply Hbusy. lia.
  - apply IH. intros i' Hi'. apply Hbusy. lia.
Qed.

Lemma playFromPool_idle (baseKey : string) (count j : nat)
    (m : AudioManager.t) :
  j < count ->
  (forall i, i < j -> busy_at baseKey m i) ->
  idle_at baseKey m j ->
  AudioManager.playFromPool baseKey count m =
  (Some (AudioManager.pooled_key baseKey j),
   AudioManager.on_sound (AudioManager.pooled_key baseKey j)
     (Sound.play true) m).
Proof.
  intros Hj Hbusy Hidle. unfold AudioManager.playFromPool.
  rewrite (first_idle_finds baseKey m j); [reflexivity|lia| |exact Hidle].
  intros i Hi. apply Hbusy. lia.
Qed.

Lemma playFromPool_busy (baseKey : string) (count : nat)
    (m : AudioManager.t) (firstSound : Sound.t) :
  (forall i, i < count -> busy_at baseKey m i) ->
  AudioManager.get (AudioManager.pooled_key baseKey 0) m = Some firstSound ->
  AudioManager.playFromPool baseKey count m =
  (Some (AudioManager.pooled_key baseKey 0),
   AudioManager.on_sound (AudioManager.pooled_key baseKey 0) (Sound.play true)
     (if Sound.isPlaying firstSound
      then AudioManager.on_sound (AudioManager.pooled_key baseKey 0)
             Sound.stop m
      else m)).
Proof.
  intros Hbusy Hfirst. unfold AudioManager.playFromPool.
  rewrite first_idle_none; [|intros i Hi; apply Hbusy; lia].
  now rewrite Hfirst.
Qed.

(** X21: [playFromPool] takes the idle sound of least index: when the sound
    of index [j] of the pool is loaded and does not play, and every sound
    before it is missing or plays, the call returns that sound, starts it
    with one play request and no stop request, and leaves every other sound
    as it was. *)
Theorem playFromPool_takes_the_first_idle_sound
    (baseKey : string) (count j : nat) (m : AudioManager.t) (sound : Sound.t)
    (Hj : j < count)
    (Hbusy : forall i, i < j -> busy_at baseKey m i)
    (Hsound : AudioManager.get (AudioManager.pooled_key baseKey j) m =
              Some sound)
    (Hidle : Sound.isPlaying sound = false) :
  exists m' sound',
    AudioManager.playFromPool baseKey count m =
      (Some (AudioManager.pooled_key baseKey j), m') /\
    AudioManager.get (AudioManager.pooled_key baseKey j) m' = Some sound' /\
    Sound.isPlaying sound' = true /\
    AudioManager.calls m' =
      AudioManager.calls m ++ [AudioPlay (Sound.key sound)] /\
    forall k, k <> AudioManager.pooled_key baseKey j ->
      AudioManager.get k m' = AudioManager.get k m.
Proof.
  eexists _, (fst (Sound.play true sound)).
  split; [apply playFromPool_idle; [exact Hj|exact Hbusy|]|].
  { now exists sound. }
  split; [now rewrite get_on_sound_eq, Hsound|].
  destruct sound as [k0 ty cfg p a]. cbn in Hidle. subst p.
  split; [reflexivity|].
  split; [now rewrite calls_on_sound, Hsound|].
  intros k Hk. now apply get_on_sound_ne.
Qed.

Lemma playFromPool_takes_the_first_idle_sound_witness :
  exists m' sound',
    AudioManager.playFromPool "horn" 3 Studio.horns = (Some "horn_0", m') /\
    AudioManager.get "horn_0" m' = Some sound' /\
    Sound.isPlaying sound' = true /\
    AudioManager.calls m' = [AudioPlay "horn_0"].
Proof.
  destruct (playFromPool_takes_the_first_idle_sound "horn" 3 0 Studio.horns
              (Sound.mk "horn_0" SFX (mkSoundConfig "horn_0" SFX false)
                 false false))
    as (m' & sound' & Hcall & Hget & Hplaying & Hcalls & _).
  - lia.
  - intros i Hi. lia.
  - reflexivity.
  - reflexivity.
  - exists m', sound'. repeat split; assumption.
Defined.

(** X22: when every sound of the pool is missing or plays, [playFromPool]
    falls back on the sound of index 0: if it is loaded (also when the pool
    size given is 0), it is cut off with one stop request when it was
    marked as playing, played again, and returned, and no other sound
    changes; if it is missing, the call returns null and changes nothing. *)
Theorem playFromPool_restarts_the_first_sound_when_all_are_busy
    (baseKey : string) (count : nat) (m : AudioManager.t)
    (Hbusy : forall i, i < count -> busy_at baseKey m i) :
  let firstKey := AudioManager.pooled_key baseKey 0 in
  match AudioManager.get firstKey m with
  | Some firstSound =>
      exists m' sound',
        AudioManager.playFromPool baseKey count m = (Some firstKey, m') /\
        AudioManager.get firstKey m' = Some sound' /\
        Sound.isPlaying sound' = true /\
        Sound.audio_isPlaying sound' = true /\
        AudioManager.calls m' =
          AudioManager.calls m ++
          (if Sound.isPlaying firstSound
           then [AudioStop (Sound.key firstSound)] else []) ++
          [AudioPlay (Sound.key firstSound)] /\
        forall k, k <> firstKey ->
          AudioManager.get k m' = AudioManager.get k m
  | None => AudioManager.playFromPool baseKey count m = (None, m)
  end.
Proof.
  cbn zeta.
  destruct (AudioManager.get (AudioManager.pooled_key baseKey 0) m)
    as [firstSound|] eqn:Hfirst.
  - pose proof (playFromPool_busy _ _ _ firstSound Hbusy Hfirst) as Hcall.
    destruct firstSound as [k0 ty cfg p a].
    cbn [Sound.isPlaying Sound.key] in Hcall |- *.
    destruct p; eexists _, _; (split; [exact Hcall|]).
    + rewrite get_on_sound_eq, get_on_sound_eq, Hfirst.
      split; [reflexivity|].
      rewrite calls_on_sound, get_on_sound_eq, Hfirst, calls_on_sound, Hfirst.
      destruct a; cbn; rewrite <- ?app_assoc; repeat split; try reflexivity;
        intros k Hk; now rewrite !get_on_sound_ne.
    + rewrite get_on_sound_eq, Hfirst.
      split; [reflexivity|].
      rewrite calls_on_sound, Hfirst.
      repeat split.
      intros k Hk. now rewrite get_on_sound_ne.
  - unfold AudioManager.playFromPool.
    rewrite first_idle_none; [|intros i Hi; apply Hbusy; lia].
    now rewrite Hfirst.
Qed.

Lemma playFromPool_restarts_the_first_sound_when_all_are_busy_witness :
  exists m' sound',
    AudioManager.playFromPool "theme" 0
      (AudioManager.mk [("theme_0", Studio.theme)] false []) =
      (Some "theme_0", m') /\
    AudioManager.get "theme_0" m' = Some sound' /\
    Sound.isPlaying sound' = true /\
    AudioManager.calls m' = [AudioStop "theme"; AudioPlay "theme"].
Proof.
  pose proof (playFromPool_restarts_the_first_sound_when_all_are_busy
                "theme" 0
                (AudioManager.mk [("theme_0", Studio.theme)] false [])) as H.
  cbn zeta in H.
  change (AudioManager.get (AudioManager.pooled_key "theme" 0)
            (AudioManager.mk [("theme_0", Studio.theme)] false []))
    with (Some Studio.theme) in H.
  destruct H as (m' & sound' & Hcall & Hget & Hplaying & _ & Hcalls & _).
  - intros i Hi. lia.
  - exists m', sound'. repeat split; assumption.
Defined.

Lemma NoDup_map_seq {A : Type} (f : nat -> A) :
  (forall i j, f i = f j -> i = j) ->
  forall n a, List.NoDup (List.map f (seq a n)).
Proof.
  intros Hinj. induction n as [|n IH]; intros a; cbn; constructor.
  - intros Hin. apply in_map_iff in Hin as (j & Hj & Hin).
    apply Hinj in Hj. apply in_seq in Hin. lia.
  - apply IH.
Qed.

(** X23: [createSoundPool] returns [count] keys that are pairwise distinct
    (the base key, an underscore and the index in decimal), and starts one
    load per key, each with the pool's url, the given sound type, its own
    key, and autoplay switched off whatever the given configuration says. *)
Theorem createSoundPool_keys_are_distinct
    (baseKey : string) (count : nat) (url : string) (cfg : SoundConfig) :
  let pool := AudioManager.createSoundPool baseKey count url cfg in
  length (fst pool) = count /\
  List.NoDup (fst pool) /\
  List.map (fun r => config_key (snd r)) (snd pool) = fst pool /\
  forall r, In r (snd pool) ->
    fst r = url /\
    config_type (snd r) = config_type cfg /\
    config_autoplay (snd r) = false.
Proof.
  cbn. split; [now rewrite length_map, length_seq|].
  split; [apply NoDup_map_seq; apply pooled_key_inj|].
  split; [now rewrite List.map_map|].
  intros r Hr. apply in_map_iff in Hr as (i & <- & _). now cbn.
Qed.

Lemma play_in_a_row_app (baseKey : string) (count a b : nat)
    (m : AudioManager.t) :
  play_in_a_row baseKey count (a + b) m =
  (fst (play_in_a_row baseKey count a m) ++
   fst (play_in_a_row baseKey count b (snd (play_in_a_row baseKey count a m))),
   snd (play_in_a_row baseKey count b (snd (play_in_a_row baseKey count a m)))).
Proof.
  revert m. induction a as [|a IH]; intros m; cbn.
  - now destruct (play_in_a_row baseKey count b m).
  - destruct (AudioManager.playFromPool baseKey count m) as [r m1].
    rewrite IH.
    destruct (play_in_a_row baseKey count a m1) as [rs m2]. cbn.
    reflexivity.
Qed.

Lemma playing_is_busy (baseKey : string) (m : AudioManager.t) (i : nat) :
  playing_at baseKey m i -> busy_at baseKey m i.
Proof. intros (sound & Hget & Hp). unfold busy_at. now rewrite Hget. Qed.

Lemma round_robin_from (baseKey : string) (count : nat) :
  forall d j m,
    j + d = count ->
    (forall i, i < j -> playing_at baseKey m i) ->
    (forall i, j <= i < count -> idle_at baseKey m i) ->
    fst (play_in_a_row baseKey count d m) =
      List.map (fun i => Some (AudioManager.pooled_key baseKey i)) (seq j d) /\
    forall i, i < count ->
      playing_at baseKey (snd (play_in_a_row baseKey count d m)) i.
Proof.
  induction d as [|d IH]; intros j m Hjd Hplaying Hidle.
  - cbn. split; [reflexivity|]. intros i Hi. apply Hplaying. lia.
  - cbn [play_in_a_row].
    rewrite (playFromPool_idle baseKey count j m);
      [|lia|intros i Hi; now apply playing_is_busy, Hplaying|apply Hidle; lia].
    set (m1 := AudioManager.on_sound _ _ m).
    destruct (IH (S j) m1) as [Hres Hall]; [lia| | |].
    + intros i Hi. destruct (Nat.eq_dec i j) as [->|Hne].
      * destruct (Hidle j) as (sound & Hget & Hp); [lia|].
        exists (fst (Sound.play true sound)). subst m1.
        rewrite get_on_sound_eq, Hget. split; [reflexivity|].
        now destruct sound as [k0 ty cfg [|] a].
      * destruct (Hplaying i) as (sound & Hget & Hp); [lia|].
        exists sound. subst m1. split; [|exact Hp].
        rewrite get_on_sound_ne; [exact Hget|].
        intros Hk. now apply pooled_key_inj in Hk.
    + intros i Hi. destruct (Hidle i) as (sound & Hget & Hp); [lia|].
      exists sound. subst m1. split; [|exact Hp].
      rewrite get_on_sound_ne; [exact Hget|].
      intros Hk. apply pooled_key_inj in Hk. lia.
    + destruct (play_in_a_row baseKey count d m1) as [rs m2].
      cbn in Hres, Hall |- *. split; [now rewrite Hres|exact Hall].
Qed.

(** X24: a pool whose sounds are all loaded and idle is handed out in turn:
    as many calls of [playFromPool] in a row as the pool has sounds return
    the sounds of index 0, 1, 2, ... in this order, and the next call, which
    finds them all playing, returns the sound of index 0 again. *)
Theorem idle_pool_is_handed_out_in_turn
    (baseKey : string) (count : nat) (m : AudioManager.t)
    (Hcount : 0 < count)
    (Hidle : forall i, i < count -> idle_at baseKey m i) :
  fst (play_in_a_row baseKey count (count + 1) m) =
  List.map (fun i => Some (AudioManager.pooled_key baseKey i)) (seq 0 count)
  ++ [Some (AudioManager.pooled_key baseKey 0)].
Proof.
  rewrite play_in_a_row_app. cbn [fst].
  destruct (round_robin_from baseKey count count 0 m) as [Hres Hall];
    [lia|intros i Hi; lia|intros i Hi; apply Hidle; lia|].
  rewrite Hres. f_equal.
  set (m1 := snd (play_in_a_row baseKey count count m)) in *.
  destruct (Hall 0 Hcount) as (firstSound & Hget & _).
  cbn [play_in_a_row].
  rewrite (playFromPool_busy baseKey count m1 firstSound);
    [reflexivity| |exact Hget].
  intros i Hi. now apply playing_is_busy, Hall.
Qed.

Lemma create_idle (cfg : SoundConfig) (m : AudioManager.t) :
  config_autoplay cfg = false ->
  AudioManager.create cfg m =
  AudioManager.mk
    (JsMap.set (config_key cfg)
       (Sound.mk (config_key cfg) (config_type cfg) cfg false false)
       (AudioManager.sounds m))
    (AudioManager.muted m) (AudioManager.calls m).
Proof.
  intros Hauto. unfold AudioManager.create, Sound.new, Sound.when.
  cbn [Sound.config]. rewrite Hauto. cbn. now rewrite app_nil_r.
Qed.

Lemma loaded_keeps (requests : list (string * SoundConfig))
    (m : AudioManager.t) (k : string) :
  (forall r, In r requests ->
     config_autoplay (snd r) = false /\ config_key (snd r) <> k) ->
  AudioManager.get k (loaded requests m) = AudioManager.get k m /\
  AudioManager.calls (loaded requests m) = AudioManager.calls m.
Proof.
  revert m. induction requests as [|r requests IH]; intros m Hall;
    [now split|].
  cbn [loaded fold_left].
  destruct (Hall r (or_introl eq_refl)) as [Hauto Hkey].
  destruct (IH (AudioManager.create (snd r) m)) as [Hget Hcalls].
  { intros r' Hr'. apply Hall. now right. }
  unfold loaded in Hget, Hcalls. rewrite Hget, Hcalls.
  rewrite (create_idle _ _ Hauto). unfold AudioManager.get. cbn.
  split; [|reflexivity].
  apply JsMap_get_set_ne. congruence.
Qed.

(** X25: once the loads that [createSoundPool] started have completed, every
    sound of the pool is registered under its pooled key, carries that key
    and the given type, does not play and has autoplay off; completing the
    loads makes no audio request and touches no sound outside the pool. *)
Theorem loaded_pool_is_idle
    (baseKey : string) (count : nat) (url : string) (cfg : SoundConfig)
    (m : AudioManager.t) :
  let pool := AudioManager.createSoundPool baseKey count url cfg in
  let m' := loaded (snd pool) m in
  (forall i, (i < count)%nat ->
     AudioManager.get (AudioManager.pooled_key baseKey i) m' =
     Some (Sound.mk (AudioManager.pooled_key baseKey i) (config_type cfg)
             (mkSoundConfig (AudioManager.pooled_key baseKey i)
                (config_type cfg) false)
             false false)) /\
  AudioManager.calls m' = AudioManager.calls m /\
  (forall k, ~ In k (fst pool) ->
     AudioManager.get k m' = AudioManager.get k m).
Proof.
  cbn zeta. unfold AudioManager.createSoundPool. cbn [fst snd].
  split; [|split].
  - assert (Hgen : forall n a m0 i, (a <= i < a + n)%nat ->
      AudioManager.get (AudioManager.pooled_key baseKey i)
        (loaded
           (List.map
              (fun i => (url, mkSoundConfig (AudioManager.pooled_key baseKey i)
                                (config_type cfg) false))
              (seq a n)) m0) =
      Some (Sound.mk (AudioManager.pooled_key baseKey i) (config_type cfg)
              (mkSoundConfig (AudioManager.pooled_key baseKey i)
                 (config_type cfg) false)
              false false)).
    { induction n as [|n IH]; intros a m0 i Hi; [lia|].
      cbn [seq List.map]. change (loaded (?r :: ?rs) ?x)
        with (loaded rs (AudioManager.create (snd r) x)).
      destruct (Nat.eq_dec i a) as [->|Hne].
      - match goal with
        | |- AudioManager.get ?k (loaded ?rs ?x) = _ =>
            destruct (loaded_keeps rs x k) as [-> _]
        end.
        + intros r Hr. apply in_map_iff in Hr as (j & <- & Hj).
          cbn. split; [reflexivity|].
          intros Hk. apply pooled_key_inj in Hk. apply in_seq in Hj. lia.
        + rewrite create_idle by reflexivity. unfold AudioManager.get. cbn.
          apply JsMap_get_set_eq.
      - apply IH. lia. }
    intros i Hi. apply Hgen. lia.
  - apply (loaded_keeps _ m EmptyString).
    intros r Hr. apply in_map_iff in Hr as (j & <- & _). cbn.
    split; [reflexivity|].
    unfold AudioManager.pooled_key. destruct baseKey; discriminate.
  - intros k Hk. apply loaded_keeps.
    intros r Hr. apply in_map_iff in Hr as (j & <- & Hj). cbn.
    split; [reflexivity|].
    intros <-. apply Hk. apply in_map_iff. now exists j.
Qed.

Lemma horns_are_idle (i : nat) :
  (i < 3)%nat -> idle_at "horn" Studio.horns i.
Proof.
  intros Hi.
  destruct i as [|[|[|i]]]; [| | |lia];
    (eexists; split; [vm_compute; reflexivity|reflexivity]).
Qed.

Lemma idle_pool_is_handed_out_in_turn_witness :
  fst (play_in_a_row "horn" 3 4 Studio.horns) =
  [Some "horn_0"; Some "horn_1"; Some "horn_2"; Some "horn_0"].
Proof.
  exact (idle_pool_is_handed_out_in_turn "horn" 3 Studio.horns
           ltac:(lia) horns_are_idle).
Defined.
